(** * SgCG: contrastive and prototype-alignment losses (code/SgCG.py)

    A shallow embedding of the loss module.  The module is tensor code on
    top of PyTorch; the embedding follows it line by line over a small model
    of the PyTorch operations it calls.

    Conventions of the model.

    - Floating-point numbers are idealised: every function is written over
      an abstract scalar type [F] with the arithmetic of the code
      ([Scalar]), plus [exp] and [log] where the code uses them
      ([Transcendental]).  The rationals [Q] instantiate the former and are
      used to run the code on concrete inputs; the reals [R] instantiate
      both and carry the analytic statements.  [xreal] instantiates both
      with the range of single precision: its results overflow to the
      infinities, which combine with NaN as in IEEE 754, and underflow to
      zero; it carries the statements on the sign and the finiteness of a
      loss.  Rounding is outside the model throughout.
    - A tensor is its shape together with its row-major data ([tensor]);
      integer tensors ([itensor]) hold labels.  After alignment the code
      works on two-dimensional tensors only, which are kept as lists of rows
      with their column count ([matrix]).
    - Python exceptions are values of [exn]; a call either returns ([Ok]) or
      raises ([Raise]).
    - The PyTorch release and the host enter through [Platform]: whether
      [.cuda()] finds a device, and which exception [torch.cat] raises on
      an empty list.  The autograd graph is not modelled; the
      [requires_grad] flag, which the code asserts on, is.
    - The file system enters through the four readers that
      [get_class_weight] calls ([file_readers]).  The [ContrastiveLoss]
      module is the record of its attributes; [forward] returns the module
      as it is after the call together with the result, since a call can
      replace [loss_weight]. *)

From Stdlib Require Import String.
From Stdlib Require Import List ZArith Bool Arith Lia.
From Stdlib Require Import QArith Qfield.
From Stdlib Require Import Reals Lra.
Import ListNotations.

Close Scope R_scope.
Close Scope Q_scope.
Close Scope Z_scope.
Open Scope nat_scope.

(** ** Python exceptions and fallible computations *)

Inductive exn : Type :=
| AssertionError | ValueError | RuntimeError | IndexError
| KeyError | AttributeError | TypeError.

Inductive result (A : Type) : Type :=
| Ok (a : A)
| Raise (e : exn).

Arguments Ok {A} a.
Arguments Raise {A} e.

Definition bind {A B : Type} (c : result A) (k : A -> result B) : result B :=
  match c with
  | Ok a => k a
  | Raise e => Raise e
  end.

Declare Scope py_scope.
Delimit Scope py_scope with py.
Notation "x <- c ;; k" := (bind c (fun x => k))
  (at level 61, c at next level, right associativity) : py_scope.
Notation "c ;;; k" := (bind c (fun _ => k))
  (at level 61, right associativity) : py_scope.
Open Scope py_scope.

(** [assert b]. *)
Definition assert (b : bool) : result unit :=
  if b then Ok tt else Raise AssertionError.

(** A Python argument that is [None], a single value, a list or a dict
    keyed by integers (the [mean], [covariance], [bank] and [feat]
    arguments of the loss functions are used in all these forms). *)
Inductive pyarg (A : Type) : Type :=
| PyNone
| PyOne (a : A)
| PyList (l : list A)
| PyDict (d : list (Z * A)).

Arguments PyNone {A}.
Arguments PyOne {A} a.
Arguments PyList {A} l.
Arguments PyDict {A} d.

Definition is_none {A} (x : pyarg A) : bool :=
  match x with PyNone => true | _ => false end.

Definition is_list {A} (x : pyarg A) : bool :=
  match x with PyList _ => true | _ => false end.

Definition is_list_or_dict {A} (x : pyarg A) : bool :=
  match x with PyList _ | PyDict _ => true | _ => false end.

Fixpoint assoc {A} (k : Z) (d : list (Z * A)) : option A :=
  match d with
  | [] => None
  | (k', v) :: d' => if Z.eqb k k' then Some v else assoc k d'
  end.

(** [x[index]] for a non-negative [index]: position in a list, key in a
    dict. *)
Definition getitem {A} (x : pyarg A) (index : Z) : result (pyarg A) :=
  match x with
  | PyList l =>
      match nth_error l (Z.to_nat index) with
      | Some a => Ok (PyOne a)
      | None => Raise IndexError
      end
  | PyDict d =>
      match assoc index d with
      | Some a => Ok (PyOne a)
      | None => Raise KeyError
      end
  | _ => Raise TypeError
  end.

(** The value [v] an argument [x] stands for under [index]: the argument
    itself when [index] is negative, its entry at [index] otherwise (lines
    239-243, 299-305 and 371-379). *)
Definition picked {A} (index : Z) (x : pyarg A) (v : A) : Prop :=
  ((index < 0)%Z /\ x = PyOne v) \/
  ((0 <= index)%Z /\ is_list_or_dict x = true /\
   getitem x index = Ok (PyOne v)).

Definition picked_list {A} (index : Z) (x : pyarg A) (v : A) : Prop :=
  ((index < 0)%Z /\ x = PyOne v) \/
  ((0 <= index)%Z /\ is_list x = true /\ getitem x index = Ok (PyOne v)).

(** The same for the memory bank, whose entry at [index] has to be a
    deque (line 374). *)
Definition picked_bank {A} (index : Z) (x : pyarg (pyarg A)) (v : pyarg A)
    : Prop :=
  ((index < 0)%Z /\ x = PyOne v) \/
  ((0 <= index)%Z /\ is_list_or_dict x = true /\
   getitem x index = Ok (PyOne v) /\ is_list v = true).

(** ** Scalars *)

Class Scalar (F : Type) : Type := {
  szero : F;
  sone : F;
  sadd : F -> F -> F;
  ssub : F -> F -> F;
  smul : F -> F -> F;
  sdiv : F -> F -> F;
  sneg : F -> F;
  sltb : F -> F -> bool;
  of_Z : Z -> F
}.

Class Transcendental (F : Type) : Type := {
  sexp : F -> F;
  slog : F -> F
}.

Declare Scope scalar_scope.
Delimit Scope scalar_scope with S.
Infix "+!" := sadd (at level 50, left associativity) : scalar_scope.
Infix "-!" := ssub (at level 50, left associativity) : scalar_scope.
Infix "*!" := smul (at level 40, left associativity) : scalar_scope.
Infix "/!" := sdiv (at level 40, left associativity) : scalar_scope.
Open Scope scalar_scope.

#[export] Instance Q_Scalar : Scalar Q := {
  szero := 0%Q;
  sone := 1%Q;
  sadd := Qplus;
  ssub := Qminus;
  smul := Qmult;
  sdiv := Qdiv;
  sneg := Qopp;
  sltb := fun x y => negb (Qle_bool y x);
  of_Z := inject_Z
}.

#[export] Instance R_Scalar : Scalar R := {
  szero := 0%R;
  sone := 1%R;
  sadd := Rplus;
  ssub := Rminus;
  smul := Rmult;
  sdiv := Rdiv;
  sneg := Ropp;
  sltb := fun x y => if Rlt_dec x y then true else false;
  of_Z := IZR
}.

#[export] Instance R_Transcendental : Transcendental R := {
  sexp := exp;
  slog := ln
}.

(** ** Arithmetic with a bounded range

    The tensors of the module hold single-precision numbers.  [xreal] is
    their arithmetic with the rounding left out and the range kept: a value
    is a real number, an infinity or NaN; a result beyond [float_max]
    overflows to the infinity of its sign, one within [float_tiny] of zero
    underflows to zero, and the infinities and NaN combine as in IEEE 754.
    Rounding within the range and the sign of zero are not modelled. *)

Inductive xreal : Type :=
| Fin (x : R)
| PInf
| NInf
| NaN.

(** The largest finite single-precision number, (2 - 2^-23) * 2^127. *)
Definition float_max : R := ((2 - / 2 ^ 23) * 2 ^ 127)%R.

(** Half the smallest positive single-precision number, 2^-150. *)
Definition float_tiny : R := (/ 2 ^ 150)%R.

(** A real result, brought into the range. *)
Definition to_range (x : R) : xreal :=
  if Rlt_dec float_max x then PInf
  else if Rlt_dec x (- float_max) then NInf
  else if Rlt_dec float_tiny x then Fin x
  else if Rlt_dec x (- float_tiny) then Fin x
  else Fin 0.

(** An infinity times or divided by a finite [x], or [x / 0]: the infinity
    of the sign of [x], NaN when [x] is zero. *)
Definition signed_inf (x : R) : xreal :=
  if Rlt_dec 0 x then PInf
  else if Rlt_dec x 0 then NInf
  else NaN.

Definition xneg (a : xreal) : xreal :=
  match a with
  | Fin x => Fin (- x)
  | PInf => NInf
  | NInf => PInf
  | NaN => NaN
  end.

Definition xadd (a b : xreal) : xreal :=
  match a, b with
  | NaN, _ | _, NaN => NaN
  | PInf, NInf | NInf, PInf => NaN
  | PInf, _ | _, PInf => PInf
  | NInf, _ | _, NInf => NInf
  | Fin x, Fin y => to_range (x + y)
  end.

Definition xmul (a b : xreal) : xreal :=
  match a, b with
  | NaN, _ | _, NaN => NaN
  | Fin x, Fin y => to_range (x * y)
  | Fin x, PInf | PInf, Fin x => signed_inf x
  | Fin x, NInf | NInf, Fin x => signed_inf (- x)
  | PInf, PInf | NInf, NInf => PInf
  | PInf, NInf | NInf, PInf => NInf
  end.

Definition xdiv (a b : xreal) : xreal :=
  match a, b with
  | NaN, _ | _, NaN => NaN
  | Fin x, Fin y =>
      if Req_dec_T y 0 then signed_inf x else to_range (x / y)
  | Fin _, PInf | Fin _, NInf => Fin 0
  | PInf, Fin y => if Rlt_dec y 0 then NInf else PInf
  | NInf, Fin y => if Rlt_dec y 0 then PInf else NInf
  | _, _ => NaN
  end.

Definition xltb (a b : xreal) : bool :=
  match a, b with
  | NaN, _ | _, NaN => false
  | Fin x, Fin y => if Rlt_dec x y then true else false
  | NInf, Fin _ | NInf, PInf | Fin _, PInf => true
  | _, _ => false
  end.

Definition xexp (a : xreal) : xreal :=
  match a with
  | Fin x => to_range (exp x)
  | PInf => PInf
  | NInf => Fin 0
  | NaN => NaN
  end.

Definition xlog (a : xreal) : xreal :=
  match a with
  | Fin x =>
      if Rlt_dec x 0 then NaN
      else if Req_dec_T x 0 then NInf
      else to_range (ln x)
  | PInf => PInf
  | NInf | NaN => NaN
  end.

#[export] Instance xreal_Scalar : Scalar xreal := {
  szero := Fin 0;
  sone := Fin 1;
  sadd := xadd;
  ssub := fun a b => xadd a (xneg b);
  smul := xmul;
  sdiv := xdiv;
  sneg := xneg;
  sltb := xltb;
  of_Z := fun z => to_range (IZR z)
}.

#[export] Instance xreal_Transcendental : Transcendental xreal := {
  sexp := xexp;
  slog := xlog
}.

(** A value that is not negative: a non-negative number, the positive
    infinity or NaN. *)
Definition never_negative (a : xreal) : Prop :=
  match a with
  | Fin x => (0 <= x)%R
  | PInf | NaN => True
  | NInf => False
  end.

(** A value that is not positive: a non-positive number, the negative
    infinity or NaN. *)
Definition never_positive (a : xreal) : Prop :=
  match a with
  | Fin x => (x <= 0)%R
  | NInf | NaN => True
  | PInf => False
  end.

(** A number between 0 and 1, or NaN. *)
Definition unit_or_nan (a : xreal) : Prop :=
  match a with
  | Fin x => (0 <= x <= 1)%R
  | NaN => True
  | PInf | NInf => False
  end.

(** A value as an operation leaves it: not within [float_tiny] of zero,
    unless it is zero. *)
Definition not_tiny (a : xreal) : Prop :=
  match a with
  | Fin x => (x = 0 \/ float_tiny < x \/ x < - float_tiny)%R
  | _ => True
  end.

(** ** Lists *)

Section ListOps.
Context {A B C : Type}.

Fixpoint map2 (f : A -> B -> C) (l : list A) (m : list B) : list C :=
  match l, m with
  | a :: l', b :: m' => f a b :: map2 f l' m'
  | _, _ => []
  end.

(** [chunks k n l]: the first [n] consecutive blocks of [k] elements. *)
Fixpoint chunks (k n : nat) (l : list A) : list (list A) :=
  match n with
  | O => []
  | S n' => firstn k l :: chunks k n' (skipn k l)
  end.

(** Boolean-mask selection [l[msk]]. *)
Fixpoint select (msk : list bool) (l : list A) : list A :=
  match msk, l with
  | b :: msk', a :: l' => if b then a :: select msk' l' else select msk' l'
  | _, _ => []
  end.

End ListOps.

Definition prod_list (l : list nat) : nat := fold_right Nat.mul 1%nat l.

Fixpoint list_eqb (l m : list nat) : bool :=
  match l, m with
  | [], [] => true
  | a :: l', b :: m' => Nat.eqb a b && list_eqb l' m'
  | _, _ => false
  end.

(** [l[-2:]]. *)
Definition last2 (l : list nat) : list nat :=
  skipn (length l - 2) l.

(** Index of the first maximal element ([argmax], and the indices of
    [torch.max] along a dimension). *)
Fixpoint argmax_from {A} (lt : A -> A -> bool) (best : A) (bi : nat)
    (i : nat) (l : list A) : nat :=
  match l with
  | [] => bi
  | x :: l' =>
      if lt best x then argmax_from lt x i (S i) l'
      else argmax_from lt best bi (S i) l'
  end.

Definition argmax {A} (lt : A -> A -> bool) (l : list A) : nat :=
  match l with
  | [] => 0%nat
  | x :: l' => argmax_from lt x 0%nat 1%nat l'
  end.

Definition tabulate {A} (n : nat) (f : nat -> A) : list A :=
  map f (seq 0 n).

(** Sequencing of a fallible function over a list. *)
Fixpoint mapM {A B} (f : A -> result B) (l : list A) : result (list B) :=
  match l with
  | [] => Ok []
  | a :: l' => b <- f a ;; bs <- mapM f l' ;; Ok (b :: bs)
  end.

(** A [for] loop with a fallible body threading its state. *)
Fixpoint foldM {A S} (f : S -> A -> result S) (s : S) (l : list A)
    : result S :=
  match l with
  | [] => Ok s
  | a :: l' => s' <- f s a ;; foldM f s' l'
  end.

(** The object an argument has to be (a tensor, a bank): an attribute
    access or a tensor operation on [None] or on a list raises. *)
Definition unwrap {A} (x : pyarg A) : result A :=
  match x with
  | PyOne a => Ok a
  | _ => Raise AttributeError
  end.

Definition is_tensor {A} (x : pyarg A) : bool :=
  match x with PyOne _ => true | _ => false end.

(** ** The platform

    What the module takes from the PyTorch release and from the host, where
    releases and hosts differ.

    - [cuda_error]: [None] on a host where [.cuda()] finds a device;
      otherwise the exception it raises (a [RuntimeError] without a driver
      or a device, an [AssertionError] on a build without CUDA).
    - [cat_empty_error]: the exception [torch.cat] raises on an empty list
      of tensors (a [ValueError] or a [RuntimeError], depending on the
      release). *)
Class Platform : Type := {
  cuda_error : option exn;
  cat_empty_error : exn
}.

(** The platform of the examples: a host with a CUDA device and a release
    whose [torch.cat] raises [ValueError] on an empty list. *)
#[export] Instance cuda_host : Platform := {
  cuda_error := None;
  cat_empty_error := ValueError
}.

(** A host without a CUDA driver: [.cuda()] raises [RuntimeError]. *)
Definition host_without_cuda : Platform := {|
  cuda_error := Some RuntimeError;
  cat_empty_error := ValueError
|}.

(** ** Tensors

    The model of the PyTorch operations the module calls.  Each operation
    raises where PyTorch does (shape mismatch, empty argument list, class
    index out of range). *)

Section Torch.
Context {F : Type} {SF : Scalar F} {PF : Platform}.

Record tensor : Type := mkT {
  shape : list nat;
  data : list F;
  requires_grad : bool
}.

Record itensor : Type := mkI {
  ishape : list nat;
  idata : list Z
}.

Definition dim (t : tensor) : nat := length (shape t).
Definition size (t : tensor) (i : nat) : nat := nth i (shape t) 0.
Definition numel (t : tensor) : nat := prod_list (shape t).

Definition of_nat (n : nat) : F := of_Z (Z.of_nat n).

(** The Python literal [0.5]. *)
Definition half : F := sone /! of_Z 2.

(** A zero-dimensional tensor. *)
Definition scalar_tensor (x : F) (g : bool) : tensor := mkT [] [x] g.

(** A one-dimensional tensor. *)
Definition vector_tensor (l : list F) (g : bool) : tensor :=
  mkT [length l] l g.

Definition ssum (l : list F) : F := fold_right sadd szero l.

(** [t.sum()] and [t.mean()] over all elements. *)
Definition tsum (t : tensor) : tensor :=
  scalar_tensor (ssum (data t)) (requires_grad t).

Definition tmean (t : tensor) : tensor :=
  scalar_tensor (ssum (data t) /! of_nat (numel t)) (requires_grad t).

(** Broadcasting of two shapes of the same rank: sizes agree or one of them
    is 1. *)
Fixpoint broadcast_shapes (sa sb : list nat) : option (list nat) :=
  match sa, sb with
  | [], [] => Some []
  | a :: sa', b :: sb' =>
      match broadcast_shapes sa' sb' with
      | Some s =>
          if a =? b then Some (a :: s)
          else if a =? 1 then Some (b :: s)
          else if b =? 1 then Some (a :: s)
          else None
      | None => None
      end
  | _, _ => None
  end.

(** Elementwise [f] on the row-major data of two broadcastable tensors. *)
Fixpoint broadcast (f : F -> F -> F) (sa sb : list nat) (da db : list F)
    : list F :=
  match sa, sb with
  | na :: sa', nb :: sb' =>
      let ca := chunks (prod_list sa') na da in
      let cb := chunks (prod_list sb') nb db in
      if na =? nb then concat (map2 (broadcast f sa' sb') ca cb)
      else if na =? 1 then
        concat (map (fun y => broadcast f sa' sb' (hd [] ca) y) cb)
      else concat (map (fun x => broadcast f sa' sb' x (hd [] cb)) ca)
  | _, _ => map2 f da db
  end.

(** Shapes are aligned on the right: the shorter one is padded with 1. *)
Definition pad_shape (n : nat) (s : list nat) : list nat :=
  repeat 1 (n - length s) ++ s.

(** [a * b] with broadcasting. *)
Definition tmul (a b : tensor) : result tensor :=
  let n := Nat.max (dim a) (dim b) in
  let sa := pad_shape n (shape a) in
  let sb := pad_shape n (shape b) in
  match broadcast_shapes sa sb with
  | Some s =>
      Ok (mkT s (broadcast smul sa sb (data a) (data b))
                (requires_grad a || requires_grad b))
  | None => Raise RuntimeError
  end.

(** [t / x] and [t + x] for a Python number [x]. *)
Definition tdiv_scalar (t : tensor) (x : F) : tensor :=
  mkT (shape t) (map (fun v => v /! x) (data t)) (requires_grad t).

Definition tadd_scalar (t : tensor) (x : F) : tensor :=
  mkT (shape t) (map (fun v => v +! x) (data t)) (requires_grad t).

(** [F._Reduction.get_enum]: none: 0, mean (and the deprecated
    elementwise_mean): 1, sum: 2; any other string is a [ValueError]. *)
Definition get_enum (reduction : string) : result nat :=
  if String.eqb reduction "none" then Ok 0
  else if String.eqb reduction "mean" then Ok 1
  else if String.eqb reduction "elementwise_mean" then Ok 1
  else if String.eqb reduction "sum" then Ok 2
  else Raise ValueError.

(** ** Reduction (lines 50-99) *)

Definition reduce_loss (loss : tensor) (reduction : string) : result tensor :=
  reduction_enum <- get_enum reduction ;;
  (* none: 0, elementwise_mean: 1, sum: 2 *)
  if reduction_enum =? 0 then Ok loss
  else if reduction_enum =? 1 then Ok (tmean loss)
  else Ok (tsum loss).

Definition weight_reduce_loss (loss : tensor) (weight : option tensor)
    (reduction : string) (avg_factor : option F) : result tensor :=
  loss <- match weight with
          | Some weight =>
              assert (dim weight =? dim loss) ;;;
              (if 1 <? dim weight
               then assert ((size weight 1 =? 1)
                            || (size weight 1 =? size loss 1))
               else Ok tt) ;;;
              tmul loss weight
          | None => Ok loss
          end ;;
  match avg_factor with
  | None => reduce_loss loss reduction
  | Some avg_factor =>
      if String.eqb reduction "mean"
      then Ok (tdiv_scalar (tsum loss) avg_factor)
      else if negb (String.eqb reduction "none")
      then Raise ValueError
      else Ok loss
  end.

(** ** Integer tensors and pooling, as [downscale_label_ratio] uses them *)

Definition idim (t : itensor) : nat := length (ishape t).
Definition isize (t : itensor) (i : nat) : nat := nth i (ishape t) 0.

(** [F.one_hot(t, num_classes)]: a trailing dimension of indicator values;
    a class value that is negative or not below [num_classes] is a
    [RuntimeError]. *)
Definition one_hot (t : itensor) (num_classes : nat) : result itensor :=
  if forallb (fun v => (0 <=? v)%Z && (v <? Z.of_nat num_classes)%Z) (idata t)
  then Ok (mkI (ishape t ++ [num_classes])
               (flat_map (fun v =>
                            map (fun k => if (v =? Z.of_nat k)%Z
                                          then 1%Z else 0%Z)
                                (seq 0 num_classes))
                         (idata t)))
  else Raise RuntimeError.

(** [t.permute(0, 3, 1, 2)] of a tensor of shape (b, h, w, k), made
    contiguous: the result has shape (b, k, h, w). *)
Definition permute0312 (t : itensor) : result itensor :=
  match ishape t with
  | [b; h; w; k] =>
      Ok (mkI [b; k; h; w]
            (tabulate (b * k * h * w) (fun p =>
               let wi := p mod w in
               let hi := (p / w) mod h in
               let ki := (p / (w * h)) mod k in
               let bi := p / (w * h * k) in
               nth (((bi * h + hi) * w + wi) * k + ki) (idata t) 0%Z)))
  | _ => Raise RuntimeError
  end.

(** [t.float()]. *)
Definition to_float (t : itensor) : tensor :=
  mkT (ishape t) (map of_Z (idata t)) false.

(** [F.avg_pool2d(t, kernel_size=k)] on a (b, c, h, w) tensor: stride [k],
    no padding, floor mode.  Each output cell is the sum of its [k] x [k]
    window divided by [k * k]; rows and columns beyond the last full window
    are not read.  PyTorch rejects an empty output ("Output size is too
    small"). *)
Definition avg_pool2d (t : tensor) (k : nat) : result tensor :=
  match shape t with
  | [b; c; h; w] =>
      let oh := h / k in
      let ow := w / k in
      if (k =? 0) || (oh =? 0) || (ow =? 0) then Raise RuntimeError
      else
        Ok (mkT [b; c; oh; ow]
              (tabulate (b * c * oh * ow) (fun p =>
                 let j := p mod ow in
                 let i := (p / ow) mod oh in
                 let bc := p / (ow * oh) in
                 ssum (flat_map (fun di =>
                         map (fun dj =>
                                nth ((bc * h + (i * k + di)) * w
                                     + (j * k + dj)) (data t) szero)
                             (seq 0 k))
                       (seq 0 k))
                 /! of_nat (k * k)))
              (requires_grad t))
  | _ => Raise RuntimeError
  end.

(** [torch.max(t, dim=1, keepdim=True)] on a (b, c, h, w) tensor: the
    maximum over the channels and the index of its first occurrence. *)
Definition channel_values (t : tensor) (c h w : nat) (p : nat) : list F :=
  map (fun ch => nth (((p / (h * w)) * c + ch) * (h * w) + p mod (h * w))
                     (data t) szero)
      (seq 0 c).

Definition max_dim1 (t : tensor) : result (tensor * itensor) :=
  match shape t with
  | [b; c; h; w] =>
      if c =? 0 then Raise IndexError
      else
        let idx := tabulate (b * h * w) (fun p =>
                     argmax sltb (channel_values t c h w p)) in
        let vals := tabulate (b * h * w) (fun p =>
                      nth (argmax sltb (channel_values t c h w p))
                          (channel_values t c h w p) szero) in
        Ok (mkT [b; 1; h; w] vals (requires_grad t),
            mkI [b; 1; h; w] (map Z.of_nat idx))
  | _ => Raise RuntimeError
  end.

(** ** Label downscaling (lines 148-171) *)

Definition downscale_label_ratio (gt : itensor) (scale_factor : nat)
    (min_ratio : F) (n_classes : nat) (ignore_index : Z) : result itensor :=
  assert (1 <=? scale_factor) ;;;
  if scale_factor =? 1 then Ok gt
  else
    match ishape gt with
    | [bs; orig_c; orig_h; orig_w] =>
        assert (orig_c =? 1) ;;;
        let trg_h := orig_h / scale_factor in
        let trg_w := orig_w / scale_factor in
        let ignore_substitute := Z.of_nat n_classes in
        let out := map (fun v => if (v =? ignore_index)%Z
                                 then ignore_substitute else v) (idata gt) in
        out <- one_hot (mkI [bs; orig_h; orig_w] out) (n_classes + 1) ;;
        out <- permute0312 out ;;
        assert (list_eqb (ishape out) [bs; n_classes + 1; orig_h; orig_w]) ;;;
        out <- avg_pool2d (to_float out) scale_factor ;;
        r <- max_dim1 out ;;
        let gt_ratio := fst r in
        let out := snd r in
        let out := mkI (ishape out)
                       (map (fun v => if (v =? ignore_substitute)%Z
                                      then ignore_index else v)
                            (idata out)) in
        let out := mkI (ishape out)
                       (map2 (fun q v => if sltb q min_ratio
                                         then ignore_index else v)
                             (data gt_ratio) (idata out)) in
        assert (list_eqb (ishape out) [bs; 1; trg_h; trg_w]) ;;;
        Ok out
    | _ => Raise ValueError
    end.

(** ** Two-dimensional tensors *)

Record matrix : Type := mkM {
  ncols : nat;
  rows : list (list F);
  mgrad : bool
}.

Definition nrows (m : matrix) : nat := length (rows m).

Definition dot (u v : list F) : F := ssum (map2 smul u v).

Definition column (j : nat) (m : list (list F)) : list F :=
  map (fun r => nth j r szero) m.

(** [m.permute(1, 0).contiguous()]. *)
Definition permute10 (m : matrix) : matrix :=
  mkM (nrows m) (map (fun j => column j (rows m)) (seq 0 (ncols m)))
      (mgrad m).

(** [a.mm(b)]; the inner sizes have to agree. *)
Definition mm (a b : matrix) : result matrix :=
  if ncols a =? nrows b
  then Ok (mkM (ncols b)
               (map (fun r => map (fun j => dot r (column j (rows b)))
                                  (seq 0 (ncols b)))
                    (rows a))
               (mgrad a || mgrad b))
  else Raise RuntimeError.

Definition mmap (f : F -> F) (m : matrix) : matrix :=
  mkM (ncols m) (map (map f) (rows m)) (mgrad m).

(** Broadcasting along one dimension: equal lengths, or one of them 1. *)
Definition bzip {A} (f : A -> A -> A) (u v : list A) : option (list A) :=
  if length u =? length v then Some (map2 f u v)
  else match u, v with
       | [x], _ => Some (map (f x) v)
       | _, [y] => Some (map (fun x => f x y) u)
       | _, _ => None
       end.

Definition bsize (n m : nat) : option nat :=
  if n =? m then Some n
  else if n =? 1 then Some m
  else if m =? 1 then Some n
  else None.

(** An elementwise binary operation on two matrices, with broadcasting. *)
Definition mzip (f : F -> F -> F) (a b : matrix) : result matrix :=
  match bsize (nrows a) (nrows b), bsize (ncols a) (ncols b) with
  | Some _, Some c =>
      match bzip (fun u v => match bzip f u v with
                             | Some r => r | None => [] end)
                 (rows a) (rows b) with
      | Some r => Ok (mkM c r (mgrad a || mgrad b))
      | None => Raise RuntimeError
      end
  | _, _ => Raise RuntimeError
  end.

(** [m[msk]]: the rows selected by a boolean mask. *)
Definition mselect (msk : list bool) (m : matrix) : matrix :=
  mkM (ncols m) (select msk (rows m)) (mgrad m).

(** [m[idx]]: the rows at the given integer indices; a negative index
    counts from the end, an index out of range is an [IndexError]. *)
Definition mindex (m : matrix) (idx : list Z) : result matrix :=
  r <- mapM (fun t =>
               let n := Z.of_nat (nrows m) in
               if (t <? - n)%Z || (n <=? t)%Z then Raise IndexError
               else Ok (nth (Z.to_nat (if (t <? 0)%Z then t + n else t)%Z)
                            (rows m) []))
            idx ;;
  Ok (mkM (ncols m) r (mgrad m)).

(** [torch.sum(m, dim=1)] and [m.sum(1, keepdim=True)]. *)
Definition sum_dim1 (m : matrix) : list F := map ssum (rows m).

Definition sum_dim1_keep (m : matrix) : matrix :=
  mkM 1 (map (fun r => [ssum r]) (rows m)) (mgrad m).

(** [m.mean(dim=1)] and [m.mean(1, keepdim=True)]. *)
Definition mean_dim1 (m : matrix) : list F :=
  map (fun r => ssum r /! of_nat (ncols m)) (rows m).

Definition mean_dim1_keep (m : matrix) : matrix :=
  mkM 1 (map (fun r => [ssum r /! of_nat (ncols m)]) (rows m)) (mgrad m).

(** [torch.mean(m, 0, keepdim=True)]. *)
Definition mean_dim0_keep (m : matrix) : matrix :=
  mkM (ncols m)
      [map (fun j => ssum (column j (rows m)) /! of_nat (nrows m))
           (seq 0 (ncols m))]
      (mgrad m).

(** [torch.cat(l, dim=0)] and [torch.cat(l, dim=1)] of matrices: the list
    must not be empty and the other sizes have to agree. *)
Definition cat0 (l : list matrix) : result matrix :=
  match l with
  | [] => Raise cat_empty_error
  | m :: l' =>
      if forallb (fun x => ncols x =? ncols m) l'
      then Ok (mkM (ncols m) (flat_map rows l)
                   (existsb mgrad l))
      else Raise RuntimeError
  end.

Definition cat1 (l : list matrix) : result matrix :=
  match l with
  | [] => Raise cat_empty_error
  | m :: l' =>
      if forallb (fun x => nrows x =? nrows m) l'
      then Ok (mkM (fold_right (fun x n => ncols x + n) 0 l)
                   (tabulate (nrows m) (fun i =>
                      flat_map (fun x => nth i (rows x) []) l))
                   (existsb mgrad l))
      else Raise RuntimeError
  end.

(** [torch.cat(l, dim=0)] of one-dimensional tensors. *)
Definition cat_vectors (l : list (list F)) : result (list F) :=
  match l with
  | [] => Raise cat_empty_error
  | _ => Ok (concat l)
  end.

(** ** Alignment of features and labels (lines 174-197) *)

(** [F.interpolate(mask.float(), size=size, mode='nearest').long()] on a
    (b, c, h, w) label tensor: output cell (i, j) reads input cell
    (floor(i * h / H), floor(j * w / W)).  The quotient is exact here.
    PyTorch computes the scale h / H in single precision; where i * h / H
    is an integer the rounded product can fall just below it, and the cell
    before is read (resizing 26 to 22, output 11 reads input 12, not 13).
    When h is a multiple of H the scale is an integer and both agree.  The
    labels themselves pass through single precision unchanged as long as
    they are below 2^24 in magnitude. *)
Definition nearest (i n_in n_out : nat) : nat :=
  Nat.min (i * n_in / n_out) (n_in - 1).

Definition interpolate_nearest (mask : itensor) (size : list nat)
    : result itensor :=
  match ishape mask, size with
  | [b; c; h; w], [H; W] =>
      if (h =? 0) || (w =? 0) || (H =? 0) || (W =? 0)
      then Raise RuntimeError
      else
        Ok (mkI [b; c; H; W]
              (tabulate (b * c * H * W) (fun p =>
                 let j := p mod W in
                 let i := (p / W) mod H in
                 let bc := p / (W * H) in
                 nth ((bc * h + nearest i h H) * w + nearest j w W)
                     (idata mask) 0%Z)))
  | _, _ => Raise ValueError
  end.

(** [mask.argmax(dim=1)] on a (b, c, h, w) label tensor. *)
Definition iargmax_dim1 (mask : itensor) : itensor :=
  match ishape mask with
  | [b; c; h; w] =>
      mkI [b; h; w]
          (tabulate (b * h * w) (fun p =>
             Z.of_nat
               (argmax Z.ltb
                  (map (fun ch =>
                          nth (((p / (h * w)) * c + ch) * (h * w)
                               + p mod (h * w)) (idata mask) 0%Z)
                       (seq 0 c)))))
  | _ => mask
  end.

(** [feat.permute(0, 2, 3, 1).contiguous().view(-1, channels)]: one row per
    position, in raster order within each batch element. *)
Definition token (feat : tensor) (channels hw : nat) (t : nat) : list F :=
  map (fun c => nth (((t / hw) * channels + c) * hw + t mod hw)
                    (data feat) szero)
      (seq 0 channels).

Definition flatten_tokens (feat : tensor)
    (batch_size channels height width : nat) : result matrix :=
  if channels =? 0 then Raise RuntimeError
  else Ok (mkM channels
               (tabulate (batch_size * height * width)
                         (token feat channels (height * width)))
               (requires_grad feat)).

Definition contrast_preparations (feat : tensor) (mask : itensor)
    (use_avg_pool : bool) (scale_min_ratio : F) (num_classes : nat)
    (ignore_index : Z) : result (matrix * list Z) :=
  mask <- (if negb (list_eqb (last2 (ishape mask)) (last2 (shape feat)))
           then interpolate_nearest mask (last2 (shape feat))
           else Ok mask) ;;
  let mask := if (idim mask =? 4) && (1 <? isize mask 1)
              then iargmax_dim1 mask else mask in
  match shape feat with
  | [batch_size; channels; height; width] =>
      feat <- flatten_tokens feat batch_size channels height width ;;
      (* mask.view(-1) *)
      let mask_size := prod_list (ishape mask) in
      let mask := idata mask in
      assert (nrows feat =? mask_size) ;;;
      let msk := map (fun l => negb (l =? ignore_index)%Z) mask in
      let mask := select msk mask in
      let feat := mselect msk feat in
      Ok (feat, mask)
  | _ => Raise ValueError
  end.

(** ** Cross-entropy and softmax *)

Context {TF : Transcendental F}.

Definition softmax (row : list F) : list F :=
  let s := ssum (map sexp row) in
  map (fun x => sexp x /! s) row.

Definition log_softmax (row : list F) : list F :=
  let lse := slog (ssum (map sexp row)) in
  map (fun x => x -! lse) row.

(** [F.cross_entropy(input, target, weight=weight, reduction='none',
    ignore_index=ignore_index)] for an (N, C) input and N class indices:
    the entry of a target equal to [ignore_index] is 0; any other target
    outside [0, C) is an [IndexError]; otherwise the entry is the negated
    log-softmax at the target, times the weight of the target class. *)
Definition cross_entropy_entry (c : nat) (weight : option (list F))
    (ignore_index : Z) (row : list F) (t : Z) : result F :=
  if (t =? ignore_index)%Z then Ok szero
  else if (t <? 0)%Z || (Z.of_nat c <=? t)%Z then Raise IndexError
  else
    let lp := nth (Z.to_nat t) (log_softmax row) szero in
    match weight with
    | Some w => Ok (sneg (nth (Z.to_nat t) w szero *! lp))
    | None => Ok (sneg lp)
    end.

Definition cross_entropy (input : matrix) (target : list Z)
    (weight : option (list F)) (ignore_index : Z) : result (list F) :=
  if negb (nrows input =? length target) then Raise ValueError
  else if match weight with
          | Some w => negb (length w =? ncols input)
          | None => false
          end
  then Raise RuntimeError
  else mapM (fun rt => cross_entropy_entry (ncols input) weight ignore_index
                         (fst rt) (snd rt))
            (combine (rows input) target).

(** The value of a zero-dimensional tensor. *)
Definition item (t : tensor) : F := hd szero (data t).

(** [t.cuda()]: the tensor itself, placed on the device, where there is
    one.  On which device a tensor lives is not tracked. *)
Definition cuda (t : tensor) : result tensor :=
  match cuda_error with
  | None => Ok t
  | Some e => Raise e
  end.

(** [torch.tensor(0., requires_grad=True)]; the early returns (lines 212,
    254, 315 and 389) move it to the device. *)
Definition zero_loss : tensor := scalar_tensor szero true.

(** ** Prototype regulariser (lines 201-221) *)

Definition proto_reg (feat : matrix) (mean : pyarg matrix)
    (contrast_temp : F) (contrast_norm : option F) : result tensor :=
  assert (negb (is_none mean)) ;;;
  assert (match contrast_norm with Some _ => true | None => false end) ;;;
  mean <- unwrap mean ;;
  assert (negb (mgrad mean)) ;;;
  assert (mgrad feat) ;;;
  if nrows feat =? 0 then cuda zero_loss
  else
    let mean_feat := mean_dim0_keep feat in
    (* feat (1, A) x Ave (A, C) *)
    proto_sim <- mm mean_feat (permute10 mean) ;;
    let proto_sim := mmap (fun v => v /! contrast_temp) proto_sim in
    let logp := concat (map (fun r => map slog (softmax r))
                            (rows proto_sim)) in
    match contrast_norm with
    | Some contrast_norm =>
        Ok (scalar_tensor (ssum logp /! contrast_norm) true)
    | None => Raise TypeError
    end.

(** [loss += reg_weight * proto_reg(...)] with
    [contrast_norm = num_classes * np.log(num_classes)]. *)
Definition add_regulariser (loss : tensor) (feat : matrix)
    (mean : pyarg matrix) (contrast_temp : F) (num_classes : nat)
    (reg_weight : F) : result tensor :=
  if sltb szero reg_weight
  then
    let contrast_norm := of_nat num_classes *! slog (of_nat num_classes) in
    reg <- proto_reg feat mean contrast_temp (Some contrast_norm) ;;
    Ok (tadd_scalar loss (reg_weight *! item reg))
  else Ok loss.

(** ** Prototype-contrastive loss (lines 224-279) *)

(** The classification term (lines 256-273): cross-entropy of the
    similarity logits, weighted and reduced. *)
Definition proto_classification (feat : matrix) (mask : list Z)
    (mean : matrix) (contrast_temp : F) (weight : option tensor)
    (class_weight : option (list F)) (reduction : string)
    (avg_factor : option F) (ignore_index : Z) : result tensor :=
  (* feat (N, A) x Ave (A, C) *)
  proto_sim <- mm feat (permute10 mean) ;;
  let proto_sim := mmap (fun v => v /! contrast_temp) proto_sim in
  loss <- cross_entropy proto_sim mask class_weight ignore_index ;;
  let loss := vector_tensor loss (mgrad proto_sim) in
  weight_reduce_loss loss weight reduction avg_factor.

Definition proto_contrastive (feat : pyarg tensor) (mask : itensor)
    (mean : pyarg matrix) (index : Z) (contrast_temp : F)
    (use_avg_pool : bool) (scale_min_ratio : F) (num_classes : nat)
    (weight : option tensor) (class_weight : option (list F))
    (reduction : string) (avg_factor : option F) (reg_weight : F)
    (ignore_index : Z) : result tensor :=
  fm <- (if (0 <=? index)%Z
         then
           assert (is_list feat) ;;;
           assert (is_list_or_dict mean) ;;;
           feat <- getitem feat index ;;
           mean <- getitem mean index ;;
           Ok (feat, mean)
         else Ok (feat, mean)) ;;
  let feat := fst fm in
  let mean := snd fm in
  feat <- unwrap feat ;;
  fm <- contrast_preparations feat mask use_avg_pool scale_min_ratio
          num_classes ignore_index ;;
  let feat := fst fm in
  let mask := snd fm in
  assert (negb (is_none mean)) ;;;
  assert (is_tensor mean) ;;;
  mean <- unwrap mean ;;
  assert (negb (mgrad mean)) ;;;
  assert (mgrad feat) ;;;
  (* assert not mask.requires_grad: an integer tensor never does *)
  if nrows feat =? 0 then cuda zero_loss
  else
    loss <- proto_classification feat mask mean contrast_temp weight
              class_weight reduction avg_factor ignore_index ;;
    add_regulariser loss feat (PyOne mean) contrast_temp num_classes
      reg_weight.

(** ** Distribution-contrastive loss (lines 282-353) *)

(** [x.pow(2)]. *)
Definition pow2 (v : F) : F := v *! v.

(** The per-token loss (lines 317-341). *)
Definition dist_token_loss (feat : matrix) (mask : list Z)
    (mean covariance : matrix) (ratio contrast_temp : F)
    (class_weight : option (list F)) (ignore_index : Z) : result tensor :=
  (* feat (N, A) x Ave (A, C) *)
  temp1 <- mm feat (permute10 mean) ;;
  (* feat (N, A)^2 x CoVariance (A, C) *)
  let covariance :=
    mmap (fun v => v *! ratio /! contrast_temp) covariance in
  temp2 <- mm (mmap pow2 feat) (permute10 covariance) ;;
  let temp2 := mmap (fun v => half *! v) temp2 in
  logits <- mzip sadd temp1 temp2 ;;
  let logits := mmap (fun v => v /! contrast_temp) logits in
  ce_loss <- cross_entropy logits mask class_weight ignore_index ;;
  (* q_i^2 mul Sigma of the positive class *)
  cov_pos <- mindex covariance mask ;;
  sq <- mzip smul (mmap pow2 feat) cov_pos ;;
  let jcl_loss :=
    map (fun v => half *! v /! contrast_temp) (sum_dim1 sq) in
  loss <- match bzip sadd ce_loss jcl_loss with
          | Some l => Ok l
          | None => Raise RuntimeError
          end ;;
  Ok (vector_tensor loss (mgrad logits)).

Definition dist_contrastive (feat : pyarg tensor) (mask : itensor)
    (mean : pyarg matrix) (covariance : pyarg matrix) (ratio : F)
    (index : Z) (contrast_temp : F)
    (use_avg_pool : bool) (scale_min_ratio : F) (num_classes : nat)
    (weight : option tensor) (class_weight : option (list F))
    (reduction : string) (avg_factor : option F) (reg_weight : F)
    (ignore_index : Z) : result tensor :=
  fmc <- (if (0 <=? index)%Z
          then
            assert (is_list feat) ;;;
            assert (is_list_or_dict mean) ;;;
            assert (is_list_or_dict covariance) ;;;
            feat <- getitem feat index ;;
            mean <- getitem mean index ;;
            covariance <- getitem covariance index ;;
            Ok (feat, mean, covariance)
          else Ok (feat, mean, covariance)) ;;
  let feat := fst (fst fmc) in
  let mean := snd (fst fmc) in
  let covariance := snd fmc in
  feat <- unwrap feat ;;
  fm <- contrast_preparations feat mask use_avg_pool scale_min_ratio
          num_classes ignore_index ;;
  let feat := fst fm in
  let mask := snd fm in
  assert (negb (is_none mean)) ;;;
  assert (negb (is_none covariance)) ;;;
  mean <- unwrap mean ;;
  assert (negb (mgrad mean)) ;;;
  covariance <- unwrap covariance ;;
  assert (negb (mgrad covariance)) ;;;
  assert (mgrad feat) ;;;
  (* assert not mask.requires_grad: an integer tensor never does *)
  if nrows feat =? 0 then cuda zero_loss
  else
    loss <- dist_token_loss feat mask mean covariance ratio contrast_temp
              class_weight ignore_index ;;
    loss <- weight_reduce_loss loss weight reduction avg_factor ;;
    add_regulariser loss feat (PyOne mean) contrast_temp num_classes
      reg_weight.

(** ** Bank-contrastive loss (lines 356-424) *)

(** The body of the inner loop (lines 398-404): the state is the pair of
    [pos] and [neg]. *)
Definition bank_step (bank : pyarg (list matrix)) (cls_feat : matrix)
    (contrast_temp : F) (cls : nat)
    (st : option matrix * list matrix) (idx : nat)
    : result (option matrix * list matrix) :=
  idx_bank <- getitem bank (Z.of_nat idx) ;;
  idx_bank <- unwrap idx_bank ;;
  cls_bank <- cat0 idx_bank ;;
  bank_sim <- mm cls_feat (permute10 cls_bank) ;;
  let bank_sim := mmap (fun v => v /! contrast_temp) bank_sim in
  if idx =? cls
  then Ok (Some bank_sim, snd st)
  else Ok (fst st, snd st ++ [mean_dim1_keep bank_sim]).

(** The body of the outer loop (lines 394-410): the loss of the tokens of
    class [cls]. *)
Definition bank_class_loss (bank : pyarg (list matrix)) (feat : matrix)
    (mask : list Z) (contrast_temp : F) (num_classes : nat) (cls : nat)
    : result (list F) :=
  let cls_filter := map (fun l => (l =? Z.of_nat cls)%Z) mask in
  let cls_feat := mselect cls_filter feat in
  st <- foldM (bank_step bank cls_feat contrast_temp cls) (None, [])
          (seq 0 num_classes) ;;
  neg <- cat1 (snd st) ;;
  (* [pos] is still the empty list when no [idx] equals [cls] *)
  pos <- match fst st with
         | Some pos => Ok pos
         | None => Raise AttributeError
         end ;;
  let exp_pos := mmap sexp pos in
  let sum_exp_neg := sum_dim1_keep (mmap sexp neg) in
  den <- mzip sadd exp_pos sum_exp_neg ;;
  softmax_term <- mzip sdiv exp_pos den ;;
  Ok (map sneg (mean_dim1 (mmap slog softmax_term))).

Definition bank_contrastive (feat : pyarg tensor) (mask : itensor)
    (bank : pyarg (pyarg (list matrix))) (mean : pyarg matrix)
    (index : Z) (contrast_temp : F)
    (use_avg_pool : bool) (scale_min_ratio : F) (num_classes : nat)
    (weight : option tensor)
    (reduction : string) (avg_factor : option F) (reg_weight : F)
    (ignore_index : Z) : result tensor :=
  fbm <- (if (0 <=? index)%Z
          then
            assert (is_list feat) ;;;
            assert (is_list_or_dict bank) ;;;
            b <- getitem bank index ;;
            b' <- unwrap b ;;
            assert (is_list b') ;;;
            feat <- getitem feat index ;;
            mean <- (if sltb szero reg_weight
                     then assert (is_list_or_dict mean) ;;;
                          getitem mean index
                     else Ok mean) ;;
            Ok (feat, b, mean)
          else Ok (feat, bank, mean)) ;;
  let feat := fst (fst fbm) in
  let bank := snd (fst fbm) in
  let mean := snd fbm in
  feat <- unwrap feat ;;
  fm <- contrast_preparations feat mask use_avg_pool scale_min_ratio
          num_classes ignore_index ;;
  let feat := fst fm in
  let mask := snd fm in
  assert (negb (is_none bank)) ;;;
  (if sltb szero reg_weight
   then assert (negb (is_none mean)) ;;;
        mean <- unwrap mean ;;
        assert (negb (mgrad mean))
   else Ok tt) ;;;
  assert (mgrad feat) ;;;
  (* assert not mask.requires_grad: an integer tensor never does *)
  if nrows feat =? 0 then cuda zero_loss
  else
    bank <- unwrap bank ;;
    (* calculate per class *)
    loss <- mapM (bank_class_loss bank feat mask contrast_temp num_classes)
              (seq 0 num_classes) ;;
    loss <- cat_vectors loss ;;
    let loss := vector_tensor loss (mgrad feat) in
    loss <- weight_reduce_loss loss weight reduction avg_factor ;;
    add_regulariser loss feat mean contrast_temp num_classes reg_weight.

(** The weighted loss of lines 83-87, as a relation: without a weight the
    loss itself; with a weight of the same rank (whose second size, when it
    has one, is 1 or that of the loss) their broadcast product. *)
Definition weighted (loss : tensor) (weight : option tensor) (wl : tensor)
    : Prop :=
  match weight with
  | None => wl = loss
  | Some w =>
      dim w = dim loss /\
      (1 < dim w -> size w 1 = 1 \/ size w 1 = size loss 1) /\
      tmul loss w = Ok wl
  end.

(** ** The downscaled label of one cell, in closed form

    The labels of the [s] x [s] block of output cell (b, i, j), ignore
    pixels replaced by the placeholder class [n_classes]; the occupancy
    ratio of a class in a block; and the label the block is given: the
    first class of maximal occupancy, unless that is the placeholder or its
    occupancy is below [min_ratio], in which case it is [ignore_index]. *)

Definition substitute_ignore (ignore_index : Z) (n_classes : nat) (v : Z)
    : Z :=
  if (v =? ignore_index)%Z then Z.of_nat n_classes else v.

Definition block_labels (gt : itensor) (h w s : nat) (ignore_index : Z)
    (n_classes : nat) (b i j : nat) : list Z :=
  flat_map (fun di =>
              map (fun dj =>
                     substitute_ignore ignore_index n_classes
                       (nth ((b * h + (i * s + di)) * w + (j * s + dj))
                            (idata gt) 0%Z))
                  (seq 0 s))
           (seq 0 s).

Definition occupancy (s : nat) (labels : list Z) (k : nat) : F :=
  ssum (map (fun v => of_Z (if (v =? Z.of_nat k)%Z then 1%Z else 0%Z))
            labels)
  /! of_nat (s * s).

Definition cell_label (s : nat) (min_ratio : F) (n_classes : nat)
    (ignore_index : Z) (labels : list Z) : Z :=
  let ratios := map (occupancy s labels) (seq 0 (n_classes + 1)) in
  let m := argmax sltb ratios in
  if sltb (nth m ratios szero) min_ratio then ignore_index
  else if (Z.of_nat m =? Z.of_nat n_classes)%Z then ignore_index
  else Z.of_nat m.

(** A label the one-hot encoding accepts: the ignore value or a class
    index (the placeholder index included). *)
Definition valid_label (ignore_index : Z) (n_classes : nat) (v : Z) : bool :=
  (v =? ignore_index)%Z || ((0 <=? v)%Z && (v <=? Z.of_nat n_classes)%Z).

(** The pooled one-hot encoding (lines 161-166): the entry of class [ch]
    at output cell (b, i, j) is the occupancy of [ch] in the block of the
    cell. *)
Definition pooled_data (gt : itensor) (bs h w s : nat) (ignore_index : Z)
    (n_classes : nat) : list F :=
  tabulate (bs * (n_classes + 1) * (h / s) * (w / s)) (fun p =>
    occupancy s
      (block_labels gt h w s ignore_index n_classes
         (p / ((w / s) * (h / s)) / (n_classes + 1))
         ((p / (w / s)) mod (h / s)) (p mod (w / s)))
      ((p / ((w / s) * (h / s))) mod (n_classes + 1))).

(** ** Well-formed inputs *)

(** The data of a tensor fills its shape. *)
Definition wf_itensor (t : itensor) : Prop :=
  length (idata t) = prod_list (ishape t).

(** Every row of a matrix has its column count. *)
Definition wf_matrix (m : matrix) : Prop :=
  Forall (fun r => length r = ncols m) (rows m).

End Torch.

Arguments tensor : clear implicits.
Arguments matrix : clear implicits.

(** ** The distribution-contrastive loss of one token, in closed form

    For a token with features [f] and label [y]: the logit of class [c] is
    (f . mean_c + 0.5 * f^2 . cov'_c) / temperature, where
    cov' = covariance * ratio / temperature; the cross-entropy is the
    negated logarithm of the softmax of the logits at [y], times the weight
    of class [y]; the in-class term is 0.5 * (f^2 . cov'_y) / temperature. *)

Section DistClosedForm.
Open Scope R_scope.
Variables (mean covariance : list (list R)) (ratio temperature : R).
Variable class_weight : option (list R).

Definition scaled_covariance : list (list R) :=
  map (map (fun v => v * ratio / temperature)) covariance.

Definition dist_logits (f : list R) : list R :=
  map2 (fun mu sg => (dot f mu + / 2 * dot (map (fun v => v * v) f) sg)
                     / temperature)
       mean scaled_covariance.

Definition class_weight_of (y : nat) : R :=
  match class_weight with
  | Some w => nth y w 0
  | None => 1
  end.

Definition cross_entropy_term (logits : list R) (y : nat) : R :=
  - (class_weight_of y
     * ln (exp (nth y logits 0) / ssum (map exp logits))).

Definition in_class_term (f : list R) (y : nat) : R :=
  / 2 * dot (map (fun v => v * v) f) (nth y scaled_covariance [])
  / temperature.

Definition dist_token (f : list R) (y : Z) : R :=
  cross_entropy_term (dist_logits f) (Z.to_nat y)
  + in_class_term f (Z.to_nat y).

End DistClosedForm.

(** ** The bank-contrastive loss of one token, in closed form

    [exemplars idx] are the stored exemplar rows of class [idx].  For a
    token of class [cls] with features [f]: its similarity to an exemplar
    is their dot product divided by the temperature; its negative score
    for another class is the mean similarity to that class's exemplars; its
    loss is the mean, over the exemplars [e] of its own class, of
    -log (exp (sim f e) / (exp (sim f e) + sum of exp of the negative
    scores)). *)

Section BankClosedForm.
Open Scope R_scope.
Variables (exemplars : nat -> list (list R)) (temperature : R).
Variable num_classes : nat.

Definition similarity (f e : list R) : R := dot f e / temperature.

Definition other_classes (cls : nat) : list nat :=
  filter (fun idx => negb (idx =? cls)%nat) (seq 0 num_classes).

Definition negative_score (f : list R) (idx : nat) : R :=
  ssum (map (similarity f) (exemplars idx))
  / INR (length (exemplars idx)).

Definition sum_exp_negatives (cls : nat) (f : list R) : R :=
  ssum (map (fun idx => exp (negative_score f idx)) (other_classes cls)).

Definition bank_token (cls : nat) (f : list R) : R :=
  ssum (map (fun e => - ln (exp (similarity f e)
                            / (exp (similarity f e)
                               + sum_exp_negatives cls f)))
            (exemplars cls))
  / INR (length (exemplars cls)).

(** The tokens of one class, in their original order. *)
Definition class_tokens (feat : list (list R)) (mask : list Z) (cls : nat)
    : list (list R) :=
  select (map (fun l => (l =? Z.of_nat cls)%Z) mask) feat.

(** The losses of all tokens, class after class. *)
Definition bank_loss (feat : list (list R)) (mask : list Z) : list R :=
  flat_map (fun cls => map (bank_token cls) (class_tokens feat mask cls))
           (seq 0 num_classes).

End BankClosedForm.

(** The memory bank read by the loss: [stored idx] are the exemplar
    tensors of class [idx]; every class below [num_classes] has at least one
    exemplar tensor, every exemplar tensor is well-shaped with [channels]
    columns, and every class has at least one exemplar row. *)
Definition bank_holds {F : Type} (bank : pyarg (list (matrix F)))
    (stored : nat -> list (matrix F)) (num_classes channels : nat) : Prop :=
  forall idx, idx < num_classes ->
    getitem bank (Z.of_nat idx) = Ok (PyOne (stored idx)) /\
    stored idx <> [] /\
    Forall (fun m => ncols m = channels /\ wf_matrix m) (stored idx) /\
    flat_map rows (stored idx) <> [].

(** The exemplar rows of class [idx]: the stored tensors concatenated
    (line 399). *)
Definition stored_rows {F : Type} (stored : nat -> list (matrix F))
    (idx : nat) : list (list F) :=
  flat_map rows (stored idx).

(** A label that is a class index. *)
Definition in_classes (num_classes : nat) (y : Z) : bool :=
  (0 <=? y)%Z && (y <? Z.of_nat num_classes)%Z.

(** ** The bank-contrastive loss of one token, in the arithmetic of the
    tensors

    The closed form above, written with the operations of the scalar type
    and in the order in which the code applies them (lines 400-410): the
    sum of the logarithms is divided by the number of exemplars, and the
    quotient is negated. *)

Section BankArithmetic.
Context {F : Type} {SF : Scalar F} {TF : Transcendental F}.
Variables (exemplars : nat -> list (list F)) (temperature : F).
Variable num_classes : nat.

Definition token_similarity (f e : list F) : F := dot f e /! temperature.

Definition token_negative_score (f : list F) (idx : nat) : F :=
  ssum (map (token_similarity f) (exemplars idx))
  /! of_nat (length (exemplars idx)).

Definition token_sum_exp_negatives (cls : nat) (f : list F) : F :=
  ssum (map (fun idx => sexp (token_negative_score f idx))
            (other_classes num_classes cls)).

Definition token_loss (cls : nat) (f : list F) : F :=
  sneg (ssum (map (fun e => slog (sexp (token_similarity f e)
                                  /! (sexp (token_similarity f e)
                                      +! token_sum_exp_negatives cls f)))
                  (exemplars cls))
        /! of_nat (length (exemplars cls))).

(** The tokens of one class, in their original order. *)
Definition tokens_of_class (feat : list (list F)) (mask : list Z)
    (cls : nat) : list (list F) :=
  select (map (fun l => (l =? Z.of_nat cls)%Z) mask) feat.

(** The losses of all tokens, class after class. *)
Definition class_ordered_loss (feat : list (list F)) (mask : list Z)
    : list F :=
  flat_map (fun cls => map (token_loss cls) (tokens_of_class feat mask cls))
           (seq 0 num_classes).

End BankArithmetic.

(** The similarity matrix of the tokens [fc] against the exemplars of
    class [idx] (line 400), in the arithmetic of the tensors. *)
Definition token_similarity_matrix {F : Type} {SF : Scalar F}
    (stored : nat -> list (matrix F)) (temperature : F) (fc : matrix F)
    (idx : nat) : matrix F :=
  mkM (length (stored_rows stored idx))
      (map (fun f => map (token_similarity temperature f)
                         (stored_rows stored idx))
           (rows fc))
      (mgrad fc || existsb mgrad (stored idx)).

(** ** Majority in a block *)

(** [m] is the first index of a maximal element of [vals]. *)
Definition first_max (vals : list nat) (m : nat) : Prop :=
  m < length vals /\
  (forall k, k < length vals -> nth k vals 0 <= nth m vals 0) /\
  (forall k, k < m -> nth k vals 0 < nth m vals 0).

(** The number of cells of a block that hold class [k], and the fraction of
    the block they fill. *)
Definition count_label (labels : list Z) (k : nat) : nat :=
  count_occ Z.eq_dec labels (Z.of_nat k).

Definition occupancy_ratio (s : nat) (labels : list Z) (k : nat) : Q :=
  (inject_Z (Z.of_nat (count_label labels k))
   / inject_Z (Z.of_nat (s * s)))%Q.

(** ** The empty batch

    Each of the three variants returns the zero scalar, given the
    prototype tensors it reads (selected by [index], none requiring a
    gradient; the bank variant reads [mean] only when the regulariser is
    on). *)
Definition all_return_zero {F : Type} {SF : Scalar F}
    {TF : Transcendental F} {PF : Platform}
    (feat : pyarg (tensor F)) (mask : itensor)
    (mean covariance : pyarg (matrix F)) (mn cv : matrix F)
    (bank : pyarg (pyarg (list (matrix F)))) (bk : pyarg (list (matrix F)))
    (ratio : F) (index : Z) (contrast_temp : F) (use_avg_pool : bool)
    (scale_min_ratio : F) (num_classes : nat) (weight : option (tensor F))
    (class_weight : option (list F)) (reduction : string)
    (avg_factor : option F) (reg_weight : F) (ignore_index : Z) : Prop :=
  (picked index mean mn -> mgrad mn = false ->
   proto_contrastive feat mask mean index contrast_temp use_avg_pool
     scale_min_ratio num_classes weight class_weight reduction avg_factor
     reg_weight ignore_index = Ok zero_loss)
  /\
  (picked index mean mn -> mgrad mn = false ->
   picked index covariance cv -> mgrad cv = false ->
   dist_contrastive feat mask mean covariance ratio index contrast_temp
     use_avg_pool scale_min_ratio num_classes weight class_weight reduction
     avg_factor reg_weight ignore_index = Ok zero_loss)
  /\
  (picked_bank index bank bk ->
   (sltb szero reg_weight = true -> picked index mean mn /\ mgrad mn = false) ->
   bank_contrastive feat mask bank mean index contrast_temp use_avg_pool
     scale_min_ratio num_classes weight reduction avg_factor reg_weight
     ignore_index = Ok zero_loss).

(** ** Class weights (lines 24-47) *)

Fixpoint string_rev (s : string) : string :=
  match s with
  | EmptyString => EmptyString
  | String c s' => (string_rev s' ++ String c EmptyString)%string
  end.

(** [s.endswith(suffix)]: the reversed suffix starts the reversed string. *)
Definition endswith (s suffix : string) : bool :=
  String.prefix (string_rev suffix) (string_rev s).

(** The [class_weight] argument, and what a file can hold: [None], a list
    of numbers, or a string. *)
Inductive class_weight_arg (F : Type) : Type :=
| CwNone
| CwList (l : list F)
| CwStr (s : string).

Arguments CwNone {F}.
Arguments CwList {F} l.
Arguments CwStr {F} s.

(** The file system, as the four readers the function calls on a file
    name: [np.load], [pickle.load], [json.load] and [yaml.safe_load] (the
    last three after [open]). *)
Record file_readers (F : Type) : Type := mkReaders {
  np_load : string -> result (class_weight_arg F);
  pickle_load : string -> result (class_weight_arg F);
  json_load : string -> result (class_weight_arg F);
  yaml_safe_load : string -> result (class_weight_arg F)
}.

Arguments mkReaders {F} _ _ _ _.
Arguments np_load {F} f _.
Arguments pickle_load {F} f _.
Arguments json_load {F} f _.
Arguments yaml_safe_load {F} f _.

Definition get_class_weight {F : Type} (fs : file_readers F)
    (class_weight : class_weight_arg F) : result (class_weight_arg F) :=
  match class_weight with
  | CwStr path =>
      (* take it as a file path *)
      if endswith path ".npy" then np_load fs path
      else if endswith path ".pkl" then pickle_load fs path
      else if endswith path ".json" then json_load fs path
      else if endswith path ".yaml" || endswith path ".yml"
      then yaml_safe_load fs path
      else Raise ValueError
  | _ => Ok class_weight
  end.

(** ** The decorator (lines 102-145) and the module (lines 428-531) *)

Section Facade.
Context {F : Type} {SF : Scalar F} {TF : Transcendental F} {PF : Platform}.

(** [weighted_loss(loss_func)]: the wrapper it returns. *)
Definition weighted_loss {A B : Type}
    (loss_func : A -> B -> result (tensor F)) (pred : A) (target : B)
    (weight : option (tensor F)) (reduction : string)
    (avg_factor : option F) : result (tensor F) :=
  (* get element-wise loss *)
  loss <- loss_func pred target ;;
  weight_reduce_loss loss weight reduction avg_factor.

(** [a - b] with broadcasting, and [t.abs()]. *)
Definition tsub (a b : tensor F) : result (tensor F) :=
  let n := Nat.max (dim a) (dim b) in
  let sa := pad_shape n (shape a) in
  let sb := pad_shape n (shape b) in
  match broadcast_shapes sa sb with
  | Some s =>
      Ok (mkT s (broadcast ssub sa sb (data a) (data b))
                (requires_grad a || requires_grad b))
  | None => Raise RuntimeError
  end.

Definition tabs (t : tensor F) : tensor F :=
  mkT (shape t) (map (fun v => if sltb v szero then sneg v else v) (data t))
      (requires_grad t).

(** The decorated function of the docstring (lines 114-116). *)
Definition l1_loss (pred target : tensor F) : result (tensor F) :=
  d <- tsub pred target ;;
  Ok (tabs d).

(** [a + b] with broadcasting and [x * t] for a Python number [x]. *)
Definition tadd (a b : tensor F) : result (tensor F) :=
  let n := Nat.max (dim a) (dim b) in
  let sa := pad_shape n (shape a) in
  let sb := pad_shape n (shape b) in
  match broadcast_shapes sa sb with
  | Some s =>
      Ok (mkT s (broadcast sadd sa sb (data a) (data b))
                (requires_grad a || requires_grad b))
  | None => Raise RuntimeError
  end.

Definition tmul_scalar (t : tensor F) (x : F) : tensor F :=
  mkT (shape t) (map (fun v => v *! x) (data t)) (requires_grad t).

(** What [forward] returns: a tensor, or the integer that [sum] starts
    from. *)
Inductive pyvalue : Type :=
| PyInt (z : Z)
| PyTensor (t : tensor F).

(** [x + t] as [sum] computes it. *)
Definition py_add (x : pyvalue) (t : tensor F) : result pyvalue :=
  match x with
  | PyInt z => Ok (PyTensor (tadd_scalar t (of_Z z)))
  | PyTensor a => s <- tadd a t ;; Ok (PyTensor s)
  end.

(** [sum(l)]. *)
Definition py_sum (l : list (tensor F)) : result pyvalue :=
  foldM py_add (PyInt 0) l.

Inductive criterion : Type :=
| ProtoContrastive
| DistContrastive
| BankContrastive.

(** [loss_weight]: a number, or one number per branch. *)
Inductive loss_weight_arg : Type :=
| LwNumber (x : F)
| LwList (l : list F).

(** The attributes of the module. *)
Record ContrastiveLoss : Type := mkContrastiveLoss {
  use_dist : bool;
  use_bank : bool;
  use_reg : bool;
  use_avg_pool : bool;
  scale_min_ratio : F;
  contrast_temp : F;
  num_classes : nat;
  reduction : string;
  loss_weight : loss_weight_arg;
  reg_weight : F;
  class_weight : class_weight_arg F;
  contrast_criterion : criterion
}.

Definition set_loss_weight (self : ContrastiveLoss) (lw : loss_weight_arg)
    : ContrastiveLoss :=
  mkContrastiveLoss (use_dist self) (use_bank self) (use_reg self)
    (use_avg_pool self) (scale_min_ratio self)
    (contrast_temp self) (num_classes self) (reduction self)
    lw (reg_weight self) (class_weight self) (contrast_criterion self).

(** [__init__] (lines 449-481). *)
Definition init (fs : file_readers F) (use_dist use_bank use_reg : bool)
    (use_avg_pool : bool) (scale_min_ratio : F) (num_classes : option nat)
    (contrast_temp : F) (reduction : string)
    (class_weight : class_weight_arg F) (loss_weight : loss_weight_arg)
    (reg_relative_weight : F) : result ContrastiveLoss :=
  assert (negb use_dist || negb use_bank) ;;;
  match num_classes with
  | None => Raise AssertionError
  | Some num_classes =>
      class_weight <- get_class_weight fs class_weight ;;
      Ok (mkContrastiveLoss use_dist use_bank use_reg use_avg_pool
            scale_min_ratio contrast_temp num_classes reduction loss_weight
            reg_relative_weight class_weight
            (if use_dist then DistContrastive
             else if use_bank then BankContrastive
             else ProtoContrastive))
  end.

(** The keyword arguments that [forward] passes on and a criterion reads:
    [mean], [covariance], [bank], [ratio] and [ignore_index]; an absent
    one takes the criterion's default. *)
Record kwargs : Type := mkKwargs {
  kw_mean : pyarg (matrix F);
  kw_covariance : pyarg (matrix F);
  kw_bank : pyarg (pyarg (list (matrix F)));
  kw_ratio : option F;
  kw_ignore_index : option Z
}.

(** [self.contrast_criterion(feat, mask, weight=weight, index=index, ...,
    **kwargs)]. *)
Definition call_criterion (self : ContrastiveLoss)
    (feat : pyarg (tensor F)) (mask : itensor) (weight : option (tensor F))
    (index : Z) (class_weight : option (list F)) (reduction : string)
    (avg_factor : option F) (kw : kwargs) : result (tensor F) :=
  let reg_weight := if use_reg self then reg_weight self else of_Z 0 in
  let ignore_index := match kw_ignore_index kw with
                      | Some i => i
                      | None => 255%Z
                      end in
  match contrast_criterion self with
  | ProtoContrastive =>
      proto_contrastive feat mask (kw_mean kw) index
        (contrast_temp self) (use_avg_pool self)
        (scale_min_ratio self) (num_classes self) weight
        class_weight reduction avg_factor reg_weight ignore_index
  | DistContrastive =>
      dist_contrastive feat mask (kw_mean kw) (kw_covariance kw)
        (match kw_ratio kw with Some r => r | None => sone end) index
        (contrast_temp self) (use_avg_pool self)
        (scale_min_ratio self) (num_classes self) weight
        class_weight reduction avg_factor reg_weight ignore_index
  | BankContrastive =>
      bank_contrastive feat mask (kw_bank kw) (kw_mean kw) index
        (contrast_temp self) (use_avg_pool self)
        (scale_min_ratio self) (num_classes self) weight
        reduction avg_factor reg_weight ignore_index
  end.

(** [feat.new_tensor(self.class_weight)]: [feat] has to be a tensor, the
    weights a list of numbers. *)
Definition new_tensor (feat : pyarg (tensor F)) (cw : class_weight_arg F)
    : result (option (list F)) :=
  match cw with
  | CwNone => Ok None
  | _ =>
      _ <- unwrap feat ;;
      match cw with
      | CwList l => Ok (Some l)
      | _ => Raise TypeError
      end
  end.

Definition reduction_override_ok (reduction_override : option string)
    : bool :=
  match reduction_override with
  | None => true
  | Some r => String.eqb r "none" || String.eqb r "mean" || String.eqb r "sum"
  end.

(** [self.loss_weight[i]]. *)
Definition loss_weight_at (lw : loss_weight_arg) (i : nat) : result F :=
  match lw with
  | LwList lw =>
      match nth_error lw i with
      | Some x => Ok x
      | None => Raise IndexError
      end
  | LwNumber _ => Raise TypeError
  end.

(** [forward] (lines 483-531).  The call may replace [self.loss_weight];
    the module after the call is returned with the result, also when the
    call raises. *)
Definition forward (self : ContrastiveLoss) (feat : pyarg (tensor F))
    (mask : itensor) (weight : option (tensor F)) (avg_factor : option F)
    (reduction_override : option string) (kw : kwargs)
    : ContrastiveLoss * result pyvalue :=
  if negb (reduction_override_ok reduction_override)
  then (self, Raise AssertionError)
  else
    let reduction := match reduction_override with
                     | Some r => r
                     | None => reduction self
                     end in
    match new_tensor feat (class_weight self) with
    | Raise e => (self, Raise e)
    | Ok class_weight =>
        match feat with
        | PyList l =>
            let self :=
              match loss_weight self with
              | LwList _ => self
              | LwNumber x =>
                  set_loss_weight self (LwList (repeat x (length l)))
              end in
            (self,
             loss_contrast <-
               mapM (fun i =>
                       w <- loss_weight_at (loss_weight self) i ;;
                       loss <- call_criterion self feat mask weight
                                 (Z.of_nat i) class_weight reduction
                                 avg_factor kw ;;
                       Ok (tmul_scalar loss w))
                    (seq 0 (length l)) ;;
             py_sum loss_contrast)
        | _ =>
            (self,
             loss <- call_criterion self feat mask weight (-1)
                       class_weight reduction avg_factor kw ;;
             match loss_weight self with
             | LwNumber x => Ok (PyTensor (tmul_scalar loss x))
             | LwList _ => Raise TypeError
             end)
        end
    end.

End Facade.

(** ** Masks of another resolution or with several channels

    The pixel of a (B, 1, k*H, k*W) mask that nearest-neighbour resizing to
    (H, W) keeps for the output position (i, j): the top-left one of the
    [k] x [k] block, (i*k, j*k). *)
Definition top_left_pixels (mask : itensor) (B H W k : nat) : itensor :=
  mkI [B; 1; H; W]
      (tabulate (B * H * W) (fun p =>
         nth ((p / (W * H) * (k * H) + (p / W) mod H * k) * (k * W)
              + p mod W * k)
             (idata mask) 0%Z)).

(** ** The prototype-contrastive loss of one token, in closed form

    For a token with features [f] and label [y]: the logit of class [c] is
    f . mean_c / temperature, and the loss is the class-weighted
    cross-entropy of the logits against [y]. *)

Section ProtoClosedForm.
Open Scope R_scope.
Variables (mean : list (list R)) (temperature : R).
Variable class_weight : option (list R).

Definition proto_logits (f : list R) : list R :=
  map (fun mu => dot f mu / temperature) mean.

Definition proto_token (f : list R) (y : Z) : R :=
  cross_entropy_term class_weight (proto_logits f) (Z.to_nat y).

End ProtoClosedForm.

(** The elementwise absolute differences that [l1_loss] computes on two
    vectors. *)
Definition abs_differences {F : Type} {SF : Scalar F} (pred target : list F)
    : list F :=
  map2 (fun a b => if sltb (a -! b) szero then sneg (a -! b) else a -! b)
       pred target.

(** * Properties *)

(** ** Weighted reduction *)

Section ReductionFacts.
Context {F : Type} {SF : Scalar F}.

Lemma weighting_step (loss : tensor F) (weight : option (tensor F)) (wl : tensor F) :
  weighted loss weight wl ->
  match weight with
  | Some weight =>
      assert (dim weight =? dim loss) ;;;
      (if 1 <? dim weight
       then assert ((size weight 1 =? 1) || (size weight 1 =? size loss 1))
       else Ok tt) ;;;
      tmul loss weight
  | None => Ok loss
  end = Ok wl.
Proof.
  destruct weight as [w|]; simpl.
  - intros (Hd & Hs & Hm).
    rewrite Hd, Nat.eqb_refl; simpl.
    destruct (1 <? dim loss) eqn:E; simpl; [|exact Hm].
    apply Nat.ltb_lt in E. rewrite <- Hd in E.
    destruct (Hs E) as [H1 | H1]; rewrite H1.
    + simpl. exact Hm.
    + rewrite Nat.eqb_refl, orb_true_r. simpl. exact Hm.
  - intros ->. reflexivity.
Qed.

Lemma chunks_singletons (n : nat) : forall (l : list F),
  length l = n -> chunks 1 n l = map (fun x => [x]) l.
Proof.
  induction n as [|n IH]; intros [|x l] Hl; simpl in *; try discriminate;
    try reflexivity.
  f_equal. apply IH. lia.
Qed.

Lemma concat_map2_singletons (f : F -> F -> F) : forall (a b : list F),
  concat (map2 (map2 f) (map (fun x => [x]) a) (map (fun x => [x]) b))
  = map2 f a b.
Proof.
  induction a as [|x a IH]; intros [|y b]; simpl; try reflexivity.
  f_equal. apply IH.
Qed.

(** On two vectors of the same length the broadcast product is the
    elementwise product. *)
Lemma tmul_vectors (a b : list F) (ga gb : bool) :
  length a = length b ->
  tmul (vector_tensor a ga) (vector_tensor b gb)
  = Ok (mkT [length a] (map2 smul a b) (ga || gb)).
Proof.
  intros Hl. unfold tmul, vector_tensor, dim, pad_shape; simpl.
  rewrite <- Hl, Nat.eqb_refl. f_equal. f_equal.
  rewrite !chunks_singletons by (auto; lia).
  apply concat_map2_singletons.
Qed.

End ReductionFacts.

(** C3.  Let [wl] be the weighted loss (the loss itself without a weight,
    the broadcast product with a weight of matching rank).  Without
    [avg_factor], [weight_reduce_loss] returns [wl] unchanged for 'none',
    the sum of its elements divided by their number for 'mean', and the sum
    for 'sum'; with [avg_factor] and 'mean' it returns the sum divided by
    [avg_factor].  For loss [1,2,3] and weight [1,0,1] over the rationals:
    'mean' gives 4/3, 'none' gives [1,0,3], 'mean' with avg_factor 2
    gives 2. *)
Theorem weight_reduce_loss_reductions {F : Type} {SF : Scalar F}
    (loss : tensor F) (weight : option (tensor F)) (wl : tensor F)
    (Hw : weighted loss weight wl) :
  (weight_reduce_loss loss weight "none" None = Ok wl /\
   weight_reduce_loss loss weight "mean" None
   = Ok (scalar_tensor (ssum (data wl) /! of_nat (numel wl))
                       (requires_grad wl)) /\
   weight_reduce_loss loss weight "sum" None
   = Ok (scalar_tensor (ssum (data wl)) (requires_grad wl)) /\
   forall avg_factor : F,
     weight_reduce_loss loss weight "mean" (Some avg_factor)
     = Ok (scalar_tensor (ssum (data wl) /! avg_factor) (requires_grad wl)))
  /\
  (let l := vector_tensor [1; 2; 3]%Q false in
   let w := vector_tensor [1; 0; 1]%Q false in
   weight_reduce_loss l (Some w) "mean" None
   = Ok (scalar_tensor (4 # 3)%Q false) /\
   weight_reduce_loss l (Some w) "none" None
   = Ok (vector_tensor [1; 0; 3]%Q false) /\
   exists x : Q,
     weight_reduce_loss l (Some w) "mean" (Some 2%Q)
     = Ok (scalar_tensor x false) /\ (x == 2)%Q).
Proof.
  split.
  - pose proof (weighting_step loss weight wl Hw) as E.
    unfold weight_reduce_loss. rewrite E. simpl.
    repeat split; reflexivity.
  - cbv zeta. repeat split.
    exists (4 # 2)%Q. split; reflexivity.
Qed.

Lemma weight_reduce_loss_reductions_witness :
  let l := vector_tensor [1; 2; 3]%Q false in
  let w := vector_tensor [1; 0; 1]%Q false in
  weighted l (Some w) (vector_tensor [1; 0; 3]%Q false) /\
  weight_reduce_loss l (Some w) "sum" None = Ok (scalar_tensor 4%Q false).
Proof.
  cbv zeta.
  assert (Hw : weighted (vector_tensor [1; 2; 3]%Q false)
                 (Some (vector_tensor [1; 0; 1]%Q false))
                 (vector_tensor [1; 0; 3]%Q false)).
  { simpl. repeat split. unfold dim; simpl. lia. }
  split; [exact Hw|].
  exact (proj1 (proj2 (proj2 (proj1 (weight_reduce_loss_reductions _ _ _ Hw))))).
Defined.

(** C4.  With [avg_factor] given, reduction 'sum' never returns, and raises
    [ValueError] as soon as the weighting itself succeeds; reduction 'none'
    returns the weighted loss unchanged, whatever the [avg_factor]. *)
Theorem weight_reduce_loss_avg_factor {F : Type} {SF : Scalar F}
    (loss : tensor F) (weight : option (tensor F)) (avg_factor : F) :
  (exists e, weight_reduce_loss loss weight "sum" (Some avg_factor) = Raise e)
  /\
  (forall wl, weighted loss weight wl ->
     weight_reduce_loss loss weight "sum" (Some avg_factor) = Raise ValueError
     /\ weight_reduce_loss loss weight "none" (Some avg_factor) = Ok wl).
Proof.
  split.
  - unfold weight_reduce_loss.
    match goal with |- context [bind ?c _] => destruct c as [l|e] end; simpl.
    + exists ValueError. reflexivity.
    + exists e. reflexivity.
  - intros wl Hw. pose proof (weighting_step loss weight wl Hw) as E.
    unfold weight_reduce_loss. rewrite E. simpl. split; reflexivity.
Qed.

Lemma weight_reduce_loss_avg_factor_witness :
  let l := vector_tensor [1; 2; 3]%Q false in
  let w := vector_tensor [1; 0; 1]%Q false in
  weighted l (Some w) (vector_tensor [1; 0; 3]%Q false) /\
  weight_reduce_loss l (Some w) "sum" (Some 2%Q) = Raise ValueError /\
  weight_reduce_loss l (Some w) "none" (Some 2%Q)
  = Ok (vector_tensor [1; 0; 3]%Q false).
Proof.
  cbv zeta.
  assert (Hw : weighted (vector_tensor [1; 2; 3]%Q false)
                 (Some (vector_tensor [1; 0; 1]%Q false))
                 (vector_tensor [1; 0; 3]%Q false)).
  { simpl. repeat split. unfold dim; simpl. lia. }
  split; [exact Hw|].
  exact (proj2 (weight_reduce_loss_avg_factor
                  (vector_tensor [1; 2; 3]%Q false)
                  (Some (vector_tensor [1; 0; 1]%Q false)) 2%Q) _ Hw).
Defined.

(** ** Alignment *)

Lemma list_eqb_refl (l : list nat) : list_eqb l l = true.
Proof.
  induction l as [|a l IH]; simpl; [reflexivity|].
  rewrite Nat.eqb_refl. exact IH.
Qed.

Lemma length_tabulate {A} (n : nat) (f : nat -> A) :
  length (tabulate n f) = n.
Proof. unfold tabulate. rewrite length_map, length_seq. reflexivity. Qed.

Lemma nth_tabulate {A} (n : nat) (f : nat -> A) (i : nat) (d : A) :
  i < n -> nth i (tabulate n f) d = f i.
Proof.
  intros Hi. unfold tabulate.
  rewrite (nth_indep _ d (f 0)) by (rewrite length_map, length_seq; exact Hi).
  rewrite map_nth, seq_nth by exact Hi. reflexivity.
Qed.

(** Masking two lists of the same length with one keep-mask is filtering
    the list of their pairs: the rows stay in correspondence and in
    order. *)
Lemma select_lockstep {A B} (p : B -> bool) :
  forall (l : list A) (m : list B),
    length l = length m ->
    select (map p m) l
    = map fst (filter (fun x => p (snd x)) (combine l m)) /\
    select (map p m) m
    = map snd (filter (fun x => p (snd x)) (combine l m)).
Proof.
  induction l as [|a l IH]; intros [|b m] Hl; simpl in *;
    try discriminate; try (split; reflexivity).
  destruct (IH m) as [E1 E2]; [lia|].
  destruct (p b); simpl; rewrite E1, E2; split; reflexivity.
Qed.

(** What [contrast_preparations] guarantees whenever it returns. *)
Section AlignmentFacts.
Context {F : Type} {SF : Scalar F}.

Lemma select_Forall {A} (P : A -> Prop) : forall (msk : list bool) (l : list A),
  Forall P l -> Forall P (select msk l).
Proof.
  induction msk as [|b msk IH]; intros [|a l] Hl; simpl; try constructor.
  inversion Hl; subst. destruct b; [constructor|]; auto.
Qed.

Lemma select_same_length {A B} : forall (msk : list bool) (l : list A)
    (m : list B),
  length l = length m -> length (select msk l) = length (select msk m).
Proof.
  induction msk as [|b msk IH]; intros [|a l] [|c m] Hl; simpl in *;
    try discriminate; try reflexivity.
  destruct b; simpl; rewrite (IH l m) by lia; reflexivity.
Qed.

Lemma select_pred_holds {A} (p : A -> bool) : forall (l : list A),
  Forall (fun a => p a = true) (select (map p l) l).
Proof.
  induction l as [|a l IH]; simpl; [constructor|].
  destruct (p a) eqn:E; [constructor|]; auto.
Qed.

Lemma token_length (feat : tensor F) (channels hw t : nat) :
  length (token feat channels hw t) = channels.
Proof. unfold token. rewrite length_map, length_seq. reflexivity. Qed.

Lemma Forall_tabulate {A} (P : A -> Prop) (n : nat) (f : nat -> A) :
  (forall i, i < n -> P (f i)) -> Forall P (tabulate n f).
Proof.
  intros Hf. unfold tabulate. apply Forall_forall. intros x Hx.
  apply in_map_iff in Hx as (i & <- & Hi). apply in_seq in Hi.
  apply Hf. lia.
Qed.

Lemma interpolate_nearest_wf (mask : itensor) (sz : list nat) (m : itensor) :
  interpolate_nearest mask sz = Ok m -> wf_itensor m.
Proof.
  unfold interpolate_nearest.
  destruct (ishape mask) as [|b [|c [|h [|w [|]]]]]; try discriminate.
  destruct sz as [|H [|W [|]]]; try discriminate.
  destruct ((h =? 0) || (w =? 0) || (H =? 0) || (W =? 0)); try discriminate.
  intros E. injection E as <-. unfold wf_itensor; simpl.
  rewrite length_tabulate. lia.
Qed.

Lemma iargmax_dim1_wf (mask : itensor) :
  idim mask = 4 -> wf_itensor (iargmax_dim1 mask).
Proof.
  unfold idim, iargmax_dim1.
  destruct (ishape mask) as [|b [|c [|h [|w [|]]]]]; try discriminate.
  intros _. unfold wf_itensor; simpl. rewrite length_tabulate. lia.
Qed.

Lemma contrast_preparations_grad (feat : tensor F) (mask : itensor)
    (use_avg_pool : bool) (scale_min_ratio : F) (num_classes : nat)
    (ignore_index : Z) (feat' : matrix F) (mask' : list Z) :
  contrast_preparations feat mask use_avg_pool scale_min_ratio num_classes
    ignore_index = Ok (feat', mask') ->
  mgrad feat' = requires_grad feat.
Proof.
  unfold contrast_preparations.
  destruct (if negb (list_eqb (last2 (ishape mask)) (last2 (shape feat)))
            then interpolate_nearest mask (last2 (shape feat))
            else Ok mask) as [m|e]; simpl; [|discriminate].
  destruct (shape feat) as [|B [|C [|H [|W [|]]]]]; try discriminate.
  unfold flatten_tokens.
  destruct (C =? 0); simpl; [discriminate|].
  match goal with |- context [assert ?b] => destruct b end; simpl;
    [|discriminate].
  intros E. injection E as <- <-. reflexivity.
Qed.

Lemma contrast_preparations_inv (feat : tensor F) (mask : itensor)
    (use_avg_pool : bool) (scale_min_ratio : F) (num_classes : nat)
    (ignore_index : Z) (feat' : matrix F) (mask' : list Z) :
  wf_itensor mask ->
  contrast_preparations feat mask use_avg_pool scale_min_ratio num_classes
    ignore_index = Ok (feat', mask') ->
  ncols feat' <> 0 /\
  mgrad feat' = requires_grad feat /\
  wf_matrix feat' /\
  nrows feat' = length mask' /\
  Forall (fun l => l <> ignore_index) mask'.
Proof.
  intros Hwf. unfold contrast_preparations.
  set (m1 := if negb (list_eqb (last2 (ishape mask)) (last2 (shape feat)))
             then interpolate_nearest mask (last2 (shape feat))
             else Ok mask).
  assert (H1 : forall m, m1 = Ok m -> wf_itensor m).
  { subst m1. intros m.
    destruct (negb (list_eqb (last2 (ishape mask)) (last2 (shape feat)))).
    - apply interpolate_nearest_wf.
    - intros E. injection E as <-. exact Hwf. }
  destruct m1 as [m|e]; simpl; [|discriminate].
  specialize (H1 m eq_refl).
  set (m2 := if (idim m =? 4) && (1 <? isize m 1) then iargmax_dim1 m else m).
  assert (H2 : wf_itensor m2).
  { subst m2. destruct (idim m =? 4) eqn:E4; simpl; [|exact H1].
    destruct (1 <? isize m 1); [|exact H1].
    apply iargmax_dim1_wf. apply Nat.eqb_eq. exact E4. }
  clearbody m2.
  destruct (shape feat) as [|B [|C [|H [|W [|]]]]]; try discriminate.
  unfold flatten_tokens.
  destruct (C =? 0) eqn:EC; simpl; [discriminate|].
  apply Nat.eqb_neq in EC.
  unfold nrows at 1; simpl. rewrite length_tabulate.
  destruct (B * H * W =? prod_list (ishape m2)) eqn:EN; simpl; [|discriminate].
  apply Nat.eqb_eq in EN.
  intros E. injection E as <- <-. unfold mselect, wf_matrix, nrows; simpl.
  repeat split.
  - exact EC.
  - apply select_Forall. apply Forall_tabulate. intros i _.
    apply token_length.
  - apply select_same_length. rewrite length_tabulate.
    unfold wf_itensor in H2. lia.
  - pose proof (select_pred_holds (fun l => negb (l =? ignore_index)%Z)
                  (idata m2)) as HP.
    eapply Forall_impl; [|exact HP]. simpl. intros l Hl Heq.
    subst l. rewrite Z.eqb_refl in Hl. discriminate.
Qed.

(** On a single-channel mask of the resolution of the features, alignment
    is the lockstep filter of the (row, label) pairs. *)
Lemma contrast_preparations_aligned (feat : tensor F) (mask : itensor)
    (use_avg_pool : bool) (scale_min_ratio : F) (num_classes : nat)
    (ignore_index : Z) (B C H W : nat) :
  shape feat = [B; C; H; W] ->
  C <> 0 ->
  ishape mask = [B; 1; H; W] \/ ishape mask = [B; H; W] ->
  length (idata mask) = B * H * W ->
  contrast_preparations feat mask use_avg_pool scale_min_ratio num_classes
    ignore_index
  = Ok (mkM C (map fst (filter (fun tl => negb (snd tl =? ignore_index)%Z)
                          (combine (tabulate (B * H * W)
                                      (token feat C (H * W)))
                                   (idata mask))))
              (requires_grad feat),
        map snd (filter (fun tl => negb (snd tl =? ignore_index)%Z)
                   (combine (tabulate (B * H * W) (token feat C (H * W)))
                            (idata mask)))).
Proof.
  intros Hfeat HC Hmask Hlen.
  unfold contrast_preparations.
  assert (Hl2 : last2 (ishape mask) = last2 (shape feat)).
  { rewrite Hfeat. destruct Hmask as [-> | ->]; reflexivity. }
  rewrite Hl2, list_eqb_refl. simpl negb. cbv iota. simpl bind.
  assert (Hch : (idim mask =? 4) && (1 <? isize mask 1) = false).
  { unfold idim, isize. destruct Hmask as [-> | ->]; reflexivity. }
  rewrite Hch, Hfeat.
  unfold flatten_tokens.
  destruct (C =? 0) eqn:EC; [apply Nat.eqb_eq in EC; contradiction|].
  simpl bind.
  assert (Hsz : (nrows (mkM C (tabulate (B * H * W) (token feat C (H * W)))
                            (requires_grad feat))
                 =? prod_list (ishape mask)) = true).
  { apply Nat.eqb_eq. unfold nrows; simpl. rewrite length_tabulate.
    destruct Hmask as [-> | ->]; simpl; lia. }
  rewrite Hsz. simpl.
  destruct (select_lockstep (fun l => negb (l =? ignore_index)%Z)
              (tabulate (B * H * W) (token feat C (H * W))) (idata mask))
    as [E1 E2].
  { rewrite length_tabulate. symmetry. exact Hlen. }
  unfold mselect. simpl. rewrite E1, E2. reflexivity.
Qed.

End AlignmentFacts.

(** ** Selection by [index] *)

Lemma picked_neg {A} (index : Z) (x : pyarg A) (v : A) :
  (index < 0)%Z -> picked index x v -> x = PyOne v.
Proof. intros Hi [[_ E] | [Hi' _]]; [exact E | lia]. Qed.

Lemma picked_pos {A} (index : Z) (x : pyarg A) (v : A) :
  (0 <= index)%Z -> picked index x v ->
  is_list_or_dict x = true /\ getitem x index = Ok (PyOne v).
Proof. intros Hi [[Hi' _] | [_ E]]; [lia | exact E]. Qed.

Lemma picked_list_neg {A} (index : Z) (x : pyarg A) (v : A) :
  (index < 0)%Z -> picked_list index x v -> x = PyOne v.
Proof. intros Hi [[_ E] | [Hi' _]]; [exact E | lia]. Qed.

Lemma picked_list_pos {A} (index : Z) (x : pyarg A) (v : A) :
  (0 <= index)%Z -> picked_list index x v ->
  is_list x = true /\ getitem x index = Ok (PyOne v).
Proof. intros Hi [[Hi' _] | [_ E]]; [lia | exact E]. Qed.

Lemma picked_bank_neg {A} (index : Z) (x : pyarg (pyarg A)) (v : pyarg A) :
  (index < 0)%Z -> picked_bank index x v -> x = PyOne v.
Proof. intros Hi [[_ E] | [Hi' _]]; [exact E | lia]. Qed.

Lemma picked_bank_pos {A} (index : Z) (x : pyarg (pyarg A)) (v : pyarg A) :
  (0 <= index)%Z -> picked_bank index x v ->
  is_list_or_dict x = true /\ getitem x index = Ok (PyOne v) /\
  is_list v = true.
Proof. intros Hi [[Hi' _] | [_ E]]; [lia | exact E]. Qed.

Section SelectionFacts.
Context {F : Type} {SF : Scalar F}.

Lemma select_feat_mean (index : Z) (feat : pyarg (tensor F))
    (mean : pyarg (matrix F)) (ft : tensor F) (mn : matrix F) :
  picked_list index feat ft -> picked index mean mn ->
  (if (0 <=? index)%Z
   then
     assert (is_list feat) ;;;
     assert (is_list_or_dict mean) ;;;
     feat <- getitem feat index ;;
     mean <- getitem mean index ;;
     Ok (feat, mean)
   else Ok (feat, mean)) = Ok (PyOne ft, PyOne mn).
Proof.
  intros Hf Hm. destruct (0 <=? index)%Z eqn:E.
  - apply Z.leb_le in E.
    destruct (picked_list_pos _ _ _ E Hf) as [-> ->].
    destruct (picked_pos _ _ _ E Hm) as [-> ->]. reflexivity.
  - apply Z.leb_gt in E.
    rewrite (picked_list_neg _ _ _ E Hf), (picked_neg _ _ _ E Hm).
    reflexivity.
Qed.

Lemma select_feat_mean_cov (index : Z) (feat : pyarg (tensor F))
    (mean covariance : pyarg (matrix F)) (ft : tensor F) (mn cv : matrix F) :
  picked_list index feat ft -> picked index mean mn ->
  picked index covariance cv ->
  (if (0 <=? index)%Z
   then
     assert (is_list feat) ;;;
     assert (is_list_or_dict mean) ;;;
     assert (is_list_or_dict covariance) ;;;
     feat <- getitem feat index ;;
     mean <- getitem mean index ;;
     covariance <- getitem covariance index ;;
     Ok (feat, mean, covariance)
   else Ok (feat, mean, covariance)) = Ok (PyOne ft, PyOne mn, PyOne cv).
Proof.
  intros Hf Hm Hc. destruct (0 <=? index)%Z eqn:E.
  - apply Z.leb_le in E.
    destruct (picked_list_pos _ _ _ E Hf) as [-> ->].
    destruct (picked_pos _ _ _ E Hm) as [-> ->].
    destruct (picked_pos _ _ _ E Hc) as [-> ->]. reflexivity.
  - apply Z.leb_gt in E.
    rewrite (picked_list_neg _ _ _ E Hf), (picked_neg _ _ _ E Hm),
      (picked_neg _ _ _ E Hc).
    reflexivity.
Qed.

(** In the bank variant [mean] is looked up only when the regulariser is
    on. *)
Lemma select_feat_bank (index : Z) (feat : pyarg (tensor F))
    (bank : pyarg (pyarg (list (matrix F)))) (mean : pyarg (matrix F))
    (reg_weight : F) (ft : tensor F) (bk : pyarg (list (matrix F))) :
  picked_list index feat ft -> picked_bank index bank bk ->
  sltb szero reg_weight = false ->
  (if (0 <=? index)%Z
   then
     assert (is_list feat) ;;;
     assert (is_list_or_dict bank) ;;;
     b <- getitem bank index ;;
     b' <- unwrap b ;;
     assert (is_list b') ;;;
     feat <- getitem feat index ;;
     mean <- (if sltb szero reg_weight
              then assert (is_list_or_dict mean) ;;;
                   getitem mean index
              else Ok mean) ;;
     Ok (feat, b, mean)
   else Ok (feat, bank, mean)) = Ok (PyOne ft, PyOne bk, mean).
Proof.
  intros Hf Hb Hr. destruct (0 <=? index)%Z eqn:E.
  - apply Z.leb_le in E.
    destruct (picked_list_pos _ _ _ E Hf) as [-> ->].
    destruct (picked_bank_pos _ _ _ E Hb) as (-> & -> & Hl).
    simpl. rewrite Hl, Hr. reflexivity.
  - apply Z.leb_gt in E.
    rewrite (picked_list_neg _ _ _ E Hf), (picked_bank_neg _ _ _ E Hb).
    reflexivity.
Qed.

Lemma select_feat_bank_mean (index : Z) (feat : pyarg (tensor F))
    (bank : pyarg (pyarg (list (matrix F)))) (mean : pyarg (matrix F))
    (reg_weight : F) (ft : tensor F) (bk : pyarg (list (matrix F))) (mn : matrix F) :
  picked_list index feat ft -> picked_bank index bank bk ->
  picked index mean mn ->
  sltb szero reg_weight = true ->
  (if (0 <=? index)%Z
   then
     assert (is_list feat) ;;;
     assert (is_list_or_dict bank) ;;;
     b <- getitem bank index ;;
     b' <- unwrap b ;;
     assert (is_list b') ;;;
     feat <- getitem feat index ;;
     mean <- (if sltb szero reg_weight
              then assert (is_list_or_dict mean) ;;;
                   getitem mean index
              else Ok mean) ;;
     Ok (feat, b, mean)
   else Ok (feat, bank, mean)) = Ok (PyOne ft, PyOne bk, PyOne mn).
Proof.
  intros Hf Hb Hm Hr. destruct (0 <=? index)%Z eqn:E.
  - apply Z.leb_le in E.
    destruct (picked_list_pos _ _ _ E Hf) as [-> ->].
    destruct (picked_bank_pos _ _ _ E Hb) as (-> & -> & Hl).
    destruct (picked_pos _ _ _ E Hm) as [Hm1 Hm2].
    simpl. rewrite Hl, Hr, Hm1. simpl. rewrite Hm2. reflexivity.
  - apply Z.leb_gt in E.
    rewrite (picked_list_neg _ _ _ E Hf), (picked_bank_neg _ _ _ E Hb),
      (picked_neg _ _ _ E Hm).
    reflexivity.
Qed.

End SelectionFacts.

(** ** The empty batch *)

Section EmptyBatch.
Context {F : Type} {SF : Scalar F} {TF : Transcendental F}.

Lemma filter_all_ignored {A} (ignore_index : Z) :
  forall (m : list Z) (rs : list A),
    Forall (fun l => l = ignore_index) m ->
    filter (fun tl => negb (snd tl =? ignore_index)%Z) (combine rs m) = [].
Proof.
  induction m as [|l m IH]; intros [|r rs] Hall; simpl; try reflexivity.
  inversion Hall; subst. rewrite Z.eqb_refl. simpl. apply IH. assumption.
Qed.

(** An all-ignored mask leaves no token. *)
Lemma all_ignored_no_survivor (feat : tensor F) (mask : itensor)
    (use_avg_pool : bool) (scale_min_ratio : F) (num_classes : nat)
    (ignore_index : Z) (B C H W : nat) :
  shape feat = [B; C; H; W] ->
  C <> 0 ->
  ishape mask = [B; 1; H; W] \/ ishape mask = [B; H; W] ->
  length (idata mask) = B * H * W ->
  Forall (fun l => l = ignore_index) (idata mask) ->
  contrast_preparations feat mask use_avg_pool scale_min_ratio num_classes
    ignore_index
  = Ok (mkM C [] (requires_grad feat), []).
Proof.
  intros Hs HC Hm Hl Hall.
  rewrite (contrast_preparations_aligned feat mask use_avg_pool
             scale_min_ratio num_classes ignore_index B C H W Hs HC Hm Hl).
  rewrite (filter_all_ignored ignore_index (idata mask) _ Hall).
  reflexivity.
Qed.

End EmptyBatch.

(** C6.  For a (B, C, H, W) feature map and a single-channel mask of the
    same resolution, [contrast_preparations] returns the feature rows and
    the labels of exactly the tokens whose label differs from
    [ignore_index]: both outputs are the projections of one filtered list
    of (row, label) pairs, so rows and labels stay in correspondence and in
    their original order.  For labels [0,1,255,2] and ignore index 255 the
    third token, and only it, is removed from both. *)
Theorem contrast_preparations_drops_ignored {F : Type} {SF : Scalar F}
    (feat : tensor F) (mask : itensor) (use_avg_pool : bool)
    (scale_min_ratio : F) (num_classes : nat) (ignore_index : Z)
    (B C H W : nat)
    (Hfeat : shape feat = [B; C; H; W])
    (HC : C <> 0)
    (Hmask : ishape mask = [B; 1; H; W] \/ ishape mask = [B; H; W])
    (Hlen : length (idata mask) = B * H * W) :
  (let tokens :=
     combine (tabulate (B * H * W) (token feat C (H * W))) (idata mask) in
   let kept :=
     filter (fun tl => negb (snd tl =? ignore_index)%Z) tokens in
   contrast_preparations feat mask use_avg_pool scale_min_ratio num_classes
     ignore_index
   = Ok (mkM C (map fst kept) (requires_grad feat), map snd kept))
  /\
  (let f := @mkT Q [1; 2; 2; 2] [1; 2; 3; 4; 10; 20; 30; 40]%Q true in
   let m := mkI [1; 1; 2; 2] [0; 1; 255; 2]%Z in
   contrast_preparations f m true (3 # 4)%Q 19 255%Z
   = Ok (mkM 2 [[1; 10]; [2; 20]; [4; 40]]%Q true, [0; 1; 2]%Z)).
Proof.
  split; [|reflexivity].
  cbv zeta. apply contrast_preparations_aligned; assumption.
Qed.

Lemma contrast_preparations_drops_ignored_witness :
  let f := @mkT Q [1; 2; 2; 2] [1; 2; 3; 4; 10; 20; 30; 40]%Q true in
  let m := mkI [1; 2; 2] [0; 255; 255; 2]%Z in
  contrast_preparations f m true (3 # 4)%Q 19 255%Z
  = Ok (mkM 2 [[1; 10]; [4; 40]]%Q true, [0; 2]%Z).
Proof.
  cbv zeta.
  refine (eq_trans
    (proj1 (contrast_preparations_drops_ignored
       (@mkT Q [1; 2; 2; 2] [1; 2; 3; 4; 10; 20; 30; 40]%Q true)
       (mkI [1; 2; 2] [0; 255; 255; 2]%Z) true (3 # 4)%Q 19 255%Z
       1 2 2 2 eq_refl _ (or_intror eq_refl) eq_refl)) _).
  - discriminate.
  - reflexivity.
Defined.


(** With no surviving token every variant takes its early return, which
    places the zero scalar on the device. *)
Section EmptyBatchLosses.
Context {F : Type} {SF : Scalar F} {TF : Transcendental F} {PF : Platform}.

Lemma cuda_on_device (t : tensor F) : cuda_error = None -> cuda t = Ok t.
Proof. intros H. unfold cuda. rewrite H. reflexivity. Qed.

Lemma losses_without_survivor
    (feat : pyarg (tensor F)) (ft : tensor F) (mask : itensor)
    (mean covariance : pyarg (matrix F)) (mn cv : matrix F)
    (bank : pyarg (pyarg (list (matrix F)))) (bk : pyarg (list (matrix F)))
    (ratio : F) (index : Z) (contrast_temp : F) (use_avg_pool : bool)
    (scale_min_ratio : F) (num_classes : nat) (weight : option (tensor F))
    (class_weight : option (list F)) (reduction : string)
    (avg_factor : option F) (reg_weight : F) (ignore_index : Z)
    (feat' : matrix F) (mask' : list Z) :
  cuda_error = None ->
  picked_list index feat ft -> requires_grad ft = true ->
  contrast_preparations ft mask use_avg_pool scale_min_ratio num_classes
    ignore_index = Ok (feat', mask') ->
  nrows feat' = 0 ->
  all_return_zero feat mask mean covariance mn cv bank bk ratio index
    contrast_temp use_avg_pool scale_min_ratio num_classes weight
    class_weight reduction avg_factor reg_weight ignore_index.
Proof.
  intros Hcuda Hfeat Hgrad Hprep Hzero.
  pose proof (contrast_preparations_grad _ _ _ _ _ _ _ _ Hprep) as Hg.
  rewrite Hgrad in Hg.
  assert (E0 : (nrows feat' =? 0) = true) by (apply Nat.eqb_eq; exact Hzero).
  split; [|split].
  - intros Hm Hmg. unfold proto_contrastive.
    rewrite (select_feat_mean index feat mean ft mn Hfeat Hm). simpl.
    rewrite Hprep. simpl. rewrite Hmg, Hg, E0. simpl.
    apply cuda_on_device. exact Hcuda.
  - intros Hm Hmg Hc Hcg. unfold dist_contrastive.
    rewrite (select_feat_mean_cov index feat mean covariance ft mn cv
               Hfeat Hm Hc). simpl.
    rewrite Hprep. simpl. rewrite Hmg, Hcg, Hg, E0. simpl.
    apply cuda_on_device. exact Hcuda.
  - intros Hb Hreg. unfold bank_contrastive.
    destruct (sltb szero reg_weight) eqn:Er.
    + destruct (Hreg eq_refl) as [Hm Hmg].
      pose proof (select_feat_bank_mean index feat bank mean reg_weight
                    ft bk mn Hfeat Hb Hm Er) as E.
      rewrite Er in E. rewrite E. simpl.
      rewrite Hprep. simpl. rewrite Hmg, Hg, E0. simpl.
      apply cuda_on_device. exact Hcuda.
    + pose proof (select_feat_bank index feat bank mean reg_weight
                    ft bk Hfeat Hb Er) as E.
      rewrite Er in E. rewrite E. simpl.
      rewrite Hprep. simpl. rewrite Hg, E0. simpl.
      apply cuda_on_device. exact Hcuda.
Qed.

End EmptyBatchLosses.




(** ** Regulariser *)

Section RegulariserFacts.
Context {F : Type} {SF : Scalar F} {TF : Transcendental F} {PF : Platform}.

Lemma nrows_permute10 (m : matrix F) : nrows (permute10 m) = ncols m.
Proof.
  unfold nrows, permute10; simpl. rewrite length_map, length_seq.
  reflexivity.
Qed.

(** On a batch with a token the regulariser returns whenever the
    similarity product of the classification term is well-shaped. *)
Lemma proto_reg_returns (feat mean : matrix F) (contrast_temp norm : F) :
  mgrad mean = false -> mgrad feat = true -> ncols feat = ncols mean ->
  nrows feat <> 0 ->
  exists r, proto_reg feat (PyOne mean) contrast_temp (Some norm)
            = Ok (scalar_tensor r true).
Proof.
  intros Hm Hf Hc Hn. unfold proto_reg. simpl. rewrite Hm, Hf. simpl.
  destruct (nrows feat =? 0) eqn:E.
  - apply Nat.eqb_eq in E. contradiction.
  - unfold mm. simpl ncols at 1. rewrite nrows_permute10, Hc, Nat.eqb_refl.
    simpl. eexists. reflexivity.
Qed.

Lemma mm_ok_ncols (a b c : matrix F) :
  mm a b = Ok c -> ncols a = nrows b.
Proof.
  unfold mm. destruct (ncols a =? nrows b) eqn:E; [|discriminate].
  intros _. apply Nat.eqb_eq. exact E.
Qed.

Lemma proto_classification_ncols (feat : matrix F) (mask : list Z)
    (mean : matrix F) (contrast_temp : F) (weight : option (tensor F))
    (class_weight : option (list F)) (reduction : string)
    (avg_factor : option F) (ignore_index : Z) (l : tensor F) :
  proto_classification feat mask mean contrast_temp weight class_weight
    reduction avg_factor ignore_index = Ok l ->
  ncols feat = ncols mean.
Proof.
  unfold proto_classification.
  destruct (mm feat (permute10 mean)) as [c|e] eqn:E; [|discriminate].
  intros _. apply mm_ok_ncols in E. rewrite nrows_permute10 in E. exact E.
Qed.

End RegulariserFacts.

(** C8.  Over the reals, for an input with at least one surviving token
    whose classification term (cross-entropy of the prototype logits,
    weighted and reduced) is [l]: with [reg_weight = 0] the loss of
    [proto_contrastive] is exactly [l]; with [reg_weight > 0] the
    regulariser [proto_reg], called on the surviving features and the
    prototypes with normalisation constant
    [num_classes * log num_classes], returns a scalar [reg], and the loss
    is [l + reg_weight * reg]. *)
Theorem proto_contrastive_regulariser {PF : Platform}
    (feat : pyarg (tensor R)) (ft : tensor R) (mask : itensor)
    (mean : pyarg (matrix R)) (mn : matrix R)
    (index : Z) (contrast_temp : R) (use_avg_pool : bool)
    (scale_min_ratio : R) (num_classes : nat) (weight : option (tensor R))
    (class_weight : option (list R)) (reduction : string)
    (avg_factor : option R) (reg_weight : R) (ignore_index : Z)
    (feat' : matrix R) (mask' : list Z) (l : tensor R)
    (Hfeat : picked_list index feat ft)
    (Hmean : picked index mean mn)
    (Hgrad : requires_grad ft = true)
    (Hmgrad : mgrad mn = false)
    (Hprep : contrast_preparations ft mask use_avg_pool scale_min_ratio
               num_classes ignore_index = Ok (feat', mask'))
    (Hsurv : nrows feat' <> 0)
    (Hcls : proto_classification feat' mask' mn contrast_temp weight
              class_weight reduction avg_factor ignore_index = Ok l) :
  (reg_weight = 0%R ->
   proto_contrastive feat mask mean index contrast_temp use_avg_pool
     scale_min_ratio num_classes weight class_weight reduction avg_factor
     reg_weight ignore_index = Ok l)
  /\
  ((0 < reg_weight)%R ->
   exists reg : R,
     proto_reg feat' (PyOne mn) contrast_temp
       (Some (INR num_classes * ln (INR num_classes))%R)
     = Ok (scalar_tensor reg true) /\
     proto_contrastive feat mask mean index contrast_temp use_avg_pool
       scale_min_ratio num_classes weight class_weight reduction avg_factor
       reg_weight ignore_index
     = Ok (tadd_scalar l (reg_weight * reg)%R)).
Proof.
  assert (Hg' : mgrad feat' = true).
  { rewrite (contrast_preparations_grad _ _ _ _ _ _ _ _ Hprep). exact Hgrad. }
  assert (Hpre :
    proto_contrastive feat mask mean index contrast_temp use_avg_pool
      scale_min_ratio num_classes weight class_weight reduction avg_factor
      reg_weight ignore_index
    = add_regulariser l feat' (PyOne mn) contrast_temp num_classes
        reg_weight).
  { unfold proto_contrastive.
    rewrite (select_feat_mean index feat mean ft mn Hfeat Hmean). simpl.
    rewrite Hprep. simpl. rewrite Hmgrad, Hg'. simpl.
    destruct (nrows feat' =? 0) eqn:E;
      [apply Nat.eqb_eq in E; contradiction|].
    rewrite Hcls. reflexivity. }
  split.
  - intros ->. rewrite Hpre. unfold add_regulariser. simpl.
    destruct (Rlt_dec 0 0) as [Hl|_]; [lra | reflexivity].
  - intros Hpos.
    destruct (proto_reg_returns feat' mn contrast_temp
                (INR num_classes * ln (INR num_classes))%R Hmgrad Hg'
                (proto_classification_ncols _ _ _ _ _ _ _ _ _ _ Hcls) Hsurv)
      as [reg Hreg].
    exists reg. split; [exact Hreg|].
    rewrite Hpre. unfold add_regulariser. simpl.
    destruct (Rlt_dec 0 reg_weight) as [_|Hn]; [|contradiction].
    unfold of_nat. simpl of_Z. rewrite <- INR_IZR_INZ.
    rewrite Hreg. reflexivity.
Qed.

Lemma proto_contrastive_regulariser_witness :
  let ft := @mkT R [1; 1; 1; 2] [1; 2]%R true in
  let mask := mkI [1; 1; 1; 2] [255; 1]%Z in
  let mn := @mkM R 1 [[1]; [2]]%R false in
  exists l : tensor R,
    proto_classification (@mkM R 1 [[2]]%R true) [1%Z] mn 100%R None None
      "mean" None 255%Z = Ok l /\
    proto_contrastive (PyOne ft) mask (PyOne mn) (-1) 100%R true 1%R 2 None
      None "mean" None 0%R 255%Z = Ok l.
Proof.
  cbv zeta. eexists. split; [reflexivity|].
  refine (proj1 (proto_contrastive_regulariser
    (PyOne (@mkT R [1; 1; 1; 2] [1; 2]%R true))
    (@mkT R [1; 1; 1; 2] [1; 2]%R true)
    (mkI [1; 1; 1; 2] [255; 1]%Z)
    (PyOne (@mkM R 1 [[1]; [2]]%R false)) (@mkM R 1 [[1]; [2]]%R false)
    (-1) 100%R true 1%R 2 None None "mean" None 0%R 255%Z
    (@mkM R 1 [[2]]%R true) [1%Z] _
    (or_introl (conj eq_refl eq_refl)) (or_introl (conj eq_refl eq_refl))
    eq_refl eq_refl eq_refl _ eq_refl) eq_refl).
  simpl. discriminate.
Defined.

(** ** Lists of pairs and elementwise operations *)

Section Map2Facts.
Context {A B C D : Type}.

Lemma map2_same (f : B -> C -> D) (g : A -> B) (h : A -> C) :
  forall l : list A,
    map2 f (map g l) (map h l) = map (fun x => f (g x) (h x)) l.
Proof.
  induction l as [|a l IH]; simpl; [reflexivity|]. f_equal. exact IH.
Qed.

Lemma length_map2 (f : A -> B -> C) : forall (l : list A) (m : list B),
  length (map2 f l m) = Nat.min (length l) (length m).
Proof.
  induction l as [|a l IH]; intros [|b m]; simpl; try reflexivity.
  f_equal. apply IH.
Qed.

Lemma snd_combine : forall (l : list A) (m : list B),
  length l = length m -> map snd (combine l m) = m.
Proof.
  induction l as [|a l IH]; intros [|b m] H; simpl in *; try discriminate;
    try reflexivity.
  f_equal. apply IH. lia.
Qed.

Lemma mapM_ok (f : A -> result B) (g : A -> B) : forall l : list A,
  (forall x, In x l -> f x = Ok (g x)) -> mapM f l = Ok (map g l).
Proof.
  induction l as [|a l IH]; intros H; simpl; [reflexivity|].
  rewrite (H a) by (left; reflexivity). simpl.
  rewrite IH by (intros x Hx; apply H; right; exact Hx). reflexivity.
Qed.

End Map2Facts.

Section Map2More.

Lemma map2_ext {A B C} (f g : A -> B -> C) :
  (forall x y, f x y = g x y) -> forall l m, map2 f l m = map2 g l m.
Proof.
  intros H. induction l as [|a l IH]; intros [|b m]; simpl; try reflexivity.
  rewrite H, IH. reflexivity.
Qed.

Lemma map_map2_maps {A B C D E G} (h : E -> G) (g : C -> D -> E)
    (a : A -> C) (b : B -> D) : forall (l : list A) (m : list B),
  map h (map2 g (map a l) (map b m))
  = map2 (fun x y => h (g (a x) (b y))) l m.
Proof.
  induction l as [|x l IH]; intros [|y m]; simpl; try reflexivity.
  f_equal. apply IH.
Qed.

Lemma map2_map_map {A B C D E} (f : C -> D -> E) (a : A -> C) (b : B -> D) :
  forall (l : list A) (m : list B),
    map2 f (map a l) (map b m) = map2 (fun x y => f (a x) (b y)) l m.
Proof.
  induction l as [|x l IH]; intros [|y m]; simpl; try reflexivity.
  f_equal. apply IH.
Qed.

Lemma map2_map_l {A B C D} (f : C -> B -> D) (a : A -> C) :
  forall (l : list A) (m : list B),
    map2 f (map a l) m = map2 (fun x y => f (a x) y) l m.
Proof.
  induction l as [|x l IH]; intros [|y m]; simpl; try reflexivity.
  f_equal. apply IH.
Qed.

Lemma map_map2 {A B C D} (h : C -> D) (f : A -> B -> C) :
  forall (l : list A) (m : list B),
    map h (map2 f l m) = map2 (fun x y => h (f x y)) l m.
Proof.
  induction l as [|x l IH]; intros [|y m]; simpl; try reflexivity.
  f_equal. apply IH.
Qed.

Lemma map_combine {A B C} (g : A * B -> C) :
  forall (l : list A) (m : list B),
    map g (combine l m) = map2 (fun x y => g (x, y)) l m.
Proof.
  induction l as [|x l IH]; intros [|y m]; simpl; try reflexivity.
  f_equal. apply IH.
Qed.

Lemma map2_map2_same {A B C D E} (g : C -> D -> E) (a : A -> B -> C)
    (b : A -> B -> D) : forall (l : list A) (m : list B),
  map2 g (map2 a l m) (map2 b l m) = map2 (fun x y => g (a x y) (b x y)) l m.
Proof.
  induction l as [|x l IH]; intros [|y m]; simpl; try reflexivity.
  f_equal. apply IH.
Qed.

End Map2More.

Lemma nth_map_in {A B} (f : A -> B) (l : list A) (i : nat) (d : B) (d' : A) :
  i < length l -> nth i (map f l) d = f (nth i l d').
Proof.
  intros H. rewrite (nth_indep _ d (f d')) by (rewrite length_map; exact H).
  apply map_nth.
Qed.

Lemma map_nth_seq {A} (l : list A) (d : A) :
  map (fun k => nth k l d) (seq 0 (length l)) = l.
Proof.
  induction l as [|a l IH]; simpl; [reflexivity|].
  f_equal. rewrite <- seq_shift, map_map. exact IH.
Qed.

(** ** Matrix products *)

Section MatrixFacts.
Context {F : Type} {SF : Scalar F}.

Lemma column_permute10 (m : matrix F) (j : nat) :
  wf_matrix m -> j < nrows m ->
  column j (rows (permute10 m)) = nth j (rows m) [].
Proof.
  intros Hwf Hj. unfold permute10, column; simpl. rewrite map_map.
  assert (Hlen : length (nth j (rows m) []) = ncols m).
  { unfold wf_matrix in Hwf. rewrite Forall_forall in Hwf.
    apply Hwf. apply nth_In. exact Hj. }
  rewrite <- Hlen at 1.
  rewrite <- (map_nth_seq (nth j (rows m) []) szero) at 2.
  apply map_ext. intros k.
  rewrite (nth_map_in (fun r => nth k r szero) (rows m) j szero []) by exact Hj.
  reflexivity.
Qed.

(** [a.mm(b.permute(1, 0))] pairs every row of [a] with every row of
    [b]. *)
Lemma mm_permute10 (a b : matrix F) :
  wf_matrix b -> ncols a = ncols b ->
  mm a (permute10 b)
  = Ok (mkM (nrows b) (map (fun r => map (dot r) (rows b)) (rows a))
            (mgrad a || mgrad b)).
Proof.
  intros Hwf Hc. unfold mm.
  rewrite nrows_permute10, Hc, Nat.eqb_refl.
  f_equal.
  assert (E : forall r,
    map (fun j => dot r (column j (rows (permute10 b)))) (seq 0 (nrows b))
    = map (dot r) (rows b)).
  { intros r.
    transitivity (map (dot r)
                    (map (fun j => nth j (rows b) []) (seq 0 (nrows b)))).
    - rewrite map_map. apply map_ext_in. intros j Hj. apply in_seq in Hj.
      rewrite column_permute10 by (auto; lia). reflexivity.
    - unfold nrows. rewrite map_nth_seq. reflexivity. }
  unfold permute10 at 1. simpl ncols.
  f_equal. apply map_ext. exact E.
Qed.

Lemma wf_mmap (f : F -> F) (m : matrix F) :
  wf_matrix m -> wf_matrix (mmap f m).
Proof.
  unfold wf_matrix, mmap; simpl. intros H. apply Forall_map.
  eapply Forall_impl; [|exact H]. simpl. intros r Hr.
  rewrite length_map. exact Hr.
Qed.

Lemma bzip_same_length {A} (f : A -> A -> A) (u v : list A) :
  length u = length v -> bzip f u v = Some (map2 f u v).
Proof. intros H. unfold bzip. rewrite H, Nat.eqb_refl. reflexivity. Qed.

Lemma bsize_same (n : nat) : bsize n n = Some n.
Proof. unfold bsize. rewrite Nat.eqb_refl. reflexivity. Qed.

(** Without broadcasting, [mzip] is elementwise. *)
Lemma mzip_same_shape (f : F -> F -> F) (a b : matrix F) :
  nrows a = nrows b -> ncols a = ncols b -> wf_matrix a -> wf_matrix b ->
  mzip f a b
  = Ok (mkM (ncols a) (map2 (map2 f) (rows a) (rows b))
            (mgrad a || mgrad b)).
Proof.
  intros Hr Hc Ha Hb. unfold mzip.
  rewrite Hr, Hc, !bsize_same.
  rewrite bzip_same_length by exact Hr.
  f_equal. f_equal.
  unfold wf_matrix in *; rewrite Hc in Ha. clear Hr Hc.
  revert Ha Hb. generalize (ncols b) as n. generalize (rows b) as rb.
  induction (rows a) as [|u ra IH]; intros [|v rb] n Ha Hb; simpl;
    try reflexivity.
  inversion Ha; subst. inversion Hb; subst.
  rewrite bzip_same_length by congruence.
  f_equal. eapply IH; eassumption.
Qed.

(** [mzip] on two matrices tabulated from the same list. *)
Lemma mzip_maps {A} (f : F -> F -> F) (c : nat) (a b : A -> list F)
    (l : list A) (g1 g2 : bool) :
  (forall x, In x l -> length (a x) = length (b x)) ->
  mzip f (mkM c (map a l) g1) (mkM c (map b l) g2)
  = Ok (mkM c (map (fun x => map2 f (a x) (b x)) l) (g1 || g2)).
Proof.
  intros H. unfold mzip, nrows. simpl.
  rewrite !length_map, !bsize_same.
  rewrite bzip_same_length by (rewrite !length_map; reflexivity).
  rewrite map2_same. f_equal. f_equal.
  apply map_ext_in. intros x Hx.
  rewrite bzip_same_length by (apply H; exact Hx). reflexivity.
Qed.

End MatrixFacts.

(** ** Cross-entropy over the reals *)

Section CrossEntropyFacts.
Open Scope R_scope.

Lemma ssum_exp_pos (l : list R) : l <> [] -> 0 < ssum (map exp l).
Proof.
  intros Hl.
  assert (H : forall m : list R, 0 <= ssum (map exp m)).
  { induction m as [|x m IH]; simpl; [lra|].
    pose proof (exp_pos x). lra. }
  destruct l as [|x l]; [contradiction|]. simpl.
  pose proof (exp_pos x). specialize (H l). lra.
Qed.

(** The log-softmax the code computes is the logarithm of the softmax. *)
Lemma log_softmax_nth (l : list R) (y : nat) :
  (y < length l)%nat ->
  nth y (log_softmax l) 0 = ln (exp (nth y l 0) / ssum (map exp l)).
Proof.
  intros Hy. unfold log_softmax.
  rewrite (nth_map_in _ l y 0 0) by exact Hy. simpl.
  assert (Hl : l <> []) by (destruct l; [simpl in Hy; lia | discriminate]).
  pose proof (ssum_exp_pos l Hl) as Hs.
  unfold Rdiv. rewrite ln_mult by (try apply exp_pos;
                                     apply Rinv_0_lt_compat; exact Hs).
  rewrite ln_exp, ln_Rinv by exact Hs. reflexivity.
Qed.

Lemma cross_entropy_entry_in_range (c : nat) (cw : option (list R))
    (ignore_index : Z) (row : list R) (t : Z) :
  length row = c -> t <> ignore_index -> (0 <= t < Z.of_nat c)%Z ->
  cross_entropy_entry c cw ignore_index row t
  = Ok (cross_entropy_term cw row (Z.to_nat t)).
Proof.
  intros Hrow Hig Ht. unfold cross_entropy_entry.
  destruct (t =? ignore_index)%Z eqn:E1;
    [apply Z.eqb_eq in E1; contradiction|].
  destruct ((t <? 0)%Z || (Z.of_nat c <=? t)%Z) eqn:E2.
  { apply orb_prop in E2 as [E2|E2];
      [apply Z.ltb_lt in E2 | apply Z.leb_le in E2]; lia. }
  rewrite log_softmax_nth by lia.
  unfold cross_entropy_term, class_weight_of.
  destruct cw as [w|]; simpl; f_equal; lra.
Qed.

Lemma cross_entropy_in_range (input : matrix R) (target : list Z)
    (cw : option (list R)) (ignore_index : Z) :
  wf_matrix input -> nrows input = length target ->
  match cw with Some w => length w = ncols input | None => True end ->
  Forall (fun t => t <> ignore_index /\ (0 <= t < Z.of_nat (ncols input))%Z)
         target ->
  cross_entropy input target cw ignore_index
  = Ok (map (fun p => cross_entropy_term cw (fst p) (Z.to_nat (snd p)))
            (combine (rows input) target)).
Proof.
  intros Hwf Hn Hcw Hlab. unfold cross_entropy.
  rewrite Hn, Nat.eqb_refl. simpl.
  assert (Ew : match cw with
               | Some w => negb (length w =? ncols input)%nat
               | None => false
               end = false).
  { destruct cw as [w|]; [|reflexivity]. rewrite Hcw, Nat.eqb_refl.
    reflexivity. }
  rewrite Ew. apply mapM_ok. intros [row t] Hin. simpl.
  apply cross_entropy_entry_in_range.
  - unfold wf_matrix in Hwf. rewrite Forall_forall in Hwf. apply Hwf.
    eapply in_combine_l. exact Hin.
  - rewrite Forall_forall in Hlab. apply Hlab. eapply in_combine_r.
    exact Hin.
  - rewrite Forall_forall in Hlab. apply Hlab. eapply in_combine_r.
    exact Hin.
Qed.

Lemma mindex_in_range (m : matrix R) (idx : list Z) :
  Forall (fun t => (0 <= t < Z.of_nat (nrows m))%Z) idx ->
  mindex m idx
  = Ok (mkM (ncols m) (map (fun t => nth (Z.to_nat t) (rows m) []) idx)
            (mgrad m)).
Proof.
  intros H. unfold mindex.
  rewrite (mapM_ok _ (fun t => nth (Z.to_nat t) (rows m) [])); [reflexivity|].
  intros t Ht. rewrite Forall_forall in H. specialize (H t Ht).
  destruct ((t <? - Z.of_nat (nrows m))%Z || (Z.of_nat (nrows m) <=? t)%Z)
    eqn:E.
  { apply orb_prop in E as [E|E];
      [apply Z.ltb_lt in E | apply Z.leb_le in E]; lia. }
  destruct (t <? 0)%Z eqn:E0; [apply Z.ltb_lt in E0; lia|]. reflexivity.
Qed.

End CrossEntropyFacts.

(** ** Distribution-contrastive loss *)

(** The per-token loss in closed form, on aligned features and labels. *)
Lemma dist_token_loss_closed_form (feat : matrix R) (mask : list Z)
    (mn cv : matrix R) (ratio temp : R) (cw : option (list R))
    (ignore_index : Z) :
  wf_matrix feat -> nrows feat = length mask ->
  wf_matrix mn -> wf_matrix cv ->
  ncols feat = ncols mn -> ncols feat = ncols cv -> nrows mn = nrows cv ->
  match cw with Some w => length w = nrows mn | None => True end ->
  Forall (fun y => y <> ignore_index /\ (0 <= y < Z.of_nat (nrows mn))%Z)
         mask ->
  exists g,
    dist_token_loss feat mask mn cv ratio temp cw ignore_index
    = Ok (vector_tensor
            (map2 (dist_token (rows mn) (rows cv) ratio temp cw)
                  (rows feat) mask) g).
Proof.
  intros Hwf Hn Hmn Hcv Hc1 Hc2 Hr Hcw Hlab.
  unfold dist_token_loss.
  rewrite (mm_permute10 feat mn Hmn Hc1).
  set (cvs := mmap (fun v => v *! ratio /! temp) cv).
  assert (Hcvs : wf_matrix cvs) by (apply wf_mmap; exact Hcv).
  assert (Hrs : nrows cvs = nrows mn).
  { unfold cvs, nrows, mmap; simpl. rewrite length_map. symmetry. exact Hr. }
  rewrite (mm_permute10 (mmap pow2 feat) cvs Hcvs Hc2).
  unfold bind at 1 2. unfold mmap at 1 2. simpl ncols. simpl rows. simpl mgrad.
  rewrite Hrs, !map_map.
  rewrite mzip_maps by (intros f _; rewrite !length_map; exact Hr).
  unfold bind at 1.
  set (Lg := fun x : list R =>
                map2 sadd (map (dot x) (rows mn))
                  (map (fun v : R => half *! v)
                     (map (dot (map pow2 x))
                        (map (map (fun v : R => (v * ratio / temp)%R))
                           (rows cv))))).
  rewrite cross_entropy_in_range; cycle 1.
  { unfold wf_matrix, mmap; simpl. rewrite map_map. apply Forall_map.
    apply Forall_forall. intros f _. unfold Lg.
    rewrite length_map, length_map2, !length_map.
    unfold nrows in *. lia. }
  { unfold nrows, mmap; simpl. rewrite !length_map. exact Hn. }
  { exact Hcw. }
  { exact Hlab. }
  unfold bind at 1.
  rewrite mindex_in_range; cycle 1.
  { eapply Forall_impl; [|exact Hlab]. simpl. intros y [_ Hy].
    rewrite Hrs. exact Hy. }
  unfold bind at 1.
  rewrite mzip_same_shape; cycle 1.
  { unfold nrows, mmap; simpl. rewrite !length_map. exact Hn. }
  { exact Hc2. }
  { apply wf_mmap. exact Hwf. }
  { unfold wf_matrix; simpl. apply Forall_map.
    eapply Forall_impl; [|exact Hlab]. simpl. intros y [_ Hy].
    unfold wf_matrix in Hcvs. rewrite Forall_forall in Hcvs.
    apply Hcvs. apply nth_In. rewrite <- Hrs in Hy. unfold nrows in Hy. lia. }
  unfold bind at 1.
  rewrite bzip_same_length; cycle 1.
  { unfold sum_dim1, mmap; simpl.
    rewrite !length_map, length_combine, length_map2, !length_map.
    unfold nrows in Hn. lia. }
  simpl bind. eexists. f_equal. f_equal.
  unfold sum_dim1, mmap. simpl rows.
  rewrite map_combine, !map_map.
  rewrite map2_map_l.
  rewrite map2_map_map, !map_map2.
  rewrite map2_map2_same.
  apply map2_ext. intros f y. simpl fst. simpl snd.
  unfold dist_token. f_equal.
  - f_equal. unfold Lg, dist_logits, scaled_covariance.
    rewrite map_map. rewrite map_map2_maps. apply map2_ext.
    intros mu sg. unfold half, pow2. simpl. lra.
  - unfold in_class_term, scaled_covariance, dot, pow2.
    unfold Rdiv. rewrite Rmult_1_l. reflexivity.
Qed.

(** C1.  Over the reals.  Let [feat'] and [mask'] be the surviving tokens
    and labels, the prototypes be well-shaped (means and covariances of one
    shape, one column per channel, class weights one per class) and every
    surviving label be a class index.  Then the per-token loss of
    [dist_contrastive] (line 341) is, token by token, [dist_token]: the
    class-weighted cross-entropy of the logits
    (f . mean_c + 0.5 * f^2 . cov'_c) / temperature against the label, plus
    0.5 * sum (f^2 * cov'_label) / temperature, where
    cov' = covariance * ratio / temperature is the scaled covariance in both
    terms (line 320 rebinds [covariance]).  No surviving label is the
    ignore index, so the ignore case of the cross-entropy does not arise.
    With reduction 'none', no weight and no regulariser this list is what
    [dist_contrastive] returns. *)
Theorem dist_contrastive_token_loss {PF : Platform}
    (feat : pyarg (tensor R)) (ft : tensor R) (mask : itensor)
    (mean covariance : pyarg (matrix R)) (mn cv : matrix R)
    (ratio : R) (index : Z) (contrast_temp : R) (use_avg_pool : bool)
    (scale_min_ratio : R) (num_classes : nat)
    (class_weight : option (list R)) (ignore_index : Z)
    (feat' : matrix R) (mask' : list Z)
    (Hwfm : wf_itensor mask)
    (Hprep : contrast_preparations ft mask use_avg_pool scale_min_ratio
               num_classes ignore_index = Ok (feat', mask'))
    (Hmn : wf_matrix mn) (Hcv : wf_matrix cv)
    (Hc1 : ncols feat' = ncols mn) (Hc2 : ncols feat' = ncols cv)
    (Hr : nrows mn = nrows cv)
    (Hcw : match class_weight with
           | Some w => length w = nrows mn
           | None => True
           end)
    (Hlab : Forall (fun y => (0 <= y < Z.of_nat (nrows mn))%Z) mask') :
  exists g : bool,
    dist_token_loss feat' mask' mn cv ratio contrast_temp class_weight
      ignore_index
    = Ok (vector_tensor
            (map2 (dist_token (rows mn) (rows cv) ratio contrast_temp
                     class_weight)
                  (rows feat') mask') g)
    /\
    (picked_list index feat ft -> picked index mean mn ->
     picked index covariance cv ->
     requires_grad ft = true -> mgrad mn = false -> mgrad cv = false ->
     nrows feat' <> 0 ->
     dist_contrastive feat mask mean covariance ratio index contrast_temp
       use_avg_pool scale_min_ratio num_classes None class_weight "none"
       None 0%R ignore_index
     = Ok (vector_tensor
             (map2 (dist_token (rows mn) (rows cv) ratio contrast_temp
                      class_weight)
                   (rows feat') mask') g)).
Proof.
  destruct (contrast_preparations_inv ft mask use_avg_pool scale_min_ratio
              num_classes ignore_index feat' mask' Hwfm Hprep)
    as (_ & Hg & Hwf & Hn & Hig).
  assert (Hlab' : Forall (fun y => y <> ignore_index /\
                                   (0 <= y < Z.of_nat (nrows mn))%Z) mask').
  { rewrite Forall_forall in *. intros y Hy. split; auto. }
  destruct (dist_token_loss_closed_form feat' mask' mn cv ratio contrast_temp
              class_weight ignore_index Hwf Hn Hmn Hcv Hc1 Hc2 Hr Hcw Hlab')
    as [g Hloss].
  exists g. split; [exact Hloss|].
  intros Hf Hm Hc Hgrad Hmg Hcg Hsurv.
  unfold dist_contrastive.
  rewrite (select_feat_mean_cov index feat mean covariance ft mn cv Hf Hm Hc).
  simpl. rewrite Hprep. simpl. rewrite Hmg, Hcg, Hg, Hgrad. simpl.
  destruct (nrows feat' =? 0) eqn:E; [apply Nat.eqb_eq in E; contradiction|].
  rewrite Hloss. simpl.
  unfold add_regulariser. simpl.
  destruct (Rlt_dec 0 0) as [Hl|_]; [lra | reflexivity].
Qed.

Lemma dist_contrastive_token_loss_witness :
  let ft := @mkT R [1; 1; 1; 2] [1; 2]%R true in
  let mask := mkI [1; 1; 1; 2] [255; 1]%Z in
  let mn := @mkM R 1 [[1]; [2]]%R false in
  let cv := @mkM R 1 [[3]; [4]]%R false in
  exists g : bool,
    dist_contrastive (PyOne ft) mask (PyOne mn) (PyOne cv) 1%R (-1) 100%R
      true 1%R 2 None None "none" None 0%R 255%Z
    = Ok (vector_tensor
            [dist_token (rows mn) (rows cv) 1%R 100%R None [2%R] 1%Z] g).
Proof.
  cbv zeta.
  assert (Hmn : wf_matrix (@mkM R 1 [[1]; [2]]%R false))
    by (repeat constructor).
  assert (Hcv : wf_matrix (@mkM R 1 [[3]; [4]]%R false))
    by (repeat constructor).
  assert (Hlab : Forall (fun y => (0 <= y < 2)%Z) [1%Z])
    by (repeat constructor; lia).
  destruct (dist_contrastive_token_loss
    (PyOne (@mkT R [1; 1; 1; 2] [1; 2]%R true))
    (@mkT R [1; 1; 1; 2] [1; 2]%R true)
    (mkI [1; 1; 1; 2] [255; 1]%Z)
    (PyOne (@mkM R 1 [[1]; [2]]%R false))
    (PyOne (@mkM R 1 [[3]; [4]]%R false))
    (@mkM R 1 [[1]; [2]]%R false) (@mkM R 1 [[3]; [4]]%R false)
    1%R (-1) 100%R true 1%R 2 None 255%Z
    (@mkM R 1 [[2]]%R true) [1%Z]
    eq_refl eq_refl Hmn Hcv eq_refl eq_refl eq_refl I Hlab)
    as [g [_ H]].
  exists g. apply H; try reflexivity;
    try (left; split; reflexivity).
  simpl. discriminate.
Defined.

(** ** Bank-contrastive loss *)

Section BankLoop.
Context {F : Type} {SF : Scalar F} {TF : Transcendental F} {PF : Platform}.

Lemma cat0_ok (l : list (matrix F)) (c : nat) :
  l <> [] -> Forall (fun m => ncols m = c) l ->
  cat0 l = Ok (mkM c (flat_map rows l) (existsb mgrad l)).
Proof.
  intros Hne Hc. destruct l as [|m l]; [contradiction|].
  unfold cat0. inversion Hc as [|? ? Hm Hl]; subst.
  assert (E : forallb (fun x => ncols x =? ncols m) l = true).
  { apply forallb_forall. intros x Hx. rewrite Forall_forall in Hl.
    rewrite (Hl x Hx). apply Nat.eqb_refl. }
  rewrite E. reflexivity.
Qed.

Lemma bsize_one_r (n : nat) : bsize n 1 = Some n.
Proof.
  unfold bsize. destruct (n =? 1) eqn:E; [reflexivity|].
  simpl. reflexivity.
Qed.

Lemma bzip_one_r {A} (f : A -> A -> A) (u : list A) (y : A) :
  bzip f u [y] = Some (map (fun x => f x y) u).
Proof.
  unfold bzip. destruct u as [|a [|b u]]; reflexivity.
Qed.

Lemma tabulate_rows {A B} (G : A -> B) (r : nat -> B) (l : list A) :
  (forall i d, i < length l -> r i = G (nth i l d)) ->
  tabulate (length l) r = map G l.
Proof.
  intros H. destruct l as [|a l]; [reflexivity|].
  unfold tabulate.
  rewrite <- (map_nth_seq (a :: l) a) at 2. rewrite map_map.
  apply map_ext_in. intros i Hi. apply in_seq in Hi.
  apply H. lia.
Qed.

Lemma flat_map_singleton {A B} (g : A -> B) (l : list A) :
  flat_map (fun x => [g x]) l = map g l.
Proof. induction l as [|a l IH]; simpl; [|rewrite IH]; reflexivity. Qed.

Variables (bank : pyarg (list (matrix F))) (stored : nat -> list (matrix F)).
Variables (num_classes channels : nat) (temperature : F).
Hypothesis Hbank : bank_holds bank stored num_classes channels.

Lemma stored_rows_wf (idx : nat) :
  idx < num_classes ->
  Forall (fun r => length r = channels) (stored_rows stored idx).
Proof.
  intros Hi. destruct (Hbank idx Hi) as (_ & _ & Hs & _).
  unfold stored_rows. apply Forall_forall. intros r Hr.
  apply in_flat_map in Hr as (m & Hm & Hr).
  rewrite Forall_forall in Hs. destruct (Hs m Hm) as [Hc Hw].
  unfold wf_matrix in Hw. rewrite Forall_forall in Hw.
  rewrite <- Hc. apply Hw. exact Hr.
Qed.

Lemma bank_step_similarity (fc : matrix F) (cls idx : nat)
    (st : option (matrix F) * list (matrix F)) :
  ncols fc = channels -> idx < num_classes ->
  bank_step bank fc temperature cls st idx
  = Ok (if idx =? cls
        then (Some (token_similarity_matrix stored temperature fc idx),
              snd st)
        else (fst st,
              snd st ++ [mean_dim1_keep
                           (token_similarity_matrix stored temperature fc
                              idx)])).
Proof.
  intros Hc Hi. unfold bank_step.
  destruct (Hbank idx Hi) as (Hget & Hne & Hs & _).
  rewrite Hget. cbn [bind unwrap].
  rewrite (cat0_ok (stored idx) channels Hne)
    by (eapply Forall_impl; [|exact Hs]; simpl; tauto).
  cbn [bind].
  rewrite mm_permute10; [| exact (stored_rows_wf idx Hi) | exact Hc].
  cbn [bind].
  assert (E : mmap (fun v : F => v /! temperature)
                {| ncols := nrows (mkM channels (flat_map rows (stored idx))
                                       (existsb mgrad (stored idx)));
                   rows := map (fun r => map (dot r)
                                 (rows (mkM channels
                                          (flat_map rows (stored idx))
                                          (existsb mgrad (stored idx)))))
                               (rows fc);
                   mgrad := mgrad fc
                            || mgrad (mkM channels
                                        (flat_map rows (stored idx))
                                        (existsb mgrad (stored idx))) |}
              = token_similarity_matrix stored temperature fc idx).
  { unfold token_similarity_matrix, mmap, nrows, stored_rows. simpl. f_equal.
    rewrite map_map. apply map_ext. intros f. rewrite map_map. reflexivity. }
  rewrite E. destruct (idx =? cls); reflexivity.
Qed.

Lemma bank_inner_loop_similarity (fc : matrix F) (cls : nat) :
  ncols fc = channels ->
  forall (l : list nat) (st : option (matrix F) * list (matrix F)),
    Forall (fun idx => idx < num_classes) l ->
    foldM (bank_step bank fc temperature cls) st l
    = Ok (if existsb (fun idx => idx =? cls) l
          then Some (token_similarity_matrix stored temperature fc cls)
          else fst st,
          snd st ++ map (fun idx =>
                           mean_dim1_keep
                             (token_similarity_matrix stored temperature fc
                                idx))
                        (filter (fun idx => negb (idx =? cls)) l)).
Proof.
  intros Hc. induction l as [|idx l IH]; intros st Hl; simpl.
  - rewrite app_nil_r. destruct st; reflexivity.
  - apply Forall_cons_iff in Hl as [Hi Hl'].
    rewrite (bank_step_similarity fc cls idx st Hc Hi). cbn [bind].
    rewrite IH by exact Hl'.
    destruct (idx =? cls) eqn:E; simpl.
    + apply Nat.eqb_eq in E. rewrite E.
      destruct (existsb (fun idx => idx =? cls) l); reflexivity.
    + rewrite <- app_assoc. reflexivity.
Qed.

Lemma mzip_with_column {A} (f : F -> F -> F) (c : nat) (a : A -> list F)
    (b : A -> F) (l : list A) (g1 g2 : bool) :
  mzip f (mkM c (map a l) g1) (mkM 1 (map (fun x => [b x]) l) g2)
  = Ok (mkM c (map (fun x => map (fun v => f v (b x)) (a x)) l) (g1 || g2)).
Proof.
  unfold mzip, nrows. cbn [rows ncols mgrad].
  rewrite !length_map, bsize_same, bsize_one_r.
  rewrite bzip_same_length by (rewrite !length_map; reflexivity).
  rewrite map2_same. f_equal. f_equal.
  apply map_ext. intros x. rewrite bzip_one_r. reflexivity.
Qed.

Lemma cat1_of_columns {A} (h : nat -> A -> F) (l : list A) (g : nat -> bool)
    (idxs : list nat) :
  idxs <> [] ->
  exists c gr,
    cat1 (map (fun idx => mkM 1 (map (fun x => [h idx x]) l) (g idx)) idxs)
    = Ok (mkM c (map (fun x => map (fun idx => h idx x) idxs) l) gr).
Proof.
  intros Hne. destruct idxs as [|i0 idxs]; [contradiction|].
  unfold cat1. cbn [map].
  assert (E : forallb
            (fun x : matrix F =>
               nrows x =? nrows (mkM 1 (map (fun x0 => [h i0 x0]) l) (g i0)))
            (map (fun idx => mkM 1 (map (fun x0 => [h idx x0]) l) (g idx))
                 idxs) = true).
  { apply forallb_forall. intros m Hm. apply in_map_iff in Hm as (idx & <- & _).
    unfold nrows; simpl. rewrite !length_map. apply Nat.eqb_refl. }
  rewrite E. eexists. eexists. f_equal. f_equal.
  unfold nrows. cbn [rows]. rewrite length_map.
  apply tabulate_rows. intros i d Hi.
  change (mkM 1 (map (fun x0 => [h i0 x0]) l) (g i0)
          :: map (fun idx => mkM 1 (map (fun x0 => [h idx x0]) l) (g idx))
                 idxs)
    with (map (fun idx => mkM 1 (map (fun x0 => [h idx x0]) l) (g idx))
              (i0 :: idxs)).
  rewrite flat_map_concat_map, map_map, <- flat_map_concat_map.
  cbn [rows].
  transitivity (flat_map (fun idx => [h idx (nth i l d)]) (i0 :: idxs)).
  - apply flat_map_ext. intros idx.
    rewrite (nth_map_in _ l i [] d) by exact Hi. reflexivity.
  - exact (flat_map_singleton (fun idx => h idx (nth i l d)) (i0 :: idxs)).
Qed.

Lemma other_classes_nonempty (cls : nat) :
  2 <= num_classes -> other_classes num_classes cls <> [].
Proof.
  intros HC. unfold other_classes.
  assert (Hin : In (if cls =? 0 then 1 else 0)
                   (filter (fun idx => negb (idx =? cls)) (seq 0 num_classes))).
  { apply filter_In. split.
    - apply in_seq. destruct (cls =? 0); lia.
    - destruct (cls =? 0) eqn:E.
      + apply Nat.eqb_eq in E. subst cls. reflexivity.
      + apply Nat.eqb_neq in E. apply negb_true_iff. apply Nat.eqb_neq. lia. }
  intros E. rewrite E in Hin. exact Hin.
Qed.

Lemma existsb_seq (cls : nat) :
  cls < num_classes ->
  existsb (fun idx => idx =? cls) (seq 0 num_classes) = true.
Proof.
  intros H. apply existsb_exists. exists cls. split.
  - apply in_seq. lia.
  - apply Nat.eqb_refl.
Qed.

(** The outer loop body (lines 394-410). *)
Lemma bank_class_loss_tokens (feat : matrix F) (mask : list Z) (cls : nat) :
  ncols feat = channels -> 2 <= num_classes -> cls < num_classes ->
  bank_class_loss bank feat mask temperature num_classes cls
  = Ok (map (token_loss (stored_rows stored) temperature num_classes cls)
            (tokens_of_class (rows feat) mask cls)).
Proof.
  intros Hc HC Hcls. unfold bank_class_loss.
  set (fc := mselect (map (fun l => (l =? Z.of_nat cls)%Z) mask) feat).
  assert (Hfc : ncols fc = channels) by exact Hc.
  rewrite (bank_inner_loop_similarity fc cls Hfc (seq 0 num_classes)
             (None, []))
    by (apply Forall_forall; intros i Hi; apply in_seq in Hi; lia).
  rewrite (existsb_seq cls Hcls). cbn [bind fst snd app].
  fold (other_classes num_classes cls).
  assert (Eneg : forall idx,
            mean_dim1_keep (token_similarity_matrix stored temperature fc idx)
            = mkM 1 (map (fun f => [token_negative_score (stored_rows stored)
                                      temperature f idx]) (rows fc))
                  (mgrad (token_similarity_matrix stored temperature fc
                            idx))).
  { intros idx. unfold mean_dim1_keep, token_similarity_matrix,
      token_negative_score.
    cbn [rows ncols mgrad]. f_equal. rewrite map_map.
    apply map_ext. intros f. reflexivity. }
  rewrite (map_ext _ _ Eneg).
  destruct (cat1_of_columns
              (fun idx f => token_negative_score (stored_rows stored)
                              temperature f idx)
              (rows fc)
              (fun idx => mgrad (token_similarity_matrix stored temperature
                                   fc idx))
              (other_classes num_classes cls)
              (other_classes_nonempty cls HC)) as (c & gr & Ecat).
  rewrite Ecat. cbn [bind].
  unfold sum_dim1_keep, mmap. cbn [rows ncols mgrad].
  unfold token_similarity_matrix. cbn [rows ncols mgrad].
  rewrite !map_map.
  rewrite mzip_with_column. cbn [bind].
  rewrite mzip_maps by (intros f _; rewrite !length_map; reflexivity).
  cbn [bind rows ncols mgrad]. f_equal.
  unfold mean_dim1. cbn [rows ncols]. rewrite !map_map.
  unfold tokens_of_class. apply map_ext. intros f.
  unfold token_loss, token_sum_exp_negatives.
  rewrite !map_map, map2_same, map_map. reflexivity.
Qed.

(** The outer loop and the concatenation (lines 391-412). *)
Lemma bank_losses_tokens {B} (feat : matrix F) (mask : list Z)
    (k : list F -> result B) :
  ncols feat = channels -> 2 <= num_classes ->
  (loss <- mapM (bank_class_loss bank feat mask temperature num_classes)
             (seq 0 num_classes) ;;
   loss <- cat_vectors loss ;;
   k loss)
  = k (class_ordered_loss (stored_rows stored) temperature num_classes
         (rows feat) mask).
Proof.
  intros Hc HC.
  rewrite (mapM_ok _ (fun cls =>
             map (token_loss (stored_rows stored) temperature num_classes cls)
                 (tokens_of_class (rows feat) mask cls))).
  - cbn [bind]. unfold cat_vectors, class_ordered_loss.
    rewrite flat_map_concat_map.
    destruct num_classes as [|n]; [lia|]. reflexivity.
  - intros cls Hcls. apply in_seq in Hcls.
    apply bank_class_loss_tokens; auto. lia.
Qed.

End BankLoop.

(** Over the reals the loss of a token is the closed form [bank_token]. *)
Section BankFacts.
Context {PF : Platform}.
Variables (bank : pyarg (list (matrix R))) (stored : nat -> list (matrix R)).
Variables (num_classes channels : nat) (temperature : R).
Hypothesis Hbank : bank_holds bank stored num_classes channels.

Local Abbreviation exemplars_of := (stored_rows stored).

Lemma ssum_map_neg {A} (g : A -> R) (l : list A) :
  ssum (map (fun x => - g x)%R l) = (- ssum (map g l))%R.
Proof.
  induction l as [|a l IH]; [simpl; lra|].
  change (ssum (map (fun x => - g x) (a :: l))%R)
    with (- g a + ssum (map (fun x => - g x) l))%R.
  change (ssum (map g (a :: l))) with (g a + ssum (map g l))%R.
  rewrite IH. lra.
Qed.

Lemma token_negative_score_real (ex : nat -> list (list R)) (f : list R)
    (idx : nat) :
  token_negative_score ex temperature f idx
  = negative_score ex temperature f idx.
Proof.
  unfold token_negative_score, negative_score, of_nat.
  cbn [of_Z R_Scalar]. rewrite <- INR_IZR_INZ. reflexivity.
Qed.

Lemma token_loss_real (ex : nat -> list (list R)) (cls : nat)
    (f : list R) :
  token_loss ex temperature num_classes cls f
  = bank_token ex temperature num_classes cls f.
Proof.
  unfold token_loss, bank_token, token_sum_exp_negatives, sum_exp_negatives.
  rewrite ssum_map_neg.
  rewrite (map_ext _ _ (fun idx => f_equal exp
                          (token_negative_score_real ex f idx))).
  unfold of_nat. cbn [of_Z R_Scalar sneg sdiv slog sexp sadd R_Transcendental].
  rewrite <- INR_IZR_INZ.
  change (token_similarity temperature) with (similarity temperature).
  unfold Rdiv at 1 3. ring.
Qed.

(** The outer loop body (lines 394-410). *)
Lemma bank_class_loss_closed_form (feat : matrix R) (mask : list Z)
    (cls : nat) :
  ncols feat = channels -> 2 <= num_classes -> cls < num_classes ->
  bank_class_loss bank feat mask temperature num_classes cls
  = Ok (map (bank_token exemplars_of temperature num_classes cls)
            (class_tokens (rows feat) mask cls)).
Proof.
  intros Hc HC Hcls.
  rewrite (bank_class_loss_tokens bank stored num_classes channels
             temperature Hbank feat mask cls Hc HC Hcls).
  f_equal. apply map_ext. intros f. apply token_loss_real.
Qed.

(** The outer loop and the concatenation (lines 391-412). *)
Lemma bank_losses_closed_form {B} (feat : matrix R) (mask : list Z)
    (k : list R -> result B) :
  ncols feat = channels -> 2 <= num_classes ->
  (loss <- mapM (bank_class_loss bank feat mask temperature num_classes)
             (seq 0 num_classes) ;;
   loss <- cat_vectors loss ;;
   k loss)
  = k (bank_loss exemplars_of temperature num_classes (rows feat) mask).
Proof.
  intros Hc HC.
  rewrite (mapM_ok _ (fun cls =>
             map (bank_token exemplars_of temperature num_classes cls)
                 (class_tokens (rows feat) mask cls))).
  - cbn [bind]. unfold cat_vectors, bank_loss.
    rewrite flat_map_concat_map.
    destruct num_classes as [|n]; [lia|]. reflexivity.
  - intros cls Hcls. apply in_seq in Hcls.
    apply bank_class_loss_closed_form; auto. lia.
Qed.

End BankFacts.

(** ** Class groups *)

Lemma class_tokens_filter (feat : list (list R)) (mask : list Z) (cls : nat) :
  length feat = length mask ->
  class_tokens feat mask cls
  = map fst (filter (fun p => (snd p =? Z.of_nat cls)%Z) (combine feat mask)).
Proof.
  intros H. unfold class_tokens.
  exact (proj1 (select_lockstep (fun l => (l =? Z.of_nat cls)%Z) feat mask H)).
Qed.

Lemma in_classes_0 (y : Z) : in_classes 0 y = false.
Proof.
  unfold in_classes. destruct (0 <=? y)%Z eqn:E; [|reflexivity].
  apply Z.leb_le in E. simpl. apply Z.ltb_ge. exact E.
Qed.

Lemma in_classes_S (C : nat) (y : Z) :
  in_classes (S C) y = in_classes C y || (y =? Z.of_nat C)%Z.
Proof.
  unfold in_classes.
  destruct (0 <=? y)%Z eqn:E0; destruct (y <? Z.of_nat C)%Z eqn:E1;
    destruct (y =? Z.of_nat C)%Z eqn:E2;
    destruct (y <? Z.of_nat (S C))%Z eqn:E3; try reflexivity; exfalso;
    try apply Z.leb_le in E0; try apply Z.leb_gt in E0;
    try apply Z.ltb_lt in E1; try apply Z.ltb_ge in E1;
    try apply Z.eqb_eq in E2; try apply Z.eqb_neq in E2;
    try apply Z.ltb_lt in E3; try apply Z.ltb_ge in E3; lia.
Qed.

Lemma in_classes_lt (C : nat) (y : Z) :
  in_classes C y = true -> (y =? Z.of_nat C)%Z = false.
Proof.
  unfold in_classes. intros H. apply andb_prop in H as [_ H].
  apply Z.ltb_lt in H. apply Z.eqb_neq. lia.
Qed.

Lemma filter_or_length {A} (p q : A -> bool) (l : list A) :
  (forall x, p x = true -> q x = false) ->
  length (filter (fun x => p x || q x) l)
  = length (filter p l) + length (filter q l).
Proof.
  intros H. induction l as [|x l IH]; simpl; [reflexivity|].
  destruct (p x) eqn:Ep; simpl.
  - rewrite (H x Ep). simpl. rewrite IH. reflexivity.
  - destruct (q x); simpl; rewrite IH; lia.
Qed.

Lemma length_class_groups {A} (C : nat) (toks : list (A * Z)) :
  length (flat_map (fun cls =>
            filter (fun p => (snd p =? Z.of_nat cls)%Z) toks) (seq 0 C))
  = length (filter (fun p => in_classes C (snd p)) toks).
Proof.
  induction C as [|C IH].
  - simpl. symmetry.
    rewrite (filter_ext _ (fun _ => false))
      by (intros p; apply in_classes_0).
    induction toks as [|t toks IHt]; simpl; auto.
  - rewrite seq_S, flat_map_app, length_app, IH. simpl. rewrite app_nil_r.
    rewrite (filter_ext (fun p => in_classes (S C) (snd p))
               (fun p => in_classes C (snd p) || (snd p =? Z.of_nat C)%Z))
      by (intros p; apply in_classes_S).
    rewrite filter_or_length; [reflexivity|].
    intros p. apply in_classes_lt.
Qed.

(** The loss has one entry per token whose label is a class index. *)
Lemma length_bank_loss (ex : nat -> list (list R)) (temp : R) (C : nat)
    (feat : list (list R)) (mask : list Z) :
  length feat = length mask ->
  length (bank_loss ex temp C feat mask)
  = length (filter (in_classes C) mask).
Proof.
  intros H. unfold bank_loss.
  transitivity (length (flat_map (fun cls =>
                  filter (fun p => (snd p =? Z.of_nat cls)%Z)
                         (combine feat mask)) (seq 0 C))).
  - rewrite !flat_map_concat_map, !length_concat, !map_map. f_equal.
    apply map_ext. intros cls.
    rewrite length_map, class_tokens_filter by exact H.
    rewrite length_map. reflexivity.
  - rewrite length_class_groups.
    rewrite <- (snd_combine feat mask H) at 2.
    generalize (combine feat mask). intros l.
    induction l as [|[a y] l IH]; simpl; [reflexivity|].
    destruct (in_classes C y); simpl; rewrite IH; reflexivity.
Qed.

Lemma filter_all {A} (p : A -> bool) (l : list A) :
  Forall (fun x => p x = true) l -> filter p l = l.
Proof.
  induction 1 as [|x l Hx Hl IH]; simpl; [reflexivity|].
  rewrite Hx, IH. reflexivity.
Qed.

Lemma filter_length_lt {A} (p : A -> bool) (l : list A) :
  Exists (fun x => p x = false) l -> length (filter p l) < length l.
Proof.
  induction 1 as [x l Hx | x l Hl IH]; simpl.
  - rewrite Hx. pose proof (filter_length_le p l). lia.
  - destruct (p x); simpl; lia.
Qed.

(** ** Sums of non-negative numbers *)

Section BankSign.
Open Scope R_scope.

Lemma ssum_nonneg (l : list R) : Forall (fun x => 0 <= x) l -> 0 <= ssum l.
Proof.
  induction 1 as [|x l Hx Hl IH]; simpl; [lra|].
  change (0 <= x + ssum l). lra.
Qed.

End BankSign.

(** ** The loss returned by [bank_contrastive] *)

Lemma sltb_zero_zero : @sltb R _ szero 0%R = false.
Proof. simpl. destruct (Rlt_dec 0 0) as [H|_]; [lra | reflexivity]. Qed.

Lemma combine_fst_snd {A B} (l : list (A * B)) :
  combine (map fst l) (map snd l) = l.
Proof.
  induction l as [|[a b] l IH]; simpl; [|rewrite IH]; reflexivity.
Qed.

Lemma filter_class_of_kept {A} (C cls : nat) (l : list (A * Z)) :
  cls < C ->
  filter (fun p => (snd p =? Z.of_nat cls)%Z)
         (filter (fun p => in_classes C (snd p)) l)
  = filter (fun p => (snd p =? Z.of_nat cls)%Z) l.
Proof.
  intros Hc. induction l as [|[a y] l IH]; simpl; [reflexivity|].
  destruct (in_classes C y) eqn:E; simpl; rewrite IH; [reflexivity|].
  destruct (y =? Z.of_nat cls)%Z eqn:E2; [|reflexivity].
  apply Z.eqb_eq in E2. subst y. unfold in_classes in E.
  apply andb_false_iff in E as [E|E];
    [apply Z.leb_gt in E | apply Z.ltb_ge in E]; lia.
Qed.

(** Tokens whose label is no class index do not contribute. *)
Lemma bank_loss_kept (ex : nat -> list (list R)) (temp : R) (C : nat)
    (feat : list (list R)) (mask : list Z) :
  length feat = length mask ->
  bank_loss ex temp C feat mask
  = bank_loss ex temp C
      (map fst (filter (fun p => in_classes C (snd p)) (combine feat mask)))
      (map snd (filter (fun p => in_classes C (snd p)) (combine feat mask))).
Proof.
  intros H. unfold bank_loss.
  rewrite !flat_map_concat_map. f_equal.
  apply map_ext_in. intros cls Hcls. apply in_seq in Hcls. f_equal.
  rewrite !class_tokens_filter by (rewrite ?length_map; auto).
  rewrite combine_fst_snd, filter_class_of_kept by lia. reflexivity.
Qed.

Lemma bank_contrastive_unreduced {PF : Platform}
    (feat : pyarg (tensor R)) (ft : tensor R) (mask : itensor)
    (bank : pyarg (pyarg (list (matrix R)))) (bk : pyarg (list (matrix R)))
    (stored : nat -> list (matrix R)) (mean : pyarg (matrix R))
    (index : Z) (contrast_temp : R) (use_avg_pool : bool)
    (scale_min_ratio : R) (num_classes : nat) (ignore_index : Z)
    (feat' : matrix R) (mask' : list Z) :
  picked_list index feat ft -> picked_bank index bank bk ->
  contrast_preparations ft mask use_avg_pool scale_min_ratio num_classes
    ignore_index = Ok (feat', mask') ->
  bank_holds bk stored num_classes (ncols feat') ->
  requires_grad ft = true -> nrows feat' <> 0 -> 2 <= num_classes ->
  bank_contrastive feat mask bank mean index contrast_temp use_avg_pool
    scale_min_ratio num_classes None "none" None 0%R ignore_index
  = Ok (vector_tensor
          (bank_loss (stored_rows stored) contrast_temp num_classes
             (rows feat') mask') true).
Proof.
  intros Hf Hb Hprep Hholds Hgrad Hsurv HC.
  unfold bank_contrastive.
  pose proof (select_feat_bank index feat bank mean 0%R ft bk Hf Hb
                sltb_zero_zero) as E.
  rewrite sltb_zero_zero in E. rewrite sltb_zero_zero, E.
  cbn [bind fst snd unwrap]. rewrite Hprep.
  cbn [bind fst snd is_none negb assert].
  rewrite (contrast_preparations_grad _ _ _ _ _ _ _ _ Hprep), Hgrad.
  cbn [bind assert].
  destruct (nrows feat' =? 0) eqn:E0; [apply Nat.eqb_eq in E0; contradiction|].
  rewrite (bank_losses_closed_form bk stored num_classes (ncols feat')
             contrast_temp Hholds feat' mask' _ eq_refl HC).
  cbn [weight_reduce_loss bind reduce_loss]. simpl get_enum. cbn [bind].
  simpl Nat.eqb. cbv iota.
  unfold add_regulariser. rewrite sltb_zero_zero. reflexivity.
Qed.

(** ** Arithmetic with a bounded range *)

Section RangeFacts.
Open Scope R_scope.

Lemma float_max_lower : 2 ^ 127 <= float_max.
Proof.
  unfold float_max.
  assert (H : 0 < 2 ^ 127) by (apply pow_lt; lra).
  assert (H2 : / 2 ^ 23 <= 1).
  { rewrite <- Rinv_1. apply Rinv_le_contravar; [lra|].
    apply pow_R1_Rle. lra. }
  nra.
Qed.

Lemma float_max_upper : float_max < 2 ^ 128.
Proof.
  unfold float_max. change (2 ^ 128) with (2 * 2 ^ 127).
  assert (H : 0 < 2 ^ 127) by (apply pow_lt; lra).
  assert (H2 : 0 < / 2 ^ 23) by (apply Rinv_0_lt_compat, pow_lt; lra).
  nra.
Qed.

Lemma float_max_large : 1000000000 <= float_max.
Proof.
  apply Rle_trans with (2 ^ 127); [|apply float_max_lower].
  replace 2 with (IZR 2) by reflexivity. rewrite pow_IZR.
  apply IZR_le. vm_compute. discriminate.
Qed.

Lemma float_tiny_small : 0 < float_tiny < 1.
Proof.
  unfold float_tiny.
  assert (H : 1 < 2 ^ 150) by (apply Rlt_pow_R1; [lra | lia]).
  split; [apply Rinv_0_lt_compat; lra|].
  rewrite <- Rinv_1. apply Rinv_lt_contravar; lra.
Qed.

Lemma to_range_in (x : R) :
  1 <= x <= float_max -> to_range x = Fin x.
Proof.
  intros [H1 H2]. unfold to_range. pose proof float_tiny_small.
  destruct (Rlt_dec float_max x) as [H'|_]; [lra|].
  destruct (Rlt_dec x (- float_max)) as [H'|_]; [lra|].
  destruct (Rlt_dec float_tiny x) as [_|H']; [reflexivity | lra].
Qed.

Lemma to_range_over (x : R) : float_max < x -> to_range x = PInf.
Proof.
  intros H. unfold to_range.
  destruct (Rlt_dec float_max x) as [_|H']; [reflexivity | contradiction].
Qed.

Lemma exp_nat (n : nat) : exp (INR n) = exp 1 ^ n.
Proof.
  induction n as [|n IH]; [simpl; apply exp_0|].
  rewrite S_INR, exp_plus, IH. simpl. ring.
Qed.

(** The exponential of 128 or more overflows. *)
Lemma exp_overflows (x : R) : 128 <= x -> to_range (exp x) = PInf.
Proof.
  intros H. apply to_range_over.
  apply Rlt_le_trans with (2 ^ 128); [apply float_max_upper|].
  apply Rle_trans with (exp 128).
  - replace 128 with (INR 128) by (simpl; lra).
    rewrite exp_nat. apply pow_incr. split; [lra|].
    pose proof (exp_ineq1_le 1). lra.
  - destruct H as [H|H]; [left; apply exp_increasing; exact H|].
    rewrite H. apply Rle_refl.
Qed.

End RangeFacts.

Section RangeSteps.
Open Scope R_scope.

Lemma xmul_fin (x y : R) :
  1 <= x * y <= float_max -> xmul (Fin x) (Fin y) = Fin (x * y).
Proof. intros H. unfold xmul. apply to_range_in. exact H. Qed.

Lemma xadd_fin (x y : R) :
  1 <= x + y <= float_max -> xadd (Fin x) (Fin y) = Fin (x + y).
Proof. intros H. unfold xadd. apply to_range_in. exact H. Qed.

Lemma xdiv_fin (x y : R) :
  y <> 0 -> 1 <= x / y <= float_max ->
  xdiv (Fin x) (Fin y) = Fin (x / y).
Proof.
  intros Hy H. unfold xdiv.
  destruct (Req_dec_T y 0) as [E|_]; [contradiction|].
  apply to_range_in. exact H.
Qed.

Lemma xlog_zero : xlog (Fin 0) = NInf.
Proof.
  unfold xlog. destruct (Rlt_dec 0 0) as [H|_]; [lra|].
  destruct (Req_dec_T 0 0) as [_|H]; [reflexivity | contradiction].
Qed.

Lemma xltb_zero_zero : xltb (Fin 0) (Fin 0) = false.
Proof. unfold xltb. destruct (Rlt_dec 0 0) as [H|_]; [lra | reflexivity]. Qed.

Lemma xdiv_ninf (y : R) : 0 < y -> xdiv NInf (Fin y) = NInf.
Proof.
  intros H. unfold xdiv.
  destruct (Rlt_dec y 0) as [H'|_]; [lra | reflexivity].
Qed.

End RangeSteps.

Ltac in_range :=
  pose proof float_max_large; pose proof exp_le_3;
  pose proof (exp_ineq1_le 1); try split; lra.



(** ** Sign of the bank loss within the floating-point range *)

Section RangeSign.
Open Scope R_scope.

Lemma float_max_pos : 1 <= float_max.
Proof. pose proof float_max_large. lra. Qed.

Lemma to_range_nonneg (x : R) : 0 <= x -> never_negative (to_range x).
Proof.
  intros H. unfold to_range. pose proof float_max_pos.
  destruct (Rlt_dec float_max x); [exact I|].
  destruct (Rlt_dec x (- float_max)); [lra|].
  destruct (Rlt_dec float_tiny x); [exact H|].
  destruct (Rlt_dec x (- float_tiny)); [exact H | simpl; lra].
Qed.

Lemma to_range_nonpos (x : R) : x <= 0 -> never_positive (to_range x).
Proof.
  intros H. unfold to_range. pose proof float_max_pos.
  destruct (Rlt_dec float_max x); [lra|].
  destruct (Rlt_dec x (- float_max)); [exact I|].
  destruct (Rlt_dec float_tiny x); [exact H|].
  destruct (Rlt_dec x (- float_tiny)); [exact H | simpl; lra].
Qed.

Lemma to_range_unit (x : R) : 0 <= x <= 1 -> unit_or_nan (to_range x).
Proof.
  intros H. unfold to_range. pose proof float_max_pos.
  destruct (Rlt_dec float_max x); [lra|].
  destruct (Rlt_dec x (- float_max)); [lra|].
  destruct (Rlt_dec float_tiny x); [exact H|].
  destruct (Rlt_dec x (- float_tiny)); [exact H | simpl; lra].
Qed.

Lemma to_range_not_tiny (x : R) : not_tiny (to_range x).
Proof.
  unfold to_range.
  destruct (Rlt_dec float_max x); [exact I|].
  destruct (Rlt_dec x (- float_max)); [exact I|].
  destruct (Rlt_dec float_tiny x); [simpl; tauto|].
  destruct (Rlt_dec x (- float_tiny)); simpl; tauto.
Qed.

Lemma xexp_never_negative (a : xreal) : never_negative (xexp a).
Proof.
  destruct a as [x| | |]; simpl; try lra; try exact I.
  apply to_range_nonneg. left. apply exp_pos.
Qed.

Lemma xexp_not_tiny (a : xreal) : not_tiny (xexp a).
Proof.
  destruct a as [x| | |]; simpl; try tauto.
  apply to_range_not_tiny.
Qed.

Lemma xadd_never_negative (a b : xreal) :
  never_negative a -> never_negative b -> never_negative (xadd a b).
Proof.
  destruct a as [x| | |], b as [y| | |]; simpl; intros Ha Hb;
    try exact I; try contradiction.
  apply to_range_nonneg. lra.
Qed.

Lemma xadd_never_positive (a b : xreal) :
  never_positive a -> never_positive b -> never_positive (xadd a b).
Proof.
  destruct a as [x| | |], b as [y| | |]; simpl; intros Ha Hb;
    try exact I; try contradiction.
  apply to_range_nonpos. lra.
Qed.

Lemma ssum_never_negative (l : list xreal) :
  Forall never_negative l -> never_negative (ssum l).
Proof.
  induction 1 as [|a l Ha Hl IH]; [simpl; lra|].
  change (never_negative (xadd a (ssum l))).
  apply xadd_never_negative; assumption.
Qed.

Lemma ssum_never_positive (l : list xreal) :
  Forall never_positive l -> never_positive (ssum l).
Proof.
  induction 1 as [|a l Ha Hl IH]; [simpl; lra|].
  change (never_positive (xadd a (ssum l))).
  apply xadd_never_positive; assumption.
Qed.

(** The softmax term [a / (a + s)] (lines 406-408), for an exponential
    [a]. *)
Lemma softmax_term_unit (a s : xreal) :
  never_negative a -> not_tiny a -> never_negative s ->
  unit_or_nan (xdiv a (xadd a s)).
Proof.
  pose proof float_max_pos as HM. pose proof float_tiny_small as Ht.
  destruct a as [x| | |], s as [y| | |]; simpl; intros Ha Hr Hs;
    try exact I; try contradiction; try lra.
  assert (Hq : x + y <> 0 -> 0 <= x / (x + y) <= 1).
  { intros E. assert (Hp : 0 < x + y) by lra. split.
    - apply Rmult_le_pos; [lra|]. left. apply Rinv_0_lt_compat. exact Hp.
    - apply (Rmult_le_reg_r (x + y)); [exact Hp|].
      unfold Rdiv. rewrite Rmult_assoc, Rinv_l by lra. lra. }
  assert (Hz : x = 0 -> unit_or_nan (xdiv (Fin x) (Fin 0))).
  { intros E. simpl.
    destruct (Req_dec_T 0 0) as [_|E0]; [|contradiction].
    unfold signed_inf.
    destruct (Rlt_dec 0 x) as [H|_]; [lra|].
    destruct (Rlt_dec x 0) as [H|_]; [lra | exact I]. }
  assert (Hd : x + y <> 0 -> unit_or_nan (xdiv (Fin x) (Fin (x + y)))).
  { intros E. simpl.
    destruct (Req_dec_T (x + y) 0) as [E0|_]; [contradiction|].
    apply to_range_unit. apply Hq. exact E. }
  unfold to_range.
  destruct (Rlt_dec float_max (x + y)) as [_|_]; [simpl; lra|].
  destruct (Rlt_dec (x + y) (- float_max)) as [H|_]; [lra|].
  destruct (Rlt_dec float_tiny (x + y)) as [H|H]; [apply Hd; lra|].
  destruct (Rlt_dec (x + y) (- float_tiny)) as [H'|_]; [lra|].
  apply Hz. lra.
Qed.

Lemma xlog_never_positive (a : xreal) :
  unit_or_nan a -> never_positive (xlog a).
Proof.
  destruct a as [x| | |]; simpl; intros Ha; try exact I; try contradiction.
  destruct (Rlt_dec x 0) as [_|_]; [exact I|].
  destruct (Req_dec_T x 0) as [_|Hx]; [exact I|].
  apply to_range_nonpos.
  destruct (Req_dec_T x 1) as [E|E]; [rewrite E, ln_1; lra|].
  left. rewrite <- ln_1. apply ln_increasing; lra.
Qed.

Lemma xdiv_never_positive (a d : xreal) :
  never_positive a -> never_negative d -> never_positive (xdiv a d).
Proof.
  destruct a as [x| | |], d as [y| | |]; simpl; intros Ha Hd;
    try exact I; try contradiction; try lra.
  - destruct (Req_dec_T y 0) as [E|E].
    + unfold signed_inf.
      destruct (Rlt_dec 0 x) as [H|_]; [lra|].
      destruct (Rlt_dec x 0) as [_|_]; exact I.
    + apply to_range_nonpos.
      assert (Hy : 0 < y) by lra.
      apply (Rmult_le_reg_r y); [exact Hy|].
      unfold Rdiv. rewrite Rmult_assoc, Rinv_l by lra. lra.
  - destruct (Rlt_dec y 0) as [H|_]; [lra | exact I].
Qed.

Lemma xneg_never_negative (a : xreal) :
  never_positive a -> never_negative (xneg a).
Proof.
  destruct a as [x| | |]; simpl; intros Ha; try exact I; try contradiction.
  lra.
Qed.

Lemma of_nat_never_negative (n : nat) : never_negative (@of_nat xreal _ n).
Proof.
  unfold of_nat. simpl. apply to_range_nonneg.
  apply IZR_le. lia.
Qed.

Lemma token_loss_never_negative (ex : nat -> list (list xreal))
    (temp : xreal) (C cls : nat) (f : list xreal) :
  never_negative (token_loss ex temp C cls f).
Proof.
  unfold token_loss.
  apply xneg_never_negative.
  apply xdiv_never_positive; [|apply of_nat_never_negative].
  apply ssum_never_positive. apply Forall_map. apply Forall_forall.
  intros e _. apply xlog_never_positive.
  apply softmax_term_unit;
    [apply xexp_never_negative | apply xexp_not_tiny |].
  unfold token_sum_exp_negatives.
  apply ssum_never_negative. apply Forall_map. apply Forall_forall.
  intros idx _. apply xexp_never_negative.
Qed.

Lemma class_ordered_loss_never_negative (ex : nat -> list (list xreal))
    (temp : xreal) (C : nat) (feat : list (list xreal)) (mask : list Z) :
  Forall never_negative (class_ordered_loss ex temp C feat mask).
Proof.
  unfold class_ordered_loss. apply Forall_forall. intros x Hx.
  apply in_flat_map in Hx as (cls & _ & Hx).
  apply in_map_iff in Hx as (f & <- & _).
  apply token_loss_never_negative.
Qed.

End RangeSign.

(** The loss has one entry per token whose label is a class index. *)
Lemma length_class_ordered_loss {F : Type} {SF : Scalar F}
    {TF : Transcendental F} (ex : nat -> list (list F)) (temp : F) (C : nat)
    (feat : list (list F)) (mask : list Z) :
  length feat = length mask ->
  length (class_ordered_loss ex temp C feat mask)
  = length (filter (in_classes C) mask).
Proof.
  intros H. unfold class_ordered_loss.
  transitivity (length (flat_map (fun cls =>
                  filter (fun p => (snd p =? Z.of_nat cls)%Z)
                         (combine feat mask)) (seq 0 C))).
  - rewrite !flat_map_concat_map, !length_concat, !map_map. f_equal.
    apply map_ext. intros cls. unfold tokens_of_class.
    rewrite length_map.
    rewrite (proj1 (select_lockstep (fun l => (l =? Z.of_nat cls)%Z)
                      feat mask H)).
    rewrite length_map. reflexivity.
  - rewrite length_class_groups.
    rewrite <- (snd_combine feat mask H) at 2.
    generalize (combine feat mask). intros l.
    induction l as [|[a y] l IH]; simpl; [reflexivity|].
    destruct (in_classes C y); simpl; rewrite IH; reflexivity.
Qed.

(** ** The loss returned by [bank_contrastive], in the arithmetic of the
    tensors *)

Lemma bank_contrastive_tokens {F : Type} {SF : Scalar F}
    {TF : Transcendental F} {PF : Platform}
    (feat : pyarg (tensor F)) (ft : tensor F) (mask : itensor)
    (bank : pyarg (pyarg (list (matrix F)))) (bk : pyarg (list (matrix F)))
    (stored : nat -> list (matrix F)) (mean : pyarg (matrix F))
    (index : Z) (contrast_temp : F) (use_avg_pool : bool)
    (scale_min_ratio : F) (num_classes : nat) (reg_weight : F)
    (ignore_index : Z) (feat' : matrix F) (mask' : list Z) :
  picked_list index feat ft -> picked_bank index bank bk ->
  contrast_preparations ft mask use_avg_pool scale_min_ratio num_classes
    ignore_index = Ok (feat', mask') ->
  bank_holds bk stored num_classes (ncols feat') ->
  requires_grad ft = true -> nrows feat' <> 0 -> 2 <= num_classes ->
  sltb szero reg_weight = false ->
  bank_contrastive feat mask bank mean index contrast_temp use_avg_pool
    scale_min_ratio num_classes None "none" None reg_weight ignore_index
  = Ok (vector_tensor
          (class_ordered_loss (stored_rows stored) contrast_temp num_classes
             (rows feat') mask') true).
Proof.
  intros Hf Hb Hprep Hholds Hgrad Hsurv HC Hreg.
  unfold bank_contrastive.
  pose proof (select_feat_bank index feat bank mean reg_weight ft bk Hf Hb
                Hreg) as E.
  rewrite Hreg in E. rewrite Hreg, E.
  cbn [bind fst snd unwrap]. rewrite Hprep.
  cbn [bind fst snd is_none negb assert].
  rewrite (contrast_preparations_grad _ _ _ _ _ _ _ _ Hprep), Hgrad.
  cbn [bind assert].
  destruct (nrows feat' =? 0) eqn:E0; [apply Nat.eqb_eq in E0; contradiction|].
  rewrite (bank_losses_tokens bk stored num_classes (ncols feat')
             contrast_temp Hholds feat' mask' _ eq_refl HC).
  cbn [weight_reduce_loss bind reduce_loss]. simpl get_enum. cbn [bind].
  simpl Nat.eqb. cbv iota.
  unfold add_regulariser. rewrite Hreg. reflexivity.
Qed.



Lemma overflowing_bank_holds :
  bank_holds (PyList [[@mkM xreal 1 [[Fin 1000]] false];
                      [@mkM xreal 1 [[Fin 1]] false]])
    (fun idx : nat => match idx with
                      | 0 => [@mkM xreal 1 [[Fin 1000]] false]
                      | _ => [@mkM xreal 1 [[Fin 1]] false]
                      end) 2 1.
Proof.
  intros idx Hidx.
  destruct idx as [|[|idx]]; [| |lia];
    (repeat split; try discriminate; repeat constructor).
Defined.


(** The class groups hold exactly the tokens whose label is a class
    index. *)
Lemma length_class_tokens (C : nat) (feat : list (list R)) (mask : list Z) :
  length feat = length mask ->
  length (flat_map (class_tokens feat mask) (seq 0 C))
  = length (filter (fun p => in_classes C (snd p)) (combine feat mask)).
Proof.
  intros H.
  rewrite <- (length_class_groups C (combine feat mask)).
  rewrite !flat_map_concat_map, !length_concat, !map_map. f_equal.
  apply map_ext. intros cls.
  rewrite class_tokens_filter by exact H.
  apply length_map.
Qed.

Lemma class_tokens_kept (C cls : nat) (feat : list (list R))
    (mask : list Z) :
  length feat = length mask -> cls < C ->
  class_tokens feat mask cls
  = class_tokens
      (map fst (filter (fun p => in_classes C (snd p)) (combine feat mask)))
      (map snd (filter (fun p => in_classes C (snd p)) (combine feat mask)))
      cls.
Proof.
  intros H Hcls.
  rewrite !class_tokens_filter by (rewrite ?length_map; auto).
  rewrite combine_fst_snd, filter_class_of_kept by exact Hcls. reflexivity.
Qed.

Lemma length_kept_lt {A} (C : nat) (feat : list A) (mask : list Z) :
  length feat = length mask ->
  Exists (fun y => in_classes C y = false) mask ->
  length (filter (fun p => in_classes C (snd p)) (combine feat mask))
  < length feat.
Proof.
  intros H Hout.
  assert (Hl : length (combine feat mask) = length feat)
    by (rewrite length_combine; lia).
  rewrite <- Hl. apply filter_length_lt.
  rewrite <- (snd_combine feat mask H) in Hout.
  apply Exists_exists in Hout as (y & Hy & Hf).
  apply in_map_iff in Hy as (p & <- & Hp).
  apply Exists_exists. exists p. split; assumption.
Qed.

(** C9.  Over the reals.  If some surviving label is no class index (it is
    not the ignore index either, or it would not have survived), the tokens
    with such labels are in no class group of [bank_contrastive]: every
    class group is that of the remaining tokens [kept], and together the
    groups hold strictly fewer tokens than survived.  On an otherwise
    well-formed call (at least two classes, a bank holding exemplars of the
    right width for every class) nothing is raised: the unreduced loss is
    returned, it is the loss of the remaining tokens alone, and it has
    strictly fewer entries than there are surviving tokens. *)
Theorem bank_contrastive_omits_unknown_labels {PF : Platform}
    (feat : pyarg (tensor R)) (ft : tensor R) (mask : itensor)
    (bank : pyarg (pyarg (list (matrix R)))) (bk : pyarg (list (matrix R)))
    (stored : nat -> list (matrix R)) (mean : pyarg (matrix R))
    (index : Z) (contrast_temp : R) (use_avg_pool : bool)
    (scale_min_ratio : R) (num_classes : nat) (ignore_index : Z)
    (feat' : matrix R) (mask' : list Z)
    (Hwfm : wf_itensor mask)
    (Hprep : contrast_preparations ft mask use_avg_pool scale_min_ratio
               num_classes ignore_index = Ok (feat', mask'))
    (Hout : Exists (fun y => in_classes num_classes y = false) mask') :
  let kept := filter (fun p => in_classes num_classes (snd p))
                (combine (rows feat') mask') in
  Forall (fun y => y <> ignore_index) mask' /\
  (forall cls, cls < num_classes ->
     class_tokens (rows feat') mask' cls
     = class_tokens (map fst kept) (map snd kept) cls) /\
  length (flat_map (class_tokens (rows feat') mask') (seq 0 num_classes))
  = length kept /\
  length kept < nrows feat' /\
  (picked_list index feat ft -> picked_bank index bank bk ->
   bank_holds bk stored num_classes (ncols feat') ->
   requires_grad ft = true -> 2 <= num_classes ->
   exists loss : list R,
     bank_contrastive feat mask bank mean index contrast_temp use_avg_pool
       scale_min_ratio num_classes None "none" None 0%R ignore_index
     = Ok (vector_tensor loss true) /\
     loss = bank_loss (stored_rows stored) contrast_temp num_classes
              (map fst kept) (map snd kept) /\
     length loss = length kept /\
     length loss < nrows feat').
Proof.
  cbv zeta.
  destruct (contrast_preparations_inv ft mask use_avg_pool scale_min_ratio
              num_classes ignore_index feat' mask' Hwfm Hprep)
    as (_ & _ & _ & Hn & Hig).
  assert (Hsurv : nrows feat' <> 0).
  { rewrite Hn. destruct Hout; simpl; discriminate. }
  pose proof (length_kept_lt num_classes (rows feat') mask' Hn Hout) as Hlt.
  pose proof (length_class_tokens num_classes (rows feat') mask' Hn) as Hgr.
  split; [exact Hig|]. split; [|split; [exact Hgr | split; [exact Hlt|]]].
  - intros cls Hcls. apply class_tokens_kept; assumption.
  - intros Hfeat Hbank Hholds Hgrad HC.
    assert (Hlen : length (bank_loss (stored_rows stored) contrast_temp
                             num_classes (rows feat') mask')
                   = length (filter (fun p => in_classes num_classes (snd p))
                               (combine (rows feat') mask'))).
    { rewrite <- Hgr. unfold bank_loss.
      rewrite !flat_map_concat_map, !length_concat, !map_map. f_equal.
      apply map_ext. intros cls. apply length_map. }
    exists (bank_loss (stored_rows stored) contrast_temp num_classes
              (rows feat') mask').
    split; [|split; [|split]].
    + apply (bank_contrastive_unreduced feat ft mask bank bk stored mean
               index contrast_temp use_avg_pool scale_min_ratio num_classes
               ignore_index feat' mask'); assumption.
    + apply bank_loss_kept. exact Hn.
    + exact Hlen.
    + rewrite Hlen. exact Hlt.
Qed.

Lemma two_class_bank_holds :
  bank_holds (PyList [[@mkM R 1 [[1]]%R false]; [@mkM R 1 [[1]]%R false]])
    (fun _ : nat => [@mkM R 1 [[1]]%R false]) 2 1.
Proof.
  intros idx Hidx.
  destruct idx as [|[|idx]]; [| |lia];
    (repeat split; try discriminate; repeat constructor).
Defined.

Lemma bank_contrastive_omits_unknown_labels_witness :
  let ft := @mkT R [1; 1; 1; 2] [1; 2]%R true in
  let mask := mkI [1; 1; 1; 2] [7; 0]%Z in
  let ex := @mkM R 1 [[1]]%R false in
  exists loss : list R,
    bank_contrastive (PyOne ft) mask (PyOne (PyList [[ex]; [ex]])) PyNone
      (-1) 100%R true 1%R 2 None "none" None 0%R 255%Z
    = Ok (vector_tensor loss true) /\
    loss = bank_loss (stored_rows (fun _ : nat => [ex])) 100%R 2
             [[2]]%R [0]%Z /\
    length loss < 2.
Proof.
  cbv zeta.
  assert (Hout : Exists (fun y => in_classes 2 y = false) [7; 0]%Z)
    by (left; reflexivity).
  destruct (bank_contrastive_omits_unknown_labels
    (PyOne (@mkT R [1; 1; 1; 2] [1; 2]%R true))
    (@mkT R [1; 1; 1; 2] [1; 2]%R true)
    (mkI [1; 1; 1; 2] [7; 0]%Z)
    (PyOne (PyList [[@mkM R 1 [[1]]%R false]; [@mkM R 1 [[1]]%R false]]))
    (PyList [[@mkM R 1 [[1]]%R false]; [@mkM R 1 [[1]]%R false]])
    (fun _ : nat => [@mkM R 1 [[1]]%R false]) PyNone (-1) 100%R true 1%R 2
    255%Z (@mkM R 1 [[1]; [2]]%R true) [7; 0]%Z
    eq_refl eq_refl Hout) as (_ & _ & _ & _ & H).
  destruct (H (or_introl (conj eq_refl eq_refl))
              (or_introl (conj eq_refl eq_refl)) two_class_bank_holds
              eq_refl (le_n 2)) as (loss & H1 & H2 & _ & H4).
  exists loss. split; [exact H1|]. split; [exact H2 | exact H4].
Defined.

(** ** Label downscaling *)

(** ** Row-major indices *)

Lemma div_lin (x m y : nat) : y < m -> (x * m + y) / m = x.
Proof.
  intros H. symmetry. apply (Nat.div_unique _ _ _ y); [exact H | lia].
Qed.

Lemma mod_lin (x m y : nat) : y < m -> (x * m + y) mod m = y.
Proof.
  intros H. symmetry. apply (Nat.mod_unique _ _ x); [exact H | lia].
Qed.

Lemma decode3 (n2 n3 a b c : nat) :
  b < n2 -> c < n3 ->
  ((a * n2 + b) * n3 + c) mod n3 = c /\
  (((a * n2 + b) * n3 + c) / n3) mod n2 = b /\
  ((a * n2 + b) * n3 + c) / (n3 * n2) = a.
Proof.
  intros Hb Hc. split; [|split].
  - apply mod_lin. exact Hc.
  - rewrite div_lin by exact Hc. apply mod_lin. exact Hb.
  - rewrite <- Nat.Div0.div_div, div_lin by exact Hc. apply div_lin.
    exact Hb.
Qed.

Lemma decode4 (n2 n3 n4 a b c d : nat) :
  b < n2 -> c < n3 -> d < n4 ->
  (((a * n2 + b) * n3 + c) * n4 + d) mod n4 = d /\
  ((((a * n2 + b) * n3 + c) * n4 + d) / n4) mod n3 = c /\
  ((((a * n2 + b) * n3 + c) * n4 + d) / (n4 * n3)) mod n2 = b /\
  (((a * n2 + b) * n3 + c) * n4 + d) / (n4 * n3 * n2) = a.
Proof.
  intros Hb Hc Hd.
  assert (E1 : (((a * n2 + b) * n3 + c) * n4 + d) / n4
               = (a * n2 + b) * n3 + c) by (apply div_lin; exact Hd).
  assert (E2 : (((a * n2 + b) * n3 + c) * n4 + d) / (n4 * n3)
               = a * n2 + b).
  { rewrite <- Nat.Div0.div_div, E1. apply div_lin. exact Hc. }
  split; [|split; [|split]].
  - apply mod_lin. exact Hd.
  - rewrite E1. apply mod_lin. exact Hc.
  - rewrite E2. apply mod_lin. exact Hb.
  - rewrite <- Nat.Div0.div_div, E2. apply div_lin. exact Hb.
Qed.

Lemma index_bound2 (n1 n2 a b : nat) :
  a < n1 -> b < n2 -> a * n2 + b < n1 * n2.
Proof.
  intros Ha Hb.
  assert ((a + 1) * n2 <= n1 * n2) by (apply Nat.mul_le_mono_r; lia).
  lia.
Qed.

Lemma index_bound3 (n1 n2 n3 a b c : nat) :
  a < n1 -> b < n2 -> c < n3 -> (a * n2 + b) * n3 + c < n1 * n2 * n3.
Proof.
  intros Ha Hb Hc. apply index_bound2; [|exact Hc].
  apply index_bound2; assumption.
Qed.

Lemma index_bound4 (n1 n2 n3 n4 a b c d : nat) :
  a < n1 -> b < n2 -> c < n3 -> d < n4 ->
  ((a * n2 + b) * n3 + c) * n4 + d < n1 * n2 * n3 * n4.
Proof.
  intros Ha Hb Hc Hd. apply index_bound2; [|exact Hd].
  apply index_bound3; assumption.
Qed.

(** Every index below n1 * n2 * n3 is the index of one (a, b, c). *)
Lemma encode3 (n1 n2 n3 p : nat) :
  p < n1 * n2 * n3 ->
  p / (n2 * n3) < n1 /\ (p mod (n2 * n3)) / n3 < n2 /\ p mod n3 < n3 /\
  p = (p / (n2 * n3) * n2 + (p mod (n2 * n3)) / n3) * n3 + p mod n3.
Proof.
  intros Hp.
  assert (H3 : n3 <> 0) by (intros ->; lia).
  assert (H2 : n2 <> 0) by (intros ->; lia).
  assert (H23 : n2 * n3 <> 0) by lia.
  pose proof (Nat.div_mod_eq p (n2 * n3)) as E1.
  pose proof (Nat.mod_upper_bound p (n2 * n3) H23) as B1.
  pose proof (Nat.div_mod_eq (p mod (n2 * n3)) n3) as E2.
  pose proof (Nat.mod_upper_bound (p mod (n2 * n3)) n3 H3) as B2.
  assert (E3 : (p mod (n2 * n3)) mod n3 = p mod n3).
  { rewrite (Nat.mul_comm n2 n3). rewrite Nat.Div0.mod_mul_r.
    rewrite Nat.mul_comm, Nat.Div0.mod_add. apply Nat.Div0.mod_mod. }
  rewrite E3 in *.
  repeat split.
  - apply Nat.Div0.div_lt_upper_bound. lia.
  - apply Nat.Div0.div_lt_upper_bound. lia.
  - apply Nat.mod_upper_bound. exact H3.
  - lia.
Qed.

Lemma nth_one_hot_rows (K : nat) : forall (l : list Z) (t ch : nat),
  t < length l -> ch < K ->
  nth (t * K + ch)
      (flat_map (fun v => map (fun k => if (v =? Z.of_nat k)%Z
                                        then 1%Z else 0%Z) (seq 0 K)) l)
      0%Z
  = if (nth t l 0%Z =? Z.of_nat ch)%Z then 1%Z else 0%Z.
Proof.
  induction l as [|v l IH]; intros t ch Ht Hch; simpl in Ht; [lia|].
  cbn [flat_map].
  destruct t as [|t].
  - rewrite app_nth1 by (rewrite length_map, length_seq; simpl; lia).
    simpl Nat.mul. simpl Nat.add.
    rewrite (nth_map_in _ (seq 0 K) ch 0%Z 0) by (rewrite length_seq; lia).
    rewrite seq_nth by lia. reflexivity.
  - rewrite app_nth2 by (rewrite length_map, length_seq; simpl; lia).
    rewrite length_map, length_seq.
    replace (S t * K + ch - K) with (t * K + ch) by (simpl; lia).
    apply IH; [lia | exact Hch].
Qed.

Lemma map_flat_map {A B C} (g : B -> C) (f : A -> list B) (l : list A) :
  map g (flat_map f l) = flat_map (fun x => map g (f x)) l.
Proof.
  induction l as [|a l IH]; simpl; [reflexivity|].
  rewrite map_app, IH. reflexivity.
Qed.

Lemma flat_map_ext_in {A B} (f g : A -> list B) (l : list A) :
  (forall x, In x l -> f x = g x) -> flat_map f l = flat_map g l.
Proof.
  intros H. induction l as [|a l IH]; simpl; [reflexivity|].
  rewrite (H a) by (left; reflexivity).
  rewrite IH by (intros x Hx; apply H; right; exact Hx). reflexivity.
Qed.

Section Downscale.
Context {F : Type} {SF : Scalar F}.

Lemma one_hot_valid (ignore_index : Z) (n_classes : nat) (l : list Z) :
  forallb (valid_label ignore_index n_classes) l = true ->
  forallb (fun v => (0 <=? v)%Z && (v <? Z.of_nat (n_classes + 1))%Z)
          (map (fun v => if (v =? ignore_index)%Z
                         then Z.of_nat n_classes else v) l) = true.
Proof.
  intros H. rewrite forallb_forall in *. intros v Hv.
  apply in_map_iff in Hv as (u & <- & Hu). specialize (H u Hu).
  unfold valid_label in H.
  destruct (u =? ignore_index)%Z.
  - apply andb_true_intro. split; [apply Z.leb_le | apply Z.ltb_lt]; lia.
  - simpl in H. apply andb_prop in H as [H1 H2].
    apply Z.leb_le in H1, H2.
    apply andb_true_intro. split; [apply Z.leb_le | apply Z.ltb_lt]; lia.
Qed.

Lemma map2_tabulate {A B C} (f : A -> B -> C) (n : nat) (a : nat -> A)
    (b : nat -> B) :
  map2 f (tabulate n a) (tabulate n b) = tabulate n (fun p => f (a p) (b p)).
Proof. unfold tabulate. apply map2_same. Qed.

Lemma map_tabulate {A B} (f : A -> B) (n : nat) (a : nat -> A) :
  map f (tabulate n a) = tabulate n (fun p => f (a p)).
Proof. unfold tabulate. apply map_map. Qed.

Lemma tabulate_ext {A} (n : nat) (a b : nat -> A) :
  (forall p, p < n -> a p = b p) -> tabulate n a = tabulate n b.
Proof.
  intros H. unfold tabulate. apply map_ext_in. intros p Hp.
  apply in_seq in Hp. apply H. lia.
Qed.

(** The pooled one-hot encoding (lines 161-166) in closed form. *)
Lemma pooling_closed_form (gt : itensor) (s : nat) (n_classes : nat)
    (ignore_index : Z) (bs h w : nat) (oh1 : itensor) :
  length (idata gt) = bs * h * w -> s <> 0 -> h / s <> 0 -> w / s <> 0 ->
  permute0312
    (mkI [bs; h; w; n_classes + 1]
       (flat_map (fun v => map (fun k => if (v =? Z.of_nat k)%Z
                                         then 1%Z else 0%Z)
                               (seq 0 (n_classes + 1)))
          (map (fun v => if (v =? ignore_index)%Z
                         then Z.of_nat n_classes else v) (idata gt))))
  = Ok oh1 ->
  avg_pool2d (to_float oh1) s
  = Ok (mkT [bs; n_classes + 1; h / s; w / s]
            (pooled_data gt bs h w s ignore_index n_classes) false).
Proof.
  intros Hlen Hs Hoh How. unfold permute0312. cbn [ishape].
  intros E. injection E as <-.
  unfold avg_pool2d, to_float. cbn [shape ishape data idata requires_grad].
  destruct ((s =? 0) || (h / s =? 0) || (w / s =? 0)) eqn:E0.
  { apply orb_prop in E0 as [E0|E0]; [apply orb_prop in E0 as [E0|E0]|];
      apply Nat.eqb_eq in E0; contradiction. }
  f_equal. f_equal. unfold pooled_data. apply tabulate_ext. intros p Hp.
  set (K := n_classes + 1) in *. set (oh := h / s) in *.
  set (ow := w / s) in *.
  assert (HK : K <> 0) by (unfold K; lia).
  set (bc := p / (ow * oh)). set (i := (p / ow) mod oh). set (j := p mod ow).
  assert (Hbc : bc < bs * K).
  { apply Nat.Div0.div_lt_upper_bound. lia. }
  assert (Hi : i < oh) by (apply Nat.mod_upper_bound; exact Hoh).
  assert (Hj : j < ow) by (apply Nat.mod_upper_bound; exact How).
  assert (Hb : bc / K < bs)
    by (apply Nat.Div0.div_lt_upper_bound; lia).
  assert (Hch : bc mod K < K) by (apply Nat.mod_upper_bound; exact HK).
  assert (Ebc : bc = bc / K * K + bc mod K).
  { pose proof (Nat.div_mod_eq bc K). lia. }
  set (b := bc / K) in *. set (ch := bc mod K) in *.
  assert (Hsh : oh * s <= h).
  { unfold oh. rewrite Nat.mul_comm. apply Nat.Div0.mul_div_le. }
  assert (Hsw : ow * s <= w).
  { unfold ow. rewrite Nat.mul_comm. apply Nat.Div0.mul_div_le. }
  unfold occupancy, block_labels. f_equal. f_equal.
  rewrite map_flat_map. apply flat_map_ext_in.
  intros di Hdi. apply in_seq in Hdi.
  rewrite map_map. apply map_ext_in. intros dj Hdj. apply in_seq in Hdj.
  assert (Hhi : i * s + di < h).
  { assert ((i + 1) * s <= oh * s) by (apply Nat.mul_le_mono_r; lia). lia. }
  assert (Hwi : j * s + dj < w).
  { assert ((j + 1) * s <= ow * s) by (apply Nat.mul_le_mono_r; lia). lia. }
  rewrite Ebc.
  pose proof (index_bound4 bs K h w b ch (i * s + di) (j * s + dj)
                Hb Hch Hhi Hwi) as Hidx.
  rewrite (nth_map_in of_Z _ _ szero 0%Z)
    by (rewrite length_tabulate; exact Hidx).
  rewrite nth_tabulate by exact Hidx.
  destruct (decode4 K h w b ch (i * s + di) (j * s + dj) Hch Hhi Hwi)
    as (D1 & D2 & D3 & D4).
  rewrite D1, D2, D3, D4.
  pose proof (index_bound3 bs h w b (i * s + di) (j * s + dj) Hb Hhi Hwi)
    as Ht.
  rewrite nth_one_hot_rows by (rewrite ?length_map, ?Hlen; assumption).
  rewrite (nth_map_in _ (idata gt) _ 0%Z 0%Z) by (rewrite Hlen; exact Ht).
  reflexivity.
Qed.

(** The channel values of the pooled tensor at output cell [p] are the
    occupancies of the classes in the block of the cell. *)
Lemma pooled_channel_values (gt : itensor) (s : nat) (n_classes : nat)
    (ignore_index : Z) (bs h w p : nat) :
  h / s <> 0 -> w / s <> 0 -> p < bs * (h / s) * (w / s) ->
  channel_values
    (mkT [bs; n_classes + 1; h / s; w / s]
         (pooled_data gt bs h w s ignore_index n_classes) false)
    (n_classes + 1) (h / s) (w / s) p
  = map (occupancy s
           (block_labels gt h w s ignore_index n_classes
              (p / ((h / s) * (w / s))) ((p mod ((h / s) * (w / s))) / (w / s))
              (p mod (w / s))))
        (seq 0 (n_classes + 1)).
Proof.
  intros Hoh How Hp. unfold channel_values. cbn [data].
  set (K := n_classes + 1) in *. set (oh := h / s) in *.
  set (ow := w / s) in *.
  apply map_ext_in. intros ch Hch. apply in_seq in Hch.
  destruct (encode3 bs oh ow p Hp) as (Hb & Hi & Hj & Ep).
  set (b := p / (oh * ow)) in *. set (i := p mod (oh * ow) / ow) in *.
  set (j := p mod ow) in *.
  assert (Eq : p mod (oh * ow) = i * ow + j).
  { pose proof (Nat.div_mod_eq p (oh * ow)) as E. fold b in E. lia. }
  rewrite Eq.
  replace ((b * K + ch) * (oh * ow) + (i * ow + j))
    with (((b * K + ch) * oh + i) * ow + j) by lia.
  assert (Hch' : ch < K) by lia.
  unfold pooled_data. fold K oh ow.
  rewrite nth_tabulate by (apply index_bound4; assumption).
  destruct (decode3 oh ow (b * K + ch) i j Hi Hj) as (D1 & D2 & D3).
  rewrite D1, D2, D3.
  rewrite (div_lin b K ch Hch'), (mod_lin b K ch Hch'). reflexivity.
Qed.

(** The whole function on a well-formed input: one [cell_label] per output
    cell. *)
Lemma downscale_label_ratio_cells (gt : itensor) (s : nat) (min_ratio : F)
    (n_classes : nat) (ignore_index : Z) (bs h w : nat) :
  ishape gt = [bs; 1; h; w] -> length (idata gt) = bs * h * w ->
  2 <= s -> s <= h -> s <= w ->
  forallb (valid_label ignore_index n_classes) (idata gt) = true ->
  downscale_label_ratio gt s min_ratio n_classes ignore_index
  = Ok (mkI [bs; 1; h / s; w / s]
          (tabulate (bs * (h / s) * (w / s)) (fun p =>
             cell_label s min_ratio n_classes ignore_index
               (block_labels gt h w s ignore_index n_classes
                  (p / ((h / s) * (w / s)))
                  ((p mod ((h / s) * (w / s))) / (w / s))
                  (p mod (w / s)))))).
Proof.
  intros Hsh Hlen Hs Hh Hw Hvalid.
  assert (Hoh : h / s <> 0).
  { intros E. apply Nat.div_small_iff in E; lia. }
  assert (How : w / s <> 0).
  { intros E. apply Nat.div_small_iff in E; lia. }
  unfold downscale_label_ratio.
  destruct (1 <=? s) eqn:E1; [|apply Nat.leb_gt in E1; lia].
  cbn [assert bind].
  destruct (s =? 1) eqn:E2; [apply Nat.eqb_eq in E2; lia|].
  rewrite Hsh. cbn [Nat.eqb assert bind].
  unfold one_hot. cbn [idata ishape].
  rewrite (one_hot_valid ignore_index n_classes (idata gt) Hvalid).
  cbn [bind app].
  destruct (permute0312 _) as [oh1|e] eqn:Eperm; [|discriminate Eperm].
  cbn [bind].
  assert (Eshape : ishape oh1 = [bs; n_classes + 1; h; w]).
  { unfold permute0312 in Eperm. cbn [ishape] in Eperm.
    injection Eperm as <-. reflexivity. }
  rewrite Eshape, list_eqb_refl. cbn [assert bind].
  rewrite (pooling_closed_form gt s n_classes ignore_index bs h w oh1 Hlen
             ltac:(lia) Hoh How Eperm).
  cbn [bind]. unfold max_dim1. cbn [shape].
  replace (n_classes + 1 =? 0) with false
    by (symmetry; apply Nat.eqb_neq; lia).
  cbn [bind fst snd ishape idata data].
  rewrite list_eqb_refl. cbn [assert bind]. f_equal. f_equal.
  rewrite !map_tabulate, map2_tabulate.
  apply tabulate_ext. intros p Hp.
  rewrite pooled_channel_values by assumption.
  unfold cell_label. cbv zeta. reflexivity.
Qed.

End Downscale.

(** ** First maximum *)

Lemma argmax_from_map {A B} (lt : A -> A -> bool) (lt' : B -> B -> bool)
    (f : nat -> A) (g : nat -> B) :
  (forall k k', lt (f k) (f k') = lt' (g k) (g k')) ->
  forall (l : list nat) (b bi i : nat),
    argmax_from lt (f b) bi i (map f l)
    = argmax_from lt' (g b) bi i (map g l).
Proof.
  intros H. induction l as [|x l IH]; intros b bi i; simpl; [reflexivity|].
  rewrite H. destruct (lt' (g b) (g x)); apply IH.
Qed.

Lemma argmax_map {A B} (lt : A -> A -> bool) (lt' : B -> B -> bool)
    (f : nat -> A) (g : nat -> B) (l : list nat) :
  (forall k k', lt (f k) (f k') = lt' (g k) (g k')) ->
  argmax lt (map f l) = argmax lt' (map g l).
Proof.
  intros H. destruct l as [|x l]; [reflexivity|]. simpl.
  apply argmax_from_map. exact H.
Qed.

Lemma argmax_from_first_max (vals : list nat) :
  forall (l pre : list nat) (best bi : nat),
    vals = pre ++ l -> bi < length pre -> nth bi pre 0 = best ->
    (forall k, k < length pre -> nth k pre 0 <= best) ->
    (forall k, k < bi -> nth k pre 0 < best) ->
    first_max vals (argmax_from Nat.ltb best bi (length pre) l).
Proof.
  induction l as [|x l IH]; intros pre best bi Hv Hbi Hn Hle Hlt.
  - simpl. rewrite app_nil_r in Hv. subst vals.
    split; [exact Hbi|]. rewrite Hn. split; assumption.
  - simpl.
    assert (Hv' : vals = (pre ++ [x]) ++ l)
      by (rewrite <- app_assoc; exact Hv).
    assert (Hlen : length (pre ++ [x]) = S (length pre))
      by (rewrite length_app; simpl; lia).
    destruct (best <? x) eqn:E.
    + apply Nat.ltb_lt in E. rewrite <- Hlen.
      apply (IH (pre ++ [x])); try assumption.
      * rewrite Hlen. lia.
      * rewrite app_nth2, Nat.sub_diag by lia. reflexivity.
      * intros k Hk. rewrite Hlen in Hk.
        destruct (Nat.eq_dec k (length pre)) as [->|Hne].
        -- rewrite app_nth2, Nat.sub_diag by lia. simpl. lia.
        -- rewrite app_nth1 by lia. specialize (Hle k). lia.
      * intros k Hk. rewrite app_nth1 by lia. specialize (Hle k). lia.
    + apply Nat.ltb_ge in E. rewrite <- Hlen.
      apply (IH (pre ++ [x])); try assumption.
      * rewrite Hlen. lia.
      * rewrite app_nth1 by lia. exact Hn.
      * intros k Hk. rewrite Hlen in Hk.
        destruct (Nat.eq_dec k (length pre)) as [->|Hne].
        -- rewrite app_nth2, Nat.sub_diag by lia. simpl. lia.
        -- rewrite app_nth1 by lia. apply Hle. lia.
      * intros k Hk. rewrite app_nth1 by lia. apply Hlt. exact Hk.
Qed.

Lemma argmax_first_max (vals : list nat) :
  vals <> [] -> first_max vals (argmax Nat.ltb vals).
Proof.
  intros Hne. destruct vals as [|x l]; [contradiction|].
  unfold argmax.
  apply (argmax_from_first_max (x :: l) l [x] x 0); simpl; try reflexivity;
    try lia.
  intros k Hk. assert (k = 0) by lia. subst k. simpl. lia.
Qed.

(** ** Occupancy over the rationals *)

Section OccupancyFacts.
Open Scope Q_scope.

Lemma sltb_Q (x y : Q) : @sltb Q _ x y = true <-> x < y.
Proof.
  simpl. rewrite negb_true_iff. split.
  - intros H. apply Qnot_le_lt. intros Hle.
    apply Qle_bool_iff in Hle. congruence.
  - intros H. destruct (Qle_bool y x) eqn:E; [|reflexivity].
    apply Qle_bool_iff in E. exfalso. exact (Qlt_not_le _ _ H E).
Qed.

Lemma ssum_indicator (labels : list Z) (k : nat) :
  @ssum Q _ (map (fun v => of_Z (if (v =? Z.of_nat k)%Z then 1%Z else 0%Z))
               labels)
  == inject_Z (Z.of_nat (count_label labels k)).
Proof.
  unfold count_label.
  induction labels as [|v l IH]; [reflexivity|].
  change (@ssum Q _ (map (fun v => of_Z (if (v =? Z.of_nat k)%Z
                                         then 1%Z else 0%Z)) (v :: l)))
    with (inject_Z (if (v =? Z.of_nat k)%Z then 1%Z else 0%Z)
          + @ssum Q _ (map (fun v => of_Z (if (v =? Z.of_nat k)%Z
                                           then 1%Z else 0%Z)) l)).
  rewrite IH. simpl count_occ.
  destruct (Z.eq_dec v (Z.of_nat k)) as [E|E].
  - rewrite (proj2 (Z.eqb_eq _ _) E).
    rewrite <- inject_Z_plus. rewrite Nat2Z.inj_succ.
    apply inject_Z_injective. lia.
  - rewrite (proj2 (Z.eqb_neq _ _) E).
    rewrite <- inject_Z_plus. reflexivity.
Qed.

Lemma occupancy_count (s : nat) (labels : list Z) (k : nat) :
  @occupancy Q _ s labels k
  == inject_Z (Z.of_nat (count_label labels k)) / inject_Z (Z.of_nat (s * s)).
Proof.
  unfold occupancy, of_nat. cbn [sdiv of_Z Q_Scalar].
  rewrite ssum_indicator. reflexivity.
Qed.

Lemma occupancy_lt (s : nat) (labels : list Z) (k k' : nat) :
  s <> 0%nat ->
  @sltb Q _ (occupancy s labels k) (occupancy s labels k')
  = (count_label labels k <? count_label labels k')%nat.
Proof.
  intros Hs.
  assert (Hss : 0 < / inject_Z (Z.of_nat (s * s))).
  { apply Qinv_lt_0_compat. rewrite <- (Zlt_Qlt 0). lia. }
  apply eq_true_iff_eq. rewrite sltb_Q, !occupancy_count, Nat.ltb_lt.
  unfold Qdiv. rewrite Qmult_lt_r by exact Hss.
  rewrite <- Zlt_Qlt. lia.
Qed.

End OccupancyFacts.

(** ** The label of a block *)

Lemma length_flat_map_const {A B} (f : A -> list B) (k : nat) (l : list A) :
  (forall x, length (f x) = k) -> length (flat_map f l) = length l * k.
Proof.
  intros H. induction l as [|a l IH]; simpl; [reflexivity|].
  rewrite length_app, H, IH. reflexivity.
Qed.

Lemma length_block_labels (gt : itensor) (h w s : nat) (ig : Z)
    (n b i j : nat) :
  length (block_labels gt h w s ig n b i j) = s * s.
Proof.
  unfold block_labels.
  rewrite (length_flat_map_const _ s)
    by (intros di; rewrite length_map, length_seq; reflexivity).
  rewrite length_seq. reflexivity.
Qed.

Lemma cell_label_majority (s : nat) (min_ratio : Q) (n : nat) (ig : Z)
    (labels : list Z) :
  s <> 0 ->
  exists m,
    first_max (map (count_label labels) (seq 0 (n + 1))) m /\
    ((occupancy_ratio s labels m < min_ratio)%Q \/ m = n ->
     cell_label s min_ratio n ig labels = ig) /\
    (~ (occupancy_ratio s labels m < min_ratio)%Q -> m <> n ->
     cell_label s min_ratio n ig labels = Z.of_nat m).
Proof.
  intros Hs.
  set (vals := map (count_label labels) (seq 0 (n + 1))).
  assert (Hne : vals <> []).
  { unfold vals. rewrite Nat.add_1_r, <- cons_seq. discriminate. }
  pose proof (argmax_first_max vals Hne) as Hfm.
  exists (argmax Nat.ltb vals). split; [exact Hfm|].
  assert (Eam : argmax sltb (map (@occupancy Q _ s labels) (seq 0 (n + 1)))
                = argmax Nat.ltb vals).
  { unfold vals. apply argmax_map. intros k k'. apply occupancy_lt. exact Hs. }
  assert (Hm : argmax Nat.ltb vals < n + 1).
  { destruct Hfm as [Hfm _]. unfold vals in Hfm at 2.
    rewrite length_map, length_seq in Hfm. exact Hfm. }
  assert (Enth : nth (argmax Nat.ltb vals)
                     (map (@occupancy Q _ s labels) (seq 0 (n + 1))) szero
                 = occupancy s labels (argmax Nat.ltb vals)).
  { rewrite (nth_map_in _ (seq 0 (n + 1)) _ szero 0)
      by (rewrite length_seq; exact Hm).
    rewrite seq_nth by exact Hm. reflexivity. }
  unfold cell_label. cbv zeta. rewrite Eam, Enth.
  set (m := argmax Nat.ltb vals) in *.
  assert (Hlt : @sltb Q _ (occupancy s labels m) min_ratio = true
                <-> (occupancy_ratio s labels m < min_ratio)%Q).
  { rewrite sltb_Q. unfold occupancy_ratio.
    rewrite occupancy_count. reflexivity. }
  split.
  - intros [H | H].
    + apply Hlt in H. rewrite H. reflexivity.
    + destruct (sltb (occupancy s labels m) min_ratio); [reflexivity|].
      rewrite H, Z.eqb_refl. reflexivity.
  - intros H1 H2.
    destruct (sltb (occupancy s labels m) min_ratio) eqn:E.
    + exfalso. apply H1. apply Hlt. reflexivity.
    + destruct (Z.of_nat m =? Z.of_nat n)%Z eqn:E2; [|reflexivity].
      apply Z.eqb_eq in E2. lia.
Qed.


Lemma count_label_all (labels : list Z) (c : nat) :
  Forall (fun v => v = Z.of_nat c) labels ->
  count_label labels c = length labels.
Proof.
  unfold count_label. induction 1 as [|v l Hv Hl IH]; simpl; [reflexivity|].
  destruct (Z.eq_dec v (Z.of_nat c)); [rewrite IH; reflexivity | contradiction].
Qed.

Lemma count_two_labels (labels : list Z) (c1 c2 : Z) :
  c1 <> c2 -> Forall (fun v => v = c1 \/ v = c2) labels ->
  count_occ Z.eq_dec labels c1 + count_occ Z.eq_dec labels c2
  = length labels.
Proof.
  intros Hne. induction 1 as [|v l Hv Hl IH]; simpl; [reflexivity|].
  destruct (Z.eq_dec v c1) as [E1|E1]; destruct (Z.eq_dec v c2) as [E2|E2];
    lia.
Qed.

Lemma count_le_two_labels (labels : list Z) (c1 c2 : Z) (k : nat) :
  Forall (fun v => v = c1 \/ v = c2) labels ->
  count_occ Z.eq_dec labels c1 = count_occ Z.eq_dec labels c2 ->
  count_label labels k <= count_occ Z.eq_dec labels c1.
Proof.
  intros Hall Heq. unfold count_label.
  destruct (Z.eq_dec (Z.of_nat k) c1) as [->|N1]; [lia|].
  destruct (Z.eq_dec (Z.of_nat k) c2) as [->|N2]; [lia|].
  rewrite (proj1 (count_occ_not_In Z.eq_dec labels (Z.of_nat k))); [lia|].
  intros Hin. rewrite Forall_forall in Hall.
  destruct (Hall _ Hin); contradiction.
Qed.

Lemma square_pos (s : nat) : s <> 0 -> 0 < s * s.
Proof. destruct s; [contradiction | simpl; lia]. Qed.

Section CellCases.
Open Scope Q_scope.

Lemma ratio_full (s : nat) (labels : list Z) (k : nat) :
  s <> 0%nat -> count_label labels k = (s * s)%nat ->
  occupancy_ratio s labels k == 1.
Proof.
  intros Hs E. unfold occupancy_ratio. rewrite E.
  apply Qmult_inv_r. intros H.
  unfold Qeq in H. simpl in H. pose proof (square_pos s Hs). lia.
Qed.

Lemma ratio_at_most_half (s : nat) (labels : list Z) (k : nat) :
  s <> 0%nat -> (2 * count_label labels k <= s * s)%nat ->
  occupancy_ratio s labels k <= 1 # 2.
Proof.
  intros Hs H. unfold occupancy_ratio.
  apply Qle_shift_div_r.
  - rewrite <- (Zlt_Qlt 0). pose proof (square_pos s Hs). lia.
  - unfold Qle, Qmult, inject_Z. cbn [Qnum Qden].
    change (Z.of_nat (count_label labels k) * 2
            <= 1 * Z.of_nat (s * s) * 1)%Z.
    lia.
Qed.

End CellCases.

(** A block filled by one class keeps it, for every [min_ratio] up to 1. *)
Lemma cell_label_single_class (s : nat) (min_ratio : Q) (n : nat) (ig : Z)
    (labels : list Z) (c : nat) :
  s <> 0 -> length labels = s * s -> c < n ->
  Forall (fun v => v = Z.of_nat c) labels -> (min_ratio <= 1)%Q ->
  cell_label s min_ratio n ig labels = Z.of_nat c.
Proof.
  intros Hs Hlen Hc Hall Hr.
  destruct (cell_label_majority s min_ratio n ig labels Hs)
    as (m & (Hm & Hmax & _) & _ & Hkeep).
  rewrite length_map, length_seq in Hm.
  assert (Hcnt : count_label labels c = s * s)
    by (rewrite count_label_all; assumption).
  assert (Hcm : s * s <= count_label labels m).
  { specialize (Hmax c). rewrite length_map, length_seq in Hmax.
    rewrite !(nth_map_in _ (seq 0 (n + 1)) _ 0 0) in Hmax
      by (rewrite length_seq; lia).
    rewrite !seq_nth in Hmax by lia. simpl in Hmax.
    rewrite Hcnt in Hmax. apply Hmax. lia. }
  assert (Em : m = c).
  { assert (Hin : In (Z.of_nat m) labels).
    { apply (count_occ_In Z.eq_dec). unfold count_label in Hcm. nia. }
    rewrite Forall_forall in Hall. apply Hall in Hin. lia. }
  subst m. apply Hkeep; [|lia].
  rewrite ratio_full by assumption.
  apply Qle_not_lt. exact Hr.
Qed.

(** A block split evenly between two classes is ignored, for every
    [min_ratio] above one half. *)
Lemma cell_label_even_split (s : nat) (min_ratio : Q) (n : nat) (ig : Z)
    (labels : list Z) (c1 c2 : Z) :
  s <> 0 -> length labels = s * s -> c1 <> c2 ->
  Forall (fun v => v = c1 \/ v = c2) labels ->
  count_occ Z.eq_dec labels c1 = count_occ Z.eq_dec labels c2 ->
  (1 # 2 < min_ratio)%Q ->
  cell_label s min_ratio n ig labels = ig.
Proof.
  intros Hs Hlen Hne Hall Heq Hr.
  destruct (cell_label_majority s min_ratio n ig labels Hs)
    as (m & _ & Hdrop & _).
  apply Hdrop. left.
  apply (Qle_lt_trans _ (1 # 2)); [|exact Hr].
  apply ratio_at_most_half; [exact Hs|].
  pose proof (count_two_labels labels c1 c2 Hne Hall).
  pose proof (count_le_two_labels labels c1 c2 m Hall Heq). lia.
Qed.

(** The linear index of output cell (b, i, j) decodes to (b, i, j). *)
Lemma cell_index (bs oh ow b i j : nat) :
  b < bs -> i < oh -> j < ow ->
  (b * oh + i) * ow + j < bs * oh * ow /\
  ((b * oh + i) * ow + j) / (oh * ow) = b /\
  (((b * oh + i) * ow + j) mod (oh * ow)) / ow = i /\
  ((b * oh + i) * ow + j) mod ow = j.
Proof.
  intros Hb Hi Hj.
  pose proof (index_bound2 oh ow i j Hi Hj) as Hq.
  assert (E : (b * oh + i) * ow + j = b * (oh * ow) + (i * ow + j)) by lia.
  split; [apply index_bound3; assumption|].
  split; [rewrite E; apply div_lin; exact Hq|].
  split.
  - rewrite E, (mod_lin b (oh * ow) (i * ow + j) Hq).
    apply div_lin. exact Hj.
  - apply mod_lin. exact Hj.
Qed.

(** C5.  Over the rationals, for a one-channel label map of valid labels
    (class indices or the ignore value) and a scale factor [s > 1] that
    fits into the map, [downscale_label_ratio] returns, and its output cell
    (b, i, j) is decided by the labels of its [s] x [s] block: with [m] the
    majority class of the block (the first class of maximal count, ignore
    pixels counting for the placeholder class [n_classes]), the cell is the
    ignore value when the occupancy fraction of [m] is below [min_ratio] or
    [m] is the placeholder, and [m] otherwise.  A block filled by one class
    yields that class whenever [min_ratio <= 1]; a block split evenly
    between two classes yields the ignore value whenever
    [min_ratio > 1/2]. *)
Theorem downscale_label_ratio_majority (gt : itensor) (s : nat)
    (min_ratio : Q) (n_classes : nat) (ignore_index : Z) (bs h w : nat)
    (Hshape : ishape gt = [bs; 1; h; w])
    (Hlen : length (idata gt) = bs * h * w)
    (Hs : 2 <= s) (Hh : s <= h) (Hw : s <= w)
    (Hvalid : forallb (valid_label ignore_index n_classes) (idata gt)
              = true) :
  exists out : list Z,
    downscale_label_ratio gt s min_ratio n_classes ignore_index
    = Ok (mkI [bs; 1; h / s; w / s] out) /\
    forall b i j, b < bs -> i < h / s -> j < w / s ->
      let labels := block_labels gt h w s ignore_index n_classes b i j in
      let cell := nth ((b * (h / s) + i) * (w / s) + j) out 0%Z in
      (exists m,
         first_max (map (count_label labels) (seq 0 (n_classes + 1))) m /\
         ((occupancy_ratio s labels m < min_ratio)%Q \/ m = n_classes ->
          cell = ignore_index) /\
         (~ (occupancy_ratio s labels m < min_ratio)%Q -> m <> n_classes ->
          cell = Z.of_nat m)) /\
      (forall c, c < n_classes ->
         Forall (fun v => v = Z.of_nat c) labels ->
         (min_ratio <= 1)%Q -> cell = Z.of_nat c) /\
      (forall c1 c2, c1 <> c2 ->
         Forall (fun v => v = c1 \/ v = c2) labels ->
         count_occ Z.eq_dec labels c1 = count_occ Z.eq_dec labels c2 ->
         (1 # 2 < min_ratio)%Q -> cell = ignore_index).
Proof.
  eexists. split.
  - apply (downscale_label_ratio_cells gt s min_ratio n_classes ignore_index
             bs h w); assumption.
  - intros b i j Hb Hi Hj. cbv zeta.
    destruct (cell_index bs (h / s) (w / s) b i j Hb Hi Hj)
      as (Hp & D1 & D2 & D3).
    rewrite nth_tabulate by exact Hp. rewrite D1, D2, D3.
    assert (Hs0 : s <> 0) by lia.
    split; [|split].
    + apply cell_label_majority. exact Hs0.
    + intros c Hc Hall Hr.
      apply cell_label_single_class; auto using length_block_labels.
    + intros c1 c2 Hne Hall Heq Hr.
      apply (cell_label_even_split s min_ratio n_classes ignore_index _
               c1 c2); auto using length_block_labels.
Qed.

Lemma downscale_label_ratio_majority_witness :
  exists out : list Z,
    downscale_label_ratio (mkI [1; 1; 2; 4] [3; 3; 1; 2; 3; 3; 2; 1]%Z) 2
      (3 # 4)%Q 5 255%Z = Ok (mkI [1; 1; 1; 2] out) /\
    nth 0 out 0%Z = 3%Z /\ nth 1 out 0%Z = 255%Z.
Proof.
  destruct (downscale_label_ratio_majority
              (mkI [1; 1; 2; 4] [3; 3; 1; 2; 3; 3; 2; 1]%Z) 2 (3 # 4)%Q 5
              255%Z 1 2 4 eq_refl eq_refl (le_n 2) (le_n 2)
              (proj1 (Nat.leb_le 2 4) eq_refl) eq_refl) as (out & Hout & Hcells).
  exists out. split; [exact Hout|]. split.
  - destruct (Hcells 0 0 0 (Nat.lt_0_succ 0) (Nat.lt_0_succ 0)
                (Nat.lt_0_succ 1)) as (_ & Hone & _).
    apply (Hone 3).
    + apply Nat.ltb_lt. reflexivity.
    + repeat constructor.
    + discriminate.
  - destruct (Hcells 0 0 1 (Nat.lt_0_succ 0) (Nat.lt_0_succ 0)
                (Nat.lt_succ_diag_r 1)) as (_ & _ & Htwo).
    apply (Htwo 1%Z 2%Z).
    + discriminate.
    + simpl.
      repeat (apply Forall_cons;
              [(left; reflexivity) || (right; reflexivity)|]).
      apply Forall_nil.
    + reflexivity.
    + reflexivity.
Defined.

(** C10 fails when the map is lower than the pooling window: the claimed
    shape would be (0, 2), but average pooling rejects an empty output. *)
Lemma downscale_label_ratio_small_map_raises :
  downscale_label_ratio (mkI [1; 1; 1; 4] [0; 0; 1; 1]%Z) 2 (3 # 4)%Q 10
    255%Z = Raise RuntimeError.
Proof. reflexivity. Qed.

(** C10, amended.  For one-channel label maps of height [h] and width [w]
    holding valid labels, and a scale factor [s > 1] with [s <= h] and
    [s <= w] (divisible or not): [downscale_label_ratio] returns a map of
    shape (h / s, w / s) with one entry per cell, and two maps that agree on
    the first (h / s) * s rows and (w / s) * s columns give the same
    output: the trailing rows and columns are not read. *)
Theorem downscale_label_ratio_floor_shape {F : Type} {SF : Scalar F}
    (gt gt' : itensor) (s : nat) (min_ratio : F) (n_classes : nat)
    (ignore_index : Z) (bs h w : nat)
    (Hshape : ishape gt = [bs; 1; h; w])
    (Hshape' : ishape gt' = [bs; 1; h; w])
    (Hlen : length (idata gt) = bs * h * w)
    (Hlen' : length (idata gt') = bs * h * w)
    (Hs : 2 <= s) (Hh : s <= h) (Hw : s <= w)
    (Hvalid : forallb (valid_label ignore_index n_classes) (idata gt)
              = true)
    (Hvalid' : forallb (valid_label ignore_index n_classes) (idata gt')
               = true)
    (Hagree : forall b i j, b < bs -> i < h / s * s -> j < w / s * s ->
                nth ((b * h + i) * w + j) (idata gt) 0%Z
                = nth ((b * h + i) * w + j) (idata gt') 0%Z) :
  exists out : list Z,
    length out = bs * (h / s) * (w / s) /\
    downscale_label_ratio gt s min_ratio n_classes ignore_index
    = Ok (mkI [bs; 1; h / s; w / s] out) /\
    downscale_label_ratio gt' s min_ratio n_classes ignore_index
    = Ok (mkI [bs; 1; h / s; w / s] out).
Proof.
  eexists. split; [|split].
  2: { apply (downscale_label_ratio_cells gt s min_ratio n_classes
                ignore_index bs h w); assumption. }
  - apply length_tabulate.
  - rewrite (downscale_label_ratio_cells gt' s min_ratio n_classes
               ignore_index bs h w) by assumption.
    f_equal. f_equal. apply tabulate_ext. intros p Hp.
    destruct (encode3 bs (h / s) (w / s) p Hp) as (Hb & Hi & Hj & _).
    f_equal. unfold block_labels.
    apply flat_map_ext_in. intros di Hdi. apply in_seq in Hdi.
    apply map_ext_in. intros dj Hdj. apply in_seq in Hdj.
    f_equal. symmetry. apply Hagree; [exact Hb | |].
    + assert ((p mod (h / s * (w / s)) / (w / s) + 1) * s <= h / s * s)
        by (apply Nat.mul_le_mono_r; lia).
      lia.
    + assert ((p mod (w / s) + 1) * s <= w / s * s)
        by (apply Nat.mul_le_mono_r; lia).
      lia.
Qed.

Lemma downscale_label_ratio_floor_shape_witness :
  exists out : list Z,
    length out = 1 /\
    downscale_label_ratio (mkI [1; 1; 3; 3] [4; 4; 0; 4; 4; 1; 2; 3; 7]%Z) 2
      (3 # 4)%Q 7 255%Z = Ok (mkI [1; 1; 1; 1] out) /\
    downscale_label_ratio (mkI [1; 1; 3; 3] [4; 4; 5; 4; 4; 6; 0; 0; 0]%Z) 2
      (3 # 4)%Q 7 255%Z = Ok (mkI [1; 1; 1; 1] out).
Proof.
  refine (downscale_label_ratio_floor_shape
            (mkI [1; 1; 3; 3] [4; 4; 0; 4; 4; 1; 2; 3; 7]%Z)
            (mkI [1; 1; 3; 3] [4; 4; 5; 4; 4; 6; 0; 0; 0]%Z) 2 (3 # 4)%Q 7
            255%Z 1 3 3 eq_refl eq_refl eq_refl eq_refl (le_n 2)
            (proj1 (Nat.leb_le 2 3) eq_refl) (proj1 (Nat.leb_le 2 3) eq_refl) eq_refl
            eq_refl _).
  intros b i j Hb Hi Hj.
  assert (b = 0) by lia. subst b.
  change (3 / 2 * 2) with 2 in Hi, Hj.
  destruct i as [|[|i]]; [| |lia];
    (destruct j as [|[|j]]; [| |lia]); reflexivity.
Defined.

(** ** Reduction names and weight shapes *)

Section ReductionEdges.
Context {F : Type} {SF : Scalar F}.

Lemma get_enum_unknown (reduction : string) :
  reduction <> "none"%string -> reduction <> "mean"%string ->
  reduction <> "elementwise_mean"%string -> reduction <> "sum"%string ->
  get_enum reduction = Raise ValueError.
Proof.
  intros H1 H2 H3 H4. unfold get_enum.
  apply String.eqb_neq in H1, H2, H3, H4.
  rewrite H1, H2, H3, H4. reflexivity.
Qed.

End ReductionEdges.

(** X1.  A reduction name other than 'none', 'mean', 'elementwise_mean'
    and 'sum' makes [weight_reduce_loss] raise [ValueError] once the
    weighting has passed, with or without [avg_factor]; so does
    [reduce_loss]. *)
Theorem weight_reduce_loss_unknown_reduction {F : Type} {SF : Scalar F}
    (loss : tensor F) (weight : option (tensor F)) (wl : tensor F)
    (reduction : string) (avg_factor : option F) :
  weighted loss weight wl ->
  reduction <> "none"%string -> reduction <> "mean"%string ->
  reduction <> "elementwise_mean"%string -> reduction <> "sum"%string ->
  weight_reduce_loss loss weight reduction avg_factor = Raise ValueError /\
  reduce_loss wl reduction = Raise ValueError.
Proof.
  intros Hw H1 H2 H3 H4.
  assert (Hr : reduce_loss wl reduction = Raise ValueError).
  { unfold reduce_loss. rewrite get_enum_unknown by assumption. reflexivity. }
  split; [|exact Hr].
  unfold weight_reduce_loss. rewrite (weighting_step _ _ _ Hw).
  cbn [bind]. destruct avg_factor as [af|]; [|exact Hr].
  apply String.eqb_neq in H1, H2. rewrite H1, H2. reflexivity.
Qed.

Lemma weight_reduce_loss_unknown_reduction_witness :
  weight_reduce_loss (vector_tensor [1%Q; 2%Q] true) None "max" (Some 2%Q)
    = Raise ValueError /\
  reduce_loss (vector_tensor [1%Q; 2%Q] true) "max" = Raise ValueError.
Proof.
  apply (weight_reduce_loss_unknown_reduction
           (vector_tensor [1%Q; 2%Q] true) None
           (vector_tensor [1%Q; 2%Q] true) "max" (Some 2%Q)).
  - reflexivity.
  - discriminate.
  - discriminate.
  - discriminate.
  - discriminate.
Defined.

(** X2.  The deprecated name 'elementwise_mean' is a mean only without
    [avg_factor]: with one, the same call raises [ValueError]. *)
Theorem weight_reduce_loss_elementwise_mean {F : Type} {SF : Scalar F}
    (loss : tensor F) (weight : option (tensor F)) (wl : tensor F)
    (avg_factor : F) :
  weighted loss weight wl ->
  weight_reduce_loss loss weight "elementwise_mean" None = Ok (tmean wl) /\
  weight_reduce_loss loss weight "mean" None = Ok (tmean wl) /\
  weight_reduce_loss loss weight "elementwise_mean" (Some avg_factor)
    = Raise ValueError.
Proof.
  intros Hw. unfold weight_reduce_loss.
  rewrite (weighting_step _ _ _ Hw). cbn [bind]. repeat split; reflexivity.
Qed.

Lemma weight_reduce_loss_elementwise_mean_witness :
  weight_reduce_loss (vector_tensor [1%Q; 2%Q] true) None "elementwise_mean"
    None = Ok (tmean (vector_tensor [1%Q; 2%Q] true)) /\
  weight_reduce_loss (vector_tensor [1%Q; 2%Q] true) None "mean"
    None = Ok (tmean (vector_tensor [1%Q; 2%Q] true)) /\
  weight_reduce_loss (vector_tensor [1%Q; 2%Q] true) None "elementwise_mean"
    (Some 2%Q) = Raise ValueError.
Proof.
  apply (weight_reduce_loss_elementwise_mean
           (vector_tensor [1%Q; 2%Q] true) None
           (vector_tensor [1%Q; 2%Q] true) 2%Q).
  reflexivity.
Defined.

(** X3.  A weight whose rank differs from that of the loss, or whose
    second size is neither 1 nor that of the loss, is rejected with
    [AssertionError] before the reduction name or [avg_factor] is looked
    at. *)
Theorem weight_reduce_loss_weight_shape {F : Type} {SF : Scalar F}
    (loss weight : tensor F) (reduction : string) (avg_factor : option F) :
  dim weight <> dim loss \/
  (1 < dim weight /\ size weight 1 <> 1 /\ size weight 1 <> size loss 1) ->
  weight_reduce_loss loss (Some weight) reduction avg_factor
  = Raise AssertionError.
Proof.
  intros H. unfold weight_reduce_loss.
  destruct (dim weight =? dim loss) eqn:Ed; [|reflexivity].
  destruct H as [H | (H1 & H2 & H3)].
  - apply Nat.eqb_eq in Ed. contradiction.
  - cbn [assert bind]. apply Nat.ltb_lt in H1. rewrite H1.
    apply Nat.eqb_neq in H2, H3. rewrite H2, H3. reflexivity.
Qed.

Lemma weight_reduce_loss_weight_shape_witness :
  weight_reduce_loss (vector_tensor [1%Q; 2%Q] true)
    (Some (mkT [2; 1] [1%Q; 1%Q] false)) "median" None
  = Raise AssertionError.
Proof.
  apply (weight_reduce_loss_weight_shape (vector_tensor [1%Q; 2%Q] true)
           (mkT [2; 1] [1%Q; 1%Q] false) "median" None).
  left. vm_compute. discriminate.
Defined.

Section MaskWeights.
Open Scope R_scope.

Lemma ssum_mask (l : list R) : forall keep : list bool,
  ssum (map2 smul l (map (fun b : bool => if b then 1 else 0) keep))
  = ssum (select keep l).
Proof.
  induction l as [|x l IH]; intros [|b keep]; simpl; try reflexivity.
  rewrite IH. destruct b; simpl; ring.
Qed.

End MaskWeights.

(** X4.  A weight vector of zeros and ones acts as a mask: 'sum' adds up
    the kept entries only, and 'mean' divides that sum by the number of all
    entries, kept or not. *)
Theorem weight_reduce_loss_mask (l : list R) (keep : list bool) (g : bool) :
  length keep = length l ->
  let w := vector_tensor (map (fun b : bool => if b then 1%R else 0%R) keep)
             false in
  weight_reduce_loss (vector_tensor l g) (Some w) "sum" None
  = Ok (scalar_tensor (ssum (select keep l)) g) /\
  weight_reduce_loss (vector_tensor l g) (Some w) "mean" None
  = Ok (scalar_tensor (ssum (select keep l) / INR (length l))%R g).
Proof.
  intros Hl w.
  assert (Hm : tmul (vector_tensor l g) w
               = Ok (mkT [length l] (map2 smul l
                       (map (fun b : bool => if b then 1%R else 0%R) keep))
                       (g || false))).
  { apply tmul_vectors. rewrite length_map. symmetry. exact Hl. }
  assert (Hw : weighted (vector_tensor l g) (Some w)
                 (mkT [length l] (map2 smul l
                       (map (fun b : bool => if b then 1%R else 0%R) keep))
                       (g || false))).
  { split; [reflexivity|]. split; [|exact Hm].
    unfold w, dim, vector_tensor. simpl. lia. }
  unfold weight_reduce_loss. rewrite (weighting_step _ _ _ Hw).
  cbn [bind]. unfold reduce_loss, get_enum. simpl.
  unfold tsum, tmean, numel, scalar_tensor. simpl.
  rewrite ssum_mask, orb_false_r, Nat.mul_1_r.
  unfold of_nat. simpl. rewrite <- INR_IZR_INZ. split; reflexivity.
Qed.

Lemma weight_reduce_loss_mask_witness :
  weight_reduce_loss (vector_tensor [3%R; 5%R] true)
    (Some (vector_tensor [1%R; 0%R] false)) "sum" None
  = Ok (scalar_tensor (ssum (select [true; false] [3%R; 5%R])) true).
Proof.
  apply (weight_reduce_loss_mask [3%R; 5%R] [true; false] true).
  reflexivity.
Defined.

(** ** Class-weight files *)

Lemma prefix_cons (a : Ascii.ascii) (s r : string) :
  String.prefix (String a s) r = true ->
  exists r', r = String a r' /\ String.prefix s r' = true.
Proof.
  destruct r as [|b r']; simpl; [discriminate|].
  destruct (Ascii.ascii_dec a b) as [<-|]; [|discriminate].
  intros H. exists r'. split; [reflexivity|exact H].
Qed.

Ltac ends_with H :=
  unfold endswith in H; simpl string_rev in H;
  repeat (let r := fresh "r" in let E := fresh "E" in
          apply prefix_cons in H; destruct H as (r & E & H); subst).

(** X5.  A file name is read by the reader of its extension: '.npy' by
    [np.load], '.pkl' by [pickle.load], '.json' by [json.load], '.yaml'
    and '.yml' by [yaml.safe_load]; the result of the reader, error
    included, is the result.  Any other name raises [ValueError] whatever
    the files hold, and a value that is not a string is returned as it
    is. *)
Theorem get_class_weight_by_extension {F : Type} (fs : file_readers F)
    (path : string) :
  (endswith path ".npy" = true ->
   get_class_weight fs (CwStr path) = np_load fs path) /\
  (endswith path ".pkl" = true ->
   get_class_weight fs (CwStr path) = pickle_load fs path) /\
  (endswith path ".json" = true ->
   get_class_weight fs (CwStr path) = json_load fs path) /\
  (endswith path ".yaml" = true \/ endswith path ".yml" = true ->
   get_class_weight fs (CwStr path) = yaml_safe_load fs path) /\
  (endswith path ".npy" = false -> endswith path ".pkl" = false ->
   endswith path ".json" = false -> endswith path ".yaml" = false ->
   endswith path ".yml" = false ->
   get_class_weight fs (CwStr path) = Raise ValueError) /\
  (forall l, get_class_weight fs (CwList l) = Ok (CwList l)) /\
  get_class_weight fs CwNone = Ok CwNone.
Proof.
  unfold get_class_weight.
  split; [intros H; rewrite H; reflexivity|].
  split.
  { intros H. rewrite H.
    replace (endswith path ".npy") with false; [reflexivity|].
    ends_with H. unfold endswith. rewrite E. reflexivity. }
  split.
  { intros H. rewrite H.
    replace (endswith path ".npy") with false;
      [replace (endswith path ".pkl") with false; [reflexivity|]|];
      ends_with H; unfold endswith; rewrite E; reflexivity. }
  split.
  { intros H.
    assert (Hy : endswith path ".yaml" || endswith path ".yml" = true).
    { destruct H as [H | H]; rewrite H; [reflexivity|apply orb_true_r]. }
    rewrite Hy.
    replace (endswith path ".npy") with false;
      [replace (endswith path ".pkl") with false;
         [replace (endswith path ".json") with false; [reflexivity|]|]|];
      destruct H as [H | H]; ends_with H; unfold endswith; rewrite E;
      reflexivity. }
  split.
  { intros H1 H2 H3 H4 H5. rewrite H1, H2, H3, H4, H5. reflexivity. }
  split; reflexivity.
Qed.

Lemma get_class_weight_by_extension_witness :
  get_class_weight
    (mkReaders (fun _ => Ok (CwList [1%Q])) (fun _ => Ok CwNone)
       (fun _ => Ok (CwList [2%Q])) (fun _ => Raise RuntimeError))
    (CwStr "weights/city.json")
  = Ok (CwList [2%Q]).
Proof.
  apply (proj1 (proj2 (proj2 (get_class_weight_by_extension
    (mkReaders (fun _ => Ok (CwList [1%Q])) (fun _ => Ok CwNone)
       (fun _ => Ok (CwList [2%Q])) (fun _ => Raise RuntimeError))
    "weights/city.json")))).
  reflexivity.
Defined.

(** ** Label downscaling: edges and thresholds *)

Lemma list_eqb_eq : forall l m : list nat, list_eqb l m = true -> l = m.
Proof.
  induction l as [|a l IH]; intros [|b m]; simpl; try discriminate;
    [reflexivity|].
  intros H. apply andb_prop in H as [H1 H2].
  apply Nat.eqb_eq in H1. subst b. f_equal. apply IH. exact H2.
Qed.

Lemma argmax_from_lt {A} (lt : A -> A -> bool) : forall (l : list A)
    (best : A) (bi i : nat),
  bi < i -> argmax_from lt best bi i l < i + length l.
Proof.
  induction l as [|x l IH]; intros best bi i Hb; simpl; [lia|].
  destruct (lt best x).
  - specialize (IH x i (S i) ltac:(lia)). lia.
  - specialize (IH best bi (S i) ltac:(lia)). lia.
Qed.

Lemma argmax_lt {A} (lt : A -> A -> bool) (l : list A) :
  l <> [] -> argmax lt l < length l.
Proof.
  destruct l as [|x l]; [congruence|]. intros _. simpl.
  pose proof (argmax_from_lt lt l x 0 1 ltac:(lia)). lia.
Qed.

Lemma Forall_map2_r {A B C} (P : C -> Prop) (f : A -> B -> C) :
  forall (l : list A) (m : list B),
  Forall (fun b => forall a, P (f a b)) m -> Forall P (map2 f l m).
Proof.
  induction l as [|a l IH]; intros [|b m] H; simpl; try constructor.
  - apply (Forall_inv H).
  - apply IH. exact (Forall_inv_tail H).
Qed.

Section DownscaleEdges.
Context {F : Type} {SF : Scalar F}.

Lemma channel_values_length (t : tensor F) (c h w p : nat) :
  length (channel_values t c h w p) = c.
Proof. unfold channel_values. rewrite length_map, length_seq. reflexivity. Qed.

Lemma cell_label_range (s : nat) (min_ratio : F) (n : nat) (ig : Z)
    (labels : list Z) :
  cell_label s min_ratio n ig labels = ig \/
  (0 <= cell_label s min_ratio n ig labels < Z.of_nat n)%Z.
Proof.
  unfold cell_label.
  set (ratios := map (occupancy s labels) (seq 0 (n + 1))).
  destruct (sltb (nth (argmax sltb ratios) ratios szero) min_ratio);
    [left; reflexivity|].
  destruct (Z.of_nat (argmax sltb ratios) =? Z.of_nat n)%Z eqn:E;
    [left; reflexivity|].
  right. apply Z.eqb_neq in E.
  assert (H : argmax sltb ratios < length ratios).
  { apply argmax_lt. unfold ratios. rewrite Nat.add_1_r. simpl.
    discriminate. }
  unfold ratios in H at 2. rewrite length_map, length_seq in H. lia.
Qed.

End DownscaleEdges.

(** X6.  For a scale factor other than 1, every label that
    [downscale_label_ratio] returns is the ignore value or a class index
    below [n_classes]: the placeholder class [n_classes] that stands for
    ignored pixels inside the function never leaves it. *)
Theorem downscale_label_ratio_range {F : Type} {SF : Scalar F}
    (gt : itensor) (s : nat) (min_ratio : F) (n_classes : nat)
    (ignore_index : Z) (out : itensor) :
  s <> 1 ->
  downscale_label_ratio gt s min_ratio n_classes ignore_index = Ok out ->
  Forall (fun v => v = ignore_index \/ (0 <= v < Z.of_nat n_classes)%Z)
         (idata out).
Proof.
  intros Hs. unfold downscale_label_ratio.
  destruct (1 <=? s); cbn [assert bind]; [|discriminate].
  destruct (s =? 1) eqn:E1; [apply Nat.eqb_eq in E1; contradiction|].
  destruct (ishape gt) as [|bs [|c [|h [|w [|]]]]]; try discriminate.
  destruct (c =? 1); cbn [assert bind]; [|discriminate].
  destruct (one_hot _ _) as [oh|e] eqn:Eoh; cbn [bind]; [|discriminate].
  destruct (permute0312 oh) as [pm|e] eqn:Epm; cbn [bind]; [|discriminate].
  destruct (list_eqb (ishape pm) _) eqn:Esh; cbn [assert bind];
    [|discriminate].
  apply list_eqb_eq in Esh.
  unfold avg_pool2d, to_float. cbn [shape]. rewrite Esh.
  destruct ((s =? 0) || (h / s =? 0) || (w / s =? 0)); cbn [bind];
    [discriminate|].
  unfold max_dim1. cbn [shape].
  replace (n_classes + 1 =? 0) with false
    by (symmetry; apply Nat.eqb_neq; lia).
  cbn [bind fst snd ishape idata data].
  destruct (list_eqb _ _); cbn [assert bind]; [|discriminate].
  intros E. injection E as <-. cbn [idata].
  apply Forall_map2_r. rewrite !map_tabulate.
  apply Forall_tabulate. intros p _ q.
  match goal with |- context [argmax sltb ?l] =>
    assert (H : argmax sltb l < n_classes + 1)
  end.
  { match goal with |- argmax sltb ?l < _ =>
      pose proof (argmax_lt sltb l) as H end.
    rewrite channel_values_length in H. apply H.
    intros E. apply (f_equal (@length F)) in E.
    rewrite channel_values_length in E. simpl in E. lia. }
  destruct (sltb q min_ratio); [left; reflexivity|].
  destruct (Z.of_nat _ =? Z.of_nat n_classes)%Z eqn:E2; [left; reflexivity|].
  right. apply Z.eqb_neq in E2. lia.
Qed.

Lemma downscale_label_ratio_range_witness :
  Forall (fun v => v = 255%Z \/ (0 <= v < Z.of_nat 3)%Z)
    (idata (mkI [1; 1; 1; 2] [255; 2]%Z)).
Proof.
  apply (downscale_label_ratio_range
           (mkI [1; 1; 2; 4] [255; 255; 2; 2; 255; 0; 2; 2]%Z) 2 (3 # 4)%Q 3
           255%Z (mkI [1; 1; 1; 2] [255; 2]%Z)).
  - discriminate.
  - vm_compute. reflexivity.
Defined.

(** X7.  [downscale_label_ratio] checks its arguments in this order: a
    scale factor of 0 is an [AssertionError]; for a scale factor of at
    least 2 a tensor that is not four-dimensional is a [ValueError], one
    with a channel count other than 1 an [AssertionError], and a label
    that is neither the ignore value nor in [0, n_classes] a
    [RuntimeError] of the one-hot encoding.  With scale factor 1 none of
    this is checked and the input is returned as it is. *)
Theorem downscale_label_ratio_rejects {F : Type} {SF : Scalar F}
    (gt : itensor) (s : nat) (min_ratio : F) (n_classes : nat)
    (ignore_index : Z) :
  (s = 0 ->
   downscale_label_ratio gt s min_ratio n_classes ignore_index
   = Raise AssertionError) /\
  (s = 1 ->
   downscale_label_ratio gt s min_ratio n_classes ignore_index = Ok gt) /\
  (2 <= s -> idim gt <> 4 ->
   downscale_label_ratio gt s min_ratio n_classes ignore_index
   = Raise ValueError) /\
  (2 <= s -> idim gt = 4 -> isize gt 1 <> 1 ->
   downscale_label_ratio gt s min_ratio n_classes ignore_index
   = Raise AssertionError) /\
  (2 <= s -> idim gt = 4 -> isize gt 1 = 1 ->
   forallb (valid_label ignore_index n_classes) (idata gt) = false ->
   downscale_label_ratio gt s min_ratio n_classes ignore_index
   = Raise RuntimeError).
Proof.
  unfold downscale_label_ratio, idim, isize.
  split; [intros ->; reflexivity|].
  split; [intros ->; reflexivity|].
  assert (Hs : 2 <= s -> (1 <=? s) = true /\ (s =? 1) = false).
  { intros H. split; [apply Nat.leb_le | apply Nat.eqb_neq]; lia. }
  split; [|split].
  - intros H Hd. destruct (Hs H) as [-> ->]. cbn [assert bind].
    destruct (ishape gt) as [|bs [|c [|h [|w [|]]]]]; try reflexivity.
    simpl in Hd. congruence.
  - intros H Hd Hc. destruct (Hs H) as [-> ->]. cbn [assert bind].
    destruct (ishape gt) as [|bs [|c [|h [|w [|]]]]]; try discriminate.
    simpl in Hc. apply Nat.eqb_neq in Hc. rewrite Hc. reflexivity.
  - intros H Hd Hc Hv. destruct (Hs H) as [-> ->]. cbn [assert bind].
    destruct (ishape gt) as [|bs [|c [|h [|w [|]]]]]; try discriminate.
    simpl in Hc. subst c. cbn [Nat.eqb assert bind].
    unfold one_hot. cbn [idata].
    match goal with |- context [forallb ?f ?l] =>
      replace (forallb f l) with false; [reflexivity|] end.
    symmetry. rewrite <- Hv. clear Hv.
    induction (idata gt) as [|v l IH]; [reflexivity|].
    cbn [map forallb]. rewrite IH. f_equal. unfold valid_label.
    destruct (v =? ignore_index)%Z eqn:E.
    + simpl. apply andb_true_intro.
      split; [apply Z.leb_le | apply Z.ltb_lt]; lia.
    + simpl. f_equal.
      destruct (v <? Z.of_nat (n_classes + 1))%Z eqn:E1;
        destruct (v <=? Z.of_nat n_classes)%Z eqn:E2; try reflexivity.
      * apply Z.ltb_lt in E1. apply Z.leb_gt in E2. lia.
      * apply Z.ltb_ge in E1. apply Z.leb_le in E2. lia.
Qed.

Lemma downscale_label_ratio_rejects_witness :
  downscale_label_ratio (mkI [1; 1; 2; 2] [0; 7; 1; 2]%Z) 2 (3 # 4)%Q 3 255%Z
  = Raise RuntimeError.
Proof.
  apply (proj2 (proj2 (proj2 (proj2 (downscale_label_ratio_rejects
    (mkI [1; 1; 2; 2] [0; 7; 1; 2]%Z) 2 (3 # 4)%Q 3 255%Z))))).
  - lia.
  - reflexivity.
  - reflexivity.
  - reflexivity.
Defined.

(** ** Label downscaling: the threshold *)

Lemma Forall2_tabulate {A B} (P : A -> B -> Prop) (n : nat)
    (f : nat -> A) (g : nat -> B) :
  (forall i, i < n -> P (f i) (g i)) -> Forall2 P (tabulate n f) (tabulate n g).
Proof.
  unfold tabulate. intros H.
  assert (G : forall l, (forall i, In i l -> P (f i) (g i)) ->
                        Forall2 P (map f l) (map g l)).
  { induction l as [|a l IH]; intros Hl; simpl; constructor.
    - apply Hl. left. reflexivity.
    - apply IH. intros i Hi. apply Hl. right. exact Hi. }
  apply G. intros i Hi. apply in_seq in Hi. apply H. lia.
Qed.

Section Threshold.
Open Scope Q_scope.

Lemma occupancy_le_1 (s : nat) (labels : list Z) (k : nat) :
  length labels = (s * s)%nat -> s <> 0%nat ->
  @occupancy Q _ s labels k <= 1.
Proof.
  intros Hl Hs. rewrite occupancy_count.
  assert (Hss : 0 < inject_Z (Z.of_nat (s * s))).
  { rewrite <- (Zlt_Qlt 0). pose proof (square_pos s Hs). lia. }
  apply Qle_shift_div_r; [exact Hss|]. rewrite Qmult_1_l.
  rewrite <- Zle_Qle. apply inj_le. rewrite <- Hl.
  unfold count_label. apply count_occ_bound.
Qed.

Lemma nth_ratios (s : nat) (labels : list Z) (n m : nat) :
  (m < n + 1)%nat ->
  nth m (map (@occupancy Q _ s labels) (seq 0 (n + 1))) szero
  = occupancy s labels m.
Proof.
  intros Hm.
  rewrite (nth_map_in (occupancy s labels) (seq 0 (n + 1)) m szero 0%nat)
    by (rewrite length_seq; exact Hm).
  rewrite seq_nth by exact Hm. reflexivity.
Qed.

Lemma argmax_ratios_lt (s : nat) (labels : list Z) (n : nat) :
  (argmax sltb (map (@occupancy Q _ s labels) (seq 0 (n + 1))) < n + 1)%nat.
Proof.
  pose proof (argmax_lt sltb (map (@occupancy Q _ s labels) (seq 0 (n + 1))))
    as H.
  rewrite length_map, length_seq in H. apply H.
  rewrite Nat.add_1_r. simpl. discriminate.
Qed.

Lemma cell_label_above_one (s : nat) (min_ratio : Q) (n : nat) (ig : Z)
    (labels : list Z) :
  length labels = (s * s)%nat -> s <> 0%nat -> 1 < min_ratio ->
  cell_label s min_ratio n ig labels = ig.
Proof.
  intros Hl Hs Hr. unfold cell_label.
  rewrite nth_ratios by apply argmax_ratios_lt.
  replace (sltb (occupancy s labels _) min_ratio) with true; [reflexivity|].
  symmetry. apply sltb_Q.
  eapply Qle_lt_trans; [apply occupancy_le_1; assumption|exact Hr].
Qed.

Lemma cell_label_monotone (s : nat) (r1 r2 : Q) (n : nat) (ig : Z)
    (labels : list Z) :
  r1 <= r2 ->
  cell_label s r2 n ig labels = ig \/
  cell_label s r1 n ig labels = cell_label s r2 n ig labels.
Proof.
  intros Hr. unfold cell_label.
  set (q := nth _ _ szero).
  destruct (sltb q r2) eqn:E2; [left; reflexivity|].
  right. replace (sltb q r1) with false; [reflexivity|].
  symmetry. destruct (sltb q r1) eqn:E1; [|reflexivity].
  apply sltb_Q in E1.
  assert (H : q < r2) by (eapply Qlt_le_trans; eassumption).
  apply sltb_Q in H. congruence.
Qed.

End Threshold.

(** X8.  With a purity threshold above 1 no block is pure enough: on a
    well-formed label map with valid labels, every cell of the downscaled
    map is the ignore value. *)
Theorem downscale_label_ratio_threshold_above_one (gt : itensor) (s : nat)
    (min_ratio : Q) (n_classes : nat) (ignore_index : Z) (bs h w : nat) :
  ishape gt = [bs; 1; h; w] -> length (idata gt) = bs * h * w ->
  2 <= s -> s <= h -> s <= w ->
  forallb (valid_label ignore_index n_classes) (idata gt) = true ->
  (1 < min_ratio)%Q ->
  downscale_label_ratio gt s min_ratio n_classes ignore_index
  = Ok (mkI [bs; 1; h / s; w / s]
            (repeat ignore_index (bs * (h / s) * (w / s)))).
Proof.
  intros Hsh Hlen Hs Hh Hw Hv Hr.
  rewrite (downscale_label_ratio_cells gt s min_ratio n_classes ignore_index
             bs h w Hsh Hlen Hs Hh Hw Hv).
  f_equal. f_equal. unfold tabulate.
  transitivity (map (fun _ : nat => ignore_index)
                    (seq 0 (bs * (h / s) * (w / s)))).
  - apply map_ext. intros p.
    apply cell_label_above_one; [|lia|exact Hr].
    apply length_block_labels.
  - rewrite map_const, length_seq. reflexivity.
Qed.

Lemma downscale_label_ratio_threshold_above_one_witness :
  downscale_label_ratio (mkI [1; 1; 2; 4] [3; 3; 1; 1; 3; 3; 1; 1]%Z) 2
    (11 # 10)%Q 19 255%Z
  = Ok (mkI [1; 1; 2 / 2; 4 / 2] (repeat 255%Z (1 * (2 / 2) * (4 / 2)))).
Proof.
  apply (downscale_label_ratio_threshold_above_one
           (mkI [1; 1; 2; 4] [3; 3; 1; 1; 3; 3; 1; 1]%Z) 2 (11 # 10)%Q 19
           255%Z 1 2 4).
  - reflexivity.
  - reflexivity.
  - lia.
  - lia.
  - lia.
  - reflexivity.
  - reflexivity.
Defined.

(** X9.  Raising the purity threshold only turns cells into the ignore
    value: for thresholds [r1 <= r2] both calls return maps of the same
    shape, and every cell of the map for [r2] is the ignore value or
    equals the cell of the map for [r1]. *)
Theorem downscale_label_ratio_monotone (gt : itensor) (s : nat)
    (r1 r2 : Q) (n_classes : nat) (ignore_index : Z) (bs h w : nat) :
  ishape gt = [bs; 1; h; w] -> length (idata gt) = bs * h * w ->
  2 <= s -> s <= h -> s <= w ->
  forallb (valid_label ignore_index n_classes) (idata gt) = true ->
  (r1 <= r2)%Q ->
  exists out1 out2 : list Z,
    downscale_label_ratio gt s r1 n_classes ignore_index
    = Ok (mkI [bs; 1; h / s; w / s] out1) /\
    downscale_label_ratio gt s r2 n_classes ignore_index
    = Ok (mkI [bs; 1; h / s; w / s] out2) /\
    Forall2 (fun v1 v2 => v2 = ignore_index \/ v1 = v2) out1 out2.
Proof.
  intros Hsh Hlen Hs Hh Hw Hv Hr.
  eexists. eexists. split; [|split].
  - apply (downscale_label_ratio_cells gt s r1 n_classes ignore_index
             bs h w Hsh Hlen Hs Hh Hw Hv).
  - apply (downscale_label_ratio_cells gt s r2 n_classes ignore_index
             bs h w Hsh Hlen Hs Hh Hw Hv).
  - apply Forall2_tabulate. intros p _.
    apply cell_label_monotone. exact Hr.
Qed.

Lemma downscale_label_ratio_monotone_witness :
  exists out1 out2 : list Z,
    downscale_label_ratio (mkI [1; 1; 2; 4] [3; 3; 1; 2; 3; 3; 2; 1]%Z) 2
      (1 # 2)%Q 19 255%Z = Ok (mkI [1; 1; 2 / 2; 4 / 2] out1) /\
    downscale_label_ratio (mkI [1; 1; 2; 4] [3; 3; 1; 2; 3; 3; 2; 1]%Z) 2
      (3 # 4)%Q 19 255%Z = Ok (mkI [1; 1; 2 / 2; 4 / 2] out2) /\
    Forall2 (fun v1 v2 => v2 = 255%Z \/ v1 = v2) out1 out2.
Proof.
  apply (downscale_label_ratio_monotone
           (mkI [1; 1; 2; 4] [3; 3; 1; 2; 3; 3; 2; 1]%Z) 2 (1 # 2)%Q (3 # 4)%Q
           19 255%Z 1 2 4).
  - reflexivity.
  - reflexivity.
  - lia.
  - lia.
  - lia.
  - reflexivity.
  - discriminate.
Defined.

(** ** Alignment: every path *)

Lemma fst_combine {A B} : forall (l : list A) (m : list B),
  length l = length m -> map fst (combine l m) = l.
Proof.
  induction l as [|a l IH]; intros [|b m] H; simpl in *; try discriminate;
    [reflexivity|].
  f_equal. apply IH. lia.
Qed.

Lemma position_index (B H W b h w : nat) :
  b < B -> h < H -> w < W ->
  (b * H + h) * W + w < B * H * W /\
  ((b * H + h) * W + w) / (H * W) = b /\
  ((b * H + h) * W + w) mod (H * W) = h * W + w.
Proof.
  intros Hb Hh Hw.
  pose proof (index_bound2 H W h w Hh Hw) as Hq.
  assert (E : (b * H + h) * W + w = b * (H * W) + (h * W + w)) by lia.
  split; [apply index_bound3; assumption|].
  rewrite E. split; [apply div_lin | apply mod_lin]; exact Hq.
Qed.

(** X10.  Whatever path the alignment takes (mask resized or not, several
    channels or one), what it returns on a well-formed mask is consistent:
    one label per feature row, no label equal to [ignore_index], every row
    with the channel count of the feature map, and the gradient flag of the
    feature map. *)
Theorem contrast_preparations_invariants {F : Type} {SF : Scalar F}
    (feat : tensor F) (mask : itensor) (use_avg_pool : bool)
    (scale_min_ratio : F) (num_classes : nat) (ignore_index : Z)
    (feat' : matrix F) (mask' : list Z) :
  wf_itensor mask ->
  contrast_preparations feat mask use_avg_pool scale_min_ratio num_classes
    ignore_index = Ok (feat', mask') ->
  nrows feat' = length mask' /\
  Forall (fun l => l <> ignore_index) mask' /\
  ncols feat' = size feat 1 /\ ncols feat' <> 0 /\
  wf_matrix feat' /\
  mgrad feat' = requires_grad feat.
Proof.
  intros Hwf H.
  destruct (contrast_preparations_inv feat mask use_avg_pool scale_min_ratio
              num_classes ignore_index feat' mask' Hwf H)
    as (H1 & H2 & H3 & H4 & H5).
  repeat split; try assumption.
  revert H. unfold contrast_preparations.
  destruct (if negb (list_eqb (last2 (ishape mask)) (last2 (shape feat)))
            then interpolate_nearest mask (last2 (shape feat))
            else Ok mask) as [m|e]; simpl; [|discriminate].
  unfold size.
  destruct (shape feat) as [|B [|C [|H [|W [|]]]]]; try discriminate.
  unfold flatten_tokens.
  destruct (C =? 0); simpl; [discriminate|].
  match goal with |- context [assert ?b] => destruct b end; simpl;
    [|discriminate].
  intros E. injection E as <- <-. reflexivity.
Qed.

Lemma contrast_preparations_invariants_witness :
  nrows (@mkM Q 2 [[1; 10]; [2; 20]; [4; 40]]%Q true)
  = length [0; 1; 2]%Z.
Proof.
  apply (contrast_preparations_invariants
           (@mkT Q [1; 2; 2; 2] [1; 2; 3; 4; 10; 20; 30; 40]%Q true)
           (mkI [1; 1; 4; 4] [0; 9; 1; 9; 9; 9; 9; 9; 255; 9; 2; 9;
                              9; 9; 9; 9]%Z)
           true (3 # 4)%Q 19 255%Z
           (@mkM Q 2 [[1; 10]; [2; 20]; [4; 40]]%Q true) [0; 1; 2]%Z).
  - reflexivity.
  - vm_compute. reflexivity.
Defined.

(** X11.  When no label is ignored, the alignment keeps every position:
    it returns the labels unchanged and B*H*W rows, and the row of
    position (b, h, w) holds the [C] channel values feat[b, c, h, w],
    positions in raster order within each batch element. *)
Theorem contrast_preparations_layout {F : Type} {SF : Scalar F}
    (feat : tensor F) (mask : itensor) (use_avg_pool : bool)
    (scale_min_ratio : F) (num_classes : nat) (ignore_index : Z)
    (B C H W : nat) :
  shape feat = [B; C; H; W] -> C <> 0 ->
  ishape mask = [B; 1; H; W] \/ ishape mask = [B; H; W] ->
  length (idata mask) = B * H * W ->
  Forall (fun l => l <> ignore_index) (idata mask) ->
  exists rws : list (list F),
    contrast_preparations feat mask use_avg_pool scale_min_ratio num_classes
      ignore_index
    = Ok (mkM C rws (requires_grad feat), idata mask) /\
    length rws = B * H * W /\
    forall b h w c, b < B -> h < H -> w < W -> c < C ->
      nth c (nth ((b * H + h) * W + w) rws []) szero
      = nth (((b * C + c) * H + h) * W + w) (data feat) szero.
Proof.
  intros Hfeat HC Hmask Hlen Hall.
  exists (tabulate (B * H * W) (token feat C (H * W))).
  split; [|split].
  - rewrite (contrast_preparations_aligned feat mask use_avg_pool
               scale_min_ratio num_classes ignore_index B C H W Hfeat HC
               Hmask Hlen).
    rewrite filter_all.
    + rewrite fst_combine by (rewrite length_tabulate; symmetry; exact Hlen).
      rewrite snd_combine by (rewrite length_tabulate; symmetry; exact Hlen).
      reflexivity.
    + apply Forall_forall. intros [r l] Hin. simpl.
      apply in_combine_r in Hin.
      rewrite Forall_forall in Hall. specialize (Hall l Hin).
      apply negb_true_iff. apply Z.eqb_neq. exact Hall.
  - apply length_tabulate.
  - intros b h w c Hb Hh Hw Hc.
    destruct (position_index B H W b h w Hb Hh Hw) as (Hp & Ed & Em).
    rewrite nth_tabulate by exact Hp.
    unfold token.
    rewrite (nth_map_in _ (seq 0 C) c szero 0) by (rewrite length_seq; exact Hc).
    rewrite seq_nth by exact Hc. rewrite Ed, Em. f_equal. simpl. ring.
Qed.

Lemma contrast_preparations_layout_witness :
  exists rws : list (list Q),
    contrast_preparations
      (@mkT Q [1; 2; 2; 2] [1; 2; 3; 4; 10; 20; 30; 40]%Q true)
      (mkI [1; 1; 2; 2] [0; 1; 1; 2]%Z) true (3 # 4)%Q 19 255%Z
    = Ok (mkM 2 rws true, [0; 1; 1; 2]%Z) /\
    length rws = 1 * 2 * 2 /\
    forall b h w c, b < 1 -> h < 2 -> w < 2 -> c < 2 ->
      nth c (nth ((b * 2 + h) * 2 + w) rws []) szero
      = nth (((b * 2 + c) * 2 + h) * 2 + w)
            [1; 2; 3; 4; 10; 20; 30; 40]%Q szero.
Proof.
  apply (contrast_preparations_layout
           (@mkT Q [1; 2; 2; 2] [1; 2; 3; 4; 10; 20; 30; 40]%Q true)
           (mkI [1; 1; 2; 2] [0; 1; 1; 2]%Z) true (3 # 4)%Q 19 255%Z
           1 2 2 2).
  - reflexivity.
  - discriminate.
  - left. reflexivity.
  - reflexivity.
  - repeat (apply Forall_cons; [discriminate|]). apply Forall_nil.
Defined.

Lemma nearest_multiple (i k n : nat) :
  i < n -> k <> 0 -> nearest i (k * n) n = i * k.
Proof.
  intros Hi Hk. unfold nearest.
  replace (i * (k * n)) with (i * k * n) by ring.
  rewrite Nat.div_mul by lia.
  apply Nat.min_l.
  assert ((i + 1) * k <= n * k) by (apply Nat.mul_le_mono_r; lia).
  lia.
Qed.

Lemma interpolate_by_factor (mask : itensor) (B H W k : nat) :
  H <> 0 -> W <> 0 -> 2 <= k ->
  ishape mask = [B; 1; k * H; k * W] ->
  interpolate_nearest mask [H; W] = Ok (top_left_pixels mask B H W k).
Proof.
  intros HH HW Hk Hmask.
  unfold interpolate_nearest. rewrite Hmask.
  replace ((k * H =? 0) || (k * W =? 0) || (H =? 0) || (W =? 0)) with false.
  2:{ symmetry. repeat (apply orb_false_intro); apply Nat.eqb_neq; nia. }
  unfold top_left_pixels. f_equal. f_equal.
  replace (B * 1 * H * W) with (B * H * W) by ring.
  apply tabulate_ext. intros p Hp.
  rewrite (nearest_multiple ((p / W) mod H) k H)
    by (try lia; apply Nat.mod_upper_bound; exact HH).
  rewrite (nearest_multiple (p mod W) k W)
    by (try lia; apply Nat.mod_upper_bound; exact HW).
  reflexivity.
Qed.

(** X12.  A mask whose resolution is [k] times that of the features
    ([k >= 2]) is reduced by taking the top-left pixel of every [k] x [k]
    block: the alignment gives the same result as on the mask of those
    pixels.  No majority vote is taken, and the arguments [use_avg_pool]
    and [scale_min_ratio] play no part. *)
Theorem contrast_preparations_resizes_by_top_left {F : Type} {SF : Scalar F}
    (feat : tensor F) (mask : itensor) (use_avg_pool : bool)
    (scale_min_ratio : F) (num_classes : nat) (ignore_index : Z)
    (B C H W k : nat) :
  shape feat = [B; C; H; W] -> H <> 0 -> W <> 0 -> 2 <= k ->
  ishape mask = [B; 1; k * H; k * W] ->
  contrast_preparations feat mask use_avg_pool scale_min_ratio num_classes
    ignore_index
  = contrast_preparations feat (top_left_pixels mask B H W k) use_avg_pool
      scale_min_ratio num_classes ignore_index.
Proof.
  intros Hfeat HH HW Hk Hmask.
  unfold contrast_preparations.
  rewrite Hmask, Hfeat. unfold top_left_pixels at 1. cbn [ishape].
  change (last2 [B; 1; k * H; k * W]) with [k * H; k * W].
  change (last2 [B; C; H; W]) with [H; W].
  change (last2 [B; 1; H; W]) with [H; W].
  rewrite list_eqb_refl. cbn [negb].
  assert (Hne : list_eqb [k * H; k * W] [H; W] = false).
  { cbn [list_eqb]. replace (k * H =? H) with false; [reflexivity|].
    symmetry. apply Nat.eqb_neq. nia. }
  rewrite Hne. cbn [negb].
  rewrite (interpolate_by_factor mask B H W k HH HW Hk Hmask).
  reflexivity.
Qed.

Lemma contrast_preparations_resizes_by_top_left_witness :
  contrast_preparations
    (@mkT Q [1; 2; 2; 2] [1; 2; 3; 4; 10; 20; 30; 40]%Q true)
    (mkI [1; 1; 2 * 2; 2 * 2]
         [0; 9; 1; 9; 9; 9; 9; 9; 255; 9; 2; 9; 9; 9; 9; 9]%Z)
    true (3 # 4)%Q 19 255%Z
  = contrast_preparations
      (@mkT Q [1; 2; 2; 2] [1; 2; 3; 4; 10; 20; 30; 40]%Q true)
      (top_left_pixels
         (mkI [1; 1; 2 * 2; 2 * 2]
              [0; 9; 1; 9; 9; 9; 9; 9; 255; 9; 2; 9; 9; 9; 9; 9]%Z) 1 2 2 2)
      true (3 # 4)%Q 19 255%Z.
Proof.
  apply (contrast_preparations_resizes_by_top_left
           (@mkT Q [1; 2; 2; 2] [1; 2; 3; 4; 10; 20; 30; 40]%Q true)
           (mkI [1; 1; 2 * 2; 2 * 2]
              [0; 9; 1; 9; 9; 9; 9; 9; 255; 9; 2; 9; 9; 9; 9; 9]%Z)
           true (3 # 4)%Q 19 255%Z 1 2 2 2 2).
  - reflexivity.
  - discriminate.
  - discriminate.
  - lia.
  - reflexivity.
Defined.

(** ** Alignment: one-hot masks and rejected inputs *)

Lemma argmax_from_bounded : forall (l : list Z) (best : Z) (bi i : nat),
  Forall (fun x => (x <= best)%Z) l -> argmax_from Z.ltb best bi i l = bi.
Proof.
  induction l as [|x l IH]; intros best bi i H; simpl; [reflexivity|].
  pose proof (Forall_inv H) as Hx. pose proof (Forall_inv_tail H) as Hl.
  replace (best <? x)%Z with false by (symmetry; apply Z.ltb_ge; exact Hx).
  apply IH. exact Hl.
Qed.

Lemma argmax_from_indicator (v : Z) : forall (n i bi : nat),
  i <= Z.to_nat v < i + n -> (0 <= v)%Z ->
  argmax_from Z.ltb 0%Z bi i
    (map (fun k => if (v =? Z.of_nat k)%Z then 1%Z else 0%Z) (seq i n))
  = Z.to_nat v.
Proof.
  induction n as [|n IH]; intros i bi Hi Hv; [lia|].
  cbn [seq map argmax_from].
  destruct (v =? Z.of_nat i)%Z eqn:E.
  - apply Z.eqb_eq in E. cbn [Z.ltb Z.compare].
    rewrite argmax_from_bounded; [lia|].
    apply Forall_forall. intros x Hx. apply in_map_iff in Hx as (k & <- & _).
    destruct (v =? Z.of_nat k)%Z; lia.
  - apply Z.eqb_neq in E. cbn [Z.ltb Z.compare].
    apply IH; [lia|exact Hv].
Qed.

Lemma argmax_indicator (v : Z) (K : nat) :
  (0 <= v < Z.of_nat K)%Z ->
  Z.of_nat (argmax Z.ltb
              (map (fun k => if (v =? Z.of_nat k)%Z then 1%Z else 0%Z)
                   (seq 0 K))) = v.
Proof.
  intros Hv. destruct K as [|K]; [lia|].
  cbn [seq map argmax].
  destruct (v =? Z.of_nat 0)%Z eqn:E.
  - apply Z.eqb_eq in E.
    rewrite argmax_from_bounded; [lia|].
    apply Forall_forall. intros x Hx. apply in_map_iff in Hx as (k & <- & _).
    destruct (v =? Z.of_nat k)%Z; lia.
  - apply Z.eqb_neq in E.
    rewrite argmax_from_indicator; lia.
Qed.

Lemma iargmax_one_hot (labels : list Z) (B H W K : nat) (oh m : itensor) :
  length labels = B * H * W ->
  one_hot (mkI [B; H; W] labels) K = Ok oh ->
  permute0312 oh = Ok m ->
  ishape m = [B; K; H; W] /\ iargmax_dim1 m = mkI [B; H; W] labels.
Proof.
  intros Hlen Hoh Hpm.
  unfold one_hot in Hoh. cbn [idata ishape] in Hoh.
  destruct (forallb _ labels) eqn:Hrange; [|discriminate].
  injection Hoh as <-. unfold permute0312 in Hpm. cbn [ishape app idata] in Hpm.
  injection Hpm as <-. split; [reflexivity|].
  unfold iargmax_dim1. cbn [ishape idata]. f_equal.
  transitivity (tabulate (B * H * W) (fun k => nth k labels 0%Z));
    [|unfold tabulate; rewrite <- Hlen; apply map_nth_seq].
  apply tabulate_ext. intros p Hp.
  destruct (encode3 B H W p Hp) as (Hb & Hh & Hw & Ep).
  set (b := p / (H * W)) in *. set (h := p mod (H * W) / W) in *.
  set (w := p mod W) in *.
  assert (Em : p mod (H * W) = h * W + w).
  { pose proof (Nat.div_mod_eq p (H * W)) as E. fold b in E. lia. }
  assert (Hv : (0 <= nth p labels 0 < Z.of_nat K)%Z).
  { rewrite forallb_forall in Hrange.
    assert (Hin : In (nth p labels 0%Z) labels) by (apply nth_In; lia).
    specialize (Hrange _ Hin). apply andb_prop in Hrange as [H1 H2].
    apply Z.leb_le in H1. apply Z.ltb_lt in H2. lia. }
  etransitivity; [|apply (argmax_indicator (nth p labels 0%Z) K Hv)].
  f_equal. f_equal. apply map_ext_in. intros ch Hch. apply in_seq in Hch.
  rewrite Em.
  replace ((b * K + ch) * (H * W) + (h * W + w))
    with (((b * K + ch) * H + h) * W + w) by ring.
  assert (Hch' : ch < K) by lia.
  rewrite nth_tabulate by (apply index_bound4; assumption).
  destruct (decode4 K H W b ch h w Hch' Hh Hw) as (D1 & D2 & D3 & D4).
  rewrite D1, D2, D3, D4.
  rewrite nth_one_hot_rows; [|rewrite Hlen; apply index_bound3; assumption
                             |exact Hch'].
  rewrite <- Ep. reflexivity.
Qed.

(** X13.  A mask with several channels is reduced to the index of its
    largest channel; for the one-hot encoding of a label map (as
    [F.one_hot] followed by [permute(0, 3, 1, 2)] builds it, with at least
    two classes) this decodes the labels again: the alignment gives the
    same result as on the label map itself. *)
Theorem contrast_preparations_decodes_one_hot {F : Type} {SF : Scalar F}
    (feat : tensor F) (labels : list Z) (K : nat) (oh m : itensor)
    (use_avg_pool : bool) (scale_min_ratio : F) (num_classes : nat)
    (ignore_index : Z) (B C H W : nat) :
  shape feat = [B; C; H; W] -> 2 <= K ->
  length labels = B * H * W ->
  one_hot (mkI [B; H; W] labels) K = Ok oh ->
  permute0312 oh = Ok m ->
  contrast_preparations feat m use_avg_pool scale_min_ratio num_classes
    ignore_index
  = contrast_preparations feat (mkI [B; H; W] labels) use_avg_pool
      scale_min_ratio num_classes ignore_index.
Proof.
  intros Hfeat HK Hlen Hoh Hpm.
  destruct (iargmax_one_hot labels B H W K oh m Hlen Hoh Hpm) as [Hsh Harg].
  unfold contrast_preparations.
  rewrite Hsh, Hfeat. cbn [ishape].
  change (last2 [B; K; H; W]) with [H; W].
  change (last2 [B; C; H; W]) with [H; W].
  change (last2 [B; H; W]) with [H; W].
  rewrite list_eqb_refl. cbn [negb bind].
  unfold idim, isize. rewrite Hsh. cbn [ishape length nth Nat.eqb andb].
  replace (1 <? K) with true by (symmetry; apply Nat.ltb_lt; lia).
  rewrite Harg. reflexivity.
Qed.

Lemma contrast_preparations_decodes_one_hot_witness :
  contrast_preparations
    (@mkT Q [1; 2; 1; 2] [1; 2; 10; 20]%Q true)
    (mkI [1; 3; 1; 2] [0; 0; 0; 1; 1; 0]%Z) true (3 # 4)%Q 3 255%Z
  = contrast_preparations
      (@mkT Q [1; 2; 1; 2] [1; 2; 10; 20]%Q true)
      (mkI [1; 1; 2] [2; 1]%Z) true (3 # 4)%Q 3 255%Z.
Proof.
  apply (contrast_preparations_decodes_one_hot
           (@mkT Q [1; 2; 1; 2] [1; 2; 10; 20]%Q true) [2; 1]%Z 3
           (mkI [1; 1; 2; 3] [0; 0; 1; 0; 1; 0]%Z)
           (mkI [1; 3; 1; 2] [0; 0; 0; 1; 1; 0]%Z)
           true (3 # 4)%Q 3 255%Z 1 2 1 2).
  - reflexivity.
  - lia.
  - reflexivity.
  - reflexivity.
  - reflexivity.
Defined.

(** X14.  The alignment rejects a feature map that is not
    four-dimensional with [ValueError] (the mask having its trailing
    sizes), and a mask of the features' resolution whose number of
    positions differs from that of the features (another batch size) with
    [AssertionError]. *)
Theorem contrast_preparations_rejects {F : Type} {SF : Scalar F}
    (feat : tensor F) (mask : itensor) (use_avg_pool : bool)
    (scale_min_ratio : F) (num_classes : nat) (ignore_index : Z) :
  (last2 (ishape mask) = last2 (shape feat) -> dim feat <> 4 ->
   contrast_preparations feat mask use_avg_pool scale_min_ratio num_classes
     ignore_index = Raise ValueError) /\
  (forall B B' C H W,
     shape feat = [B; C; H; W] -> C <> 0 ->
     ishape mask = [B'; 1; H; W] \/ ishape mask = [B'; H; W] ->
     B' * H * W <> B * H * W ->
     contrast_preparations feat mask use_avg_pool scale_min_ratio
       num_classes ignore_index = Raise AssertionError).
Proof.
  split.
  - intros Hl Hd. unfold contrast_preparations.
    rewrite Hl, list_eqb_refl. cbn [negb bind].
    unfold dim in Hd.
    destruct (shape feat) as [|B [|C [|H [|W [|]]]]]; try reflexivity.
    simpl in Hd. congruence.
  - intros B B' C H W Hfeat HC Hmask Hne.
    unfold contrast_preparations.
    assert (Hl2 : last2 (ishape mask) = last2 (shape feat)).
    { rewrite Hfeat. destruct Hmask as [-> | ->]; reflexivity. }
    rewrite Hl2, list_eqb_refl. cbn [negb bind].
    assert (Hch : (idim mask =? 4) && (1 <? isize mask 1) = false).
    { unfold idim, isize. destruct Hmask as [-> | ->]; reflexivity. }
    rewrite Hch, Hfeat. unfold flatten_tokens.
    destruct (C =? 0) eqn:EC; [apply Nat.eqb_eq in EC; contradiction|].
    cbn [bind]. unfold nrows. cbn [rows]. rewrite length_tabulate.
    replace (B * H * W =? prod_list (ishape mask)) with false; [reflexivity|].
    symmetry. apply Nat.eqb_neq.
    destruct Hmask as [-> | ->]; simpl; lia.
Qed.

Lemma contrast_preparations_rejects_witness :
  contrast_preparations
    (@mkT Q [1; 2; 2; 2] [1; 2; 3; 4; 10; 20; 30; 40]%Q true)
    (mkI [2; 1; 2; 2] [0; 1; 1; 2; 0; 1; 1; 2]%Z) true (3 # 4)%Q 19 255%Z
  = Raise AssertionError.
Proof.
  apply (proj2 (contrast_preparations_rejects
    (@mkT Q [1; 2; 2; 2] [1; 2; 3; 4; 10; 20; 30; 40]%Q true)
    (mkI [2; 1; 2; 2] [0; 1; 1; 2; 0; 1; 1; 2]%Z) true (3 # 4)%Q 19 255%Z)
    1 2 2 2 2).
  - reflexivity.
  - discriminate.
  - left. reflexivity.
  - discriminate.
Defined.

(** ** Prototype logits *)

Lemma map2_const_r {A B C} (g : A -> C) : forall (l : list A) (m : list B),
  length l = length m -> map2 (fun x _ => g x) l m = map g l.
Proof.
  induction l as [|a l IH]; intros [|b m] H; simpl in *; try discriminate;
    [reflexivity|].
  f_equal. apply IH. lia.
Qed.

Section ProtoFacts.
Open Scope R_scope.

Lemma member_le_ssum (l : list R) (y : nat) :
  Forall (fun x => 0 <= x) l -> (y < length l)%nat -> nth y l 0 <= ssum l.
Proof.
  revert y. induction l as [|x l IH]; intros y Hl Hy; simpl in Hy; [lia|].
  pose proof (Forall_inv Hl) as Hx. pose proof (Forall_inv_tail Hl) as Ht.
  pose proof (ssum_nonneg l Ht) as Hs.
  destruct y as [|y]; simpl.
  - lra.
  - specialize (IH y Ht ltac:(lia)). lra.
Qed.

(** The logarithm of a softmax entry is not positive. *)
Lemma log_softmax_entry_nonpos (l : list R) (y : nat) :
  (y < length l)%nat -> ln (exp (nth y l 0) / ssum (map exp l)) <= 0.
Proof.
  intros Hy.
  assert (Hl : l <> []) by (destruct l; [simpl in Hy; lia | discriminate]).
  pose proof (ssum_exp_pos l Hl) as Hs.
  pose proof (exp_pos (nth y l 0)) as He.
  assert (Hle : exp (nth y l 0) <= ssum (map exp l)).
  { rewrite <- (nth_map_in exp l y 0 0) by exact Hy.
    apply member_le_ssum; [|rewrite length_map; exact Hy].
    apply Forall_map. apply Forall_forall. intros x _.
    left. apply exp_pos. }
  apply Rle_trans with (ln 1); [|rewrite ln_1; lra].
  assert (Hq : 0 < exp (nth y l 0) / ssum (map exp l))
    by (apply Rdiv_lt_0_compat; assumption).
  assert (Hq1 : exp (nth y l 0) / ssum (map exp l) <= 1).
  { apply (Rmult_le_reg_r (ssum (map exp l))); [exact Hs|].
    unfold Rdiv. rewrite Rmult_assoc, Rinv_l by lra. lra. }
  destruct Hq1 as [Hlt | ->]; [|lra].
  left. apply ln_increasing; assumption.
Qed.

Lemma proto_token_nonneg (mean : list (list R)) (temp : R)
    (cw : option (list R)) (f : list R) (y : Z) :
  (0 <= y < Z.of_nat (length mean))%Z ->
  match cw with
  | Some w => Forall (fun x => 0 <= x) w
  | None => True
  end ->
  0 <= proto_token mean temp cw f y.
Proof.
  intros Hy Hw. unfold proto_token, cross_entropy_term.
  assert (Hln : ln (exp (nth (Z.to_nat y) (proto_logits mean temp f) 0)
                    / ssum (map exp (proto_logits mean temp f))) <= 0).
  { apply log_softmax_entry_nonpos. unfold proto_logits.
    rewrite length_map. lia. }
  assert (Hc : 0 <= class_weight_of cw (Z.to_nat y)).
  { unfold class_weight_of. destruct cw as [w|]; [|lra].
    destruct (Nat.lt_ge_cases (Z.to_nat y) (length w)) as [Hlt | Hge].
    - rewrite Forall_forall in Hw. apply Hw. apply nth_In. exact Hlt.
    - rewrite nth_overflow by exact Hge. lra. }
  set (c := class_weight_of cw (Z.to_nat y)) in *.
  set (q := ln _) in *. nra.
Qed.

Lemma proto_classification_closed_form (feat : matrix R) (mask : list Z)
    (mn : matrix R) (temp : R) (weight : option (tensor R))
    (cw : option (list R)) (reduction : string) (avg_factor : option R)
    (ignore_index : Z) :
  nrows feat = length mask -> wf_matrix mn -> ncols feat = ncols mn ->
  match cw with Some w => length w = nrows mn | None => True end ->
  Forall (fun y => y <> ignore_index /\ (0 <= y < Z.of_nat (nrows mn))%Z)
         mask ->
  proto_classification feat mask mn temp weight cw reduction avg_factor
    ignore_index
  = weight_reduce_loss
      (vector_tensor (map2 (proto_token (rows mn) temp cw) (rows feat) mask)
                     (mgrad feat || mgrad mn))
      weight reduction avg_factor.
Proof.
  intros Hn Hmn Hc Hcw Hlab. unfold proto_classification.
  rewrite (mm_permute10 feat mn Hmn Hc). cbn [bind].
  rewrite cross_entropy_in_range; cycle 1.
  { unfold wf_matrix, mmap; simpl. rewrite map_map. apply Forall_map.
    apply Forall_forall. intros f _. rewrite !length_map. reflexivity. }
  { unfold nrows, mmap; simpl. rewrite !length_map. exact Hn. }
  { exact Hcw. }
  { exact Hlab. }
  cbn [bind]. f_equal. unfold mmap. cbn [rows mgrad]. f_equal.
  rewrite map_combine, !map_map, map2_map_l.
  apply map2_ext. intros f y. cbn [fst snd].
  unfold proto_token, proto_logits. rewrite map_map. reflexivity.
Qed.

End ProtoFacts.

(** X15.  Over the reals, on well-shaped prototypes and surviving labels
    that are class indices: with reduction 'none', no weight and no
    regulariser, [proto_contrastive] returns one entry per surviving token,
    the class-weighted cross-entropy of the logits f . mean_c / temperature
    against the token's label; without class weights, or with non-negative
    ones, no entry is negative. *)
Theorem proto_contrastive_token_loss {PF : Platform}
    (feat : pyarg (tensor R)) (ft : tensor R) (mask : itensor)
    (mean : pyarg (matrix R)) (mn : matrix R)
    (index : Z) (contrast_temp : R) (use_avg_pool : bool)
    (scale_min_ratio : R) (num_classes : nat)
    (class_weight : option (list R)) (ignore_index : Z)
    (feat' : matrix R) (mask' : list Z) :
  wf_itensor mask ->
  contrast_preparations ft mask use_avg_pool scale_min_ratio num_classes
    ignore_index = Ok (feat', mask') ->
  picked_list index feat ft -> picked index mean mn ->
  requires_grad ft = true -> mgrad mn = false ->
  wf_matrix mn -> ncols feat' = ncols mn -> nrows feat' <> 0 ->
  match class_weight with
  | Some w => length w = nrows mn /\ Forall (fun x => (0 <= x)%R) w
  | None => True
  end ->
  Forall (fun y => (0 <= y < Z.of_nat (nrows mn))%Z) mask' ->
  proto_contrastive feat mask mean index contrast_temp use_avg_pool
    scale_min_ratio num_classes None class_weight "none" None 0%R
    ignore_index
  = Ok (vector_tensor
          (map2 (proto_token (rows mn) contrast_temp class_weight)
                (rows feat') mask') true) /\
  Forall (fun x => (0 <= x)%R)
         (map2 (proto_token (rows mn) contrast_temp class_weight)
               (rows feat') mask').
Proof.
  intros Hwfm Hprep Hf Hm Hgrad Hmg Hmn Hc Hsurv Hcw Hlab.
  destruct (contrast_preparations_inv ft mask use_avg_pool scale_min_ratio
              num_classes ignore_index feat' mask' Hwfm Hprep)
    as (_ & Hg & Hwf & Hn & Hig).
  rewrite Hgrad in Hg.
  split.
  - unfold proto_contrastive.
    rewrite (select_feat_mean index feat mean ft mn Hf Hm).
    cbn [bind fst snd unwrap]. rewrite Hprep.
    cbn [bind fst snd is_none is_tensor negb assert unwrap].
    rewrite Hmg, Hg. cbn [negb assert bind].
    destruct (nrows feat' =? 0) eqn:E;
      [apply Nat.eqb_eq in E; contradiction|].
    rewrite proto_classification_closed_form; try assumption.
    + rewrite Hg. cbn [orb]. unfold weight_reduce_loss, reduce_loss.
      cbn [bind get_enum String.eqb Ascii.eqb Bool.eqb Nat.eqb].
      unfold add_regulariser. rewrite sltb_zero_zero. reflexivity.
    + destruct class_weight as [w|]; [apply Hcw|exact I].
    + rewrite Forall_forall in *. intros y Hy. split; auto.
  - apply Forall_forall. intros x Hx.
    assert (G : forall (l : list (list R)) (m : list Z),
              Forall (fun y => (0 <= y < Z.of_nat (nrows mn))%Z) m ->
              Forall (fun x => (0 <= x)%R)
                (map2 (proto_token (rows mn) contrast_temp class_weight) l m)).
    { induction l as [|f l IH]; intros [|y m] Hm'; simpl; try constructor.
      - apply proto_token_nonneg.
        + exact (Forall_inv Hm').
        + destruct class_weight as [w|]; [apply Hcw|exact I].
      - apply IH. exact (Forall_inv_tail Hm'). }
    specialize (G (rows feat') mask' Hlab).
    rewrite Forall_forall in G. apply G. exact Hx.
Qed.

Lemma proto_contrastive_token_loss_witness :
  let ft := @mkT R [1; 1; 1; 2] [1; 2]%R true in
  let mask := mkI [1; 1; 1; 2] [255; 1]%Z in
  let mn := @mkM R 1 [[1]; [2]]%R false in
  proto_contrastive (PyOne ft) mask (PyOne mn) (-1) 100%R true 1%R 2 None
    None "none" None 0%R 255%Z
  = Ok (vector_tensor [proto_token (rows mn) 100%R None [2%R] 1%Z] true) /\
  Forall (fun x => (0 <= x)%R) [proto_token (rows mn) 100%R None [2%R] 1%Z].
Proof.
  cbv zeta.
  assert (Hmn : wf_matrix (@mkM R 1 [[1]; [2]]%R false))
    by (repeat constructor).
  assert (Hlab : Forall (fun y => (0 <= y < 2)%Z) [1%Z])
    by (repeat constructor; lia).
  assert (Hs : nrows (@mkM R 1 [[2]]%R true) <> 0) by (simpl; discriminate).
  exact (proto_contrastive_token_loss
    (PyOne (@mkT R [1; 1; 1; 2] [1; 2]%R true))
    (@mkT R [1; 1; 1; 2] [1; 2]%R true)
    (mkI [1; 1; 1; 2] [255; 1]%Z)
    (PyOne (@mkM R 1 [[1]; [2]]%R false))
    (@mkM R 1 [[1]; [2]]%R false)
    (-1) 100%R true 1%R 2 None 255%Z
    (@mkM R 1 [[2]]%R true) [1%Z]
    eq_refl eq_refl (or_introl (conj eq_refl eq_refl))
    (or_introl (conj eq_refl eq_refl)) eq_refl eq_refl Hmn eq_refl Hs I Hlab).
Defined.

(** ** Without covariance *)

Section ZeroRatio.
Open Scope R_scope.

Lemma dot_zero_row (t : R) : forall u w : list R,
  dot u (map (fun v => v * 0 / t) w) = 0.
Proof.
  unfold dot.
  induction u as [|x u IH]; intros [|y w]; simpl; try reflexivity.
  rewrite IH. unfold Rdiv. ring.
Qed.

Lemma dist_token_zero_ratio (mean cov : list (list R)) (temp : R)
    (cw : option (list R)) (f : list R) (y : Z) :
  length mean = length cov ->
  dist_token mean cov 0 temp cw f y = proto_token mean temp cw f y.
Proof.
  intros Hl. unfold dist_token, proto_token.
  assert (E1 : dist_logits mean cov 0 temp f = proto_logits mean temp f).
  { unfold dist_logits, proto_logits, scaled_covariance.
    rewrite <- (map_id mean) at 1. rewrite map2_map_map.
    rewrite <- (map2_const_r (fun mu => dot f mu / temp) mean cov Hl).
    apply map2_ext. intros mu sg. rewrite dot_zero_row.
    unfold id, Rdiv. ring. }
  assert (E2 : in_class_term cov 0 temp f (Z.to_nat y) = 0).
  { unfold in_class_term, scaled_covariance.
    change (@nil R) with (map (fun v => v * 0 / temp) (@nil R)).
    rewrite map_nth, dot_zero_row. unfold Rdiv. ring. }
  rewrite E1, E2. ring.
Qed.

End ZeroRatio.

Section GradFlags.
Context {F : Type} {SF : Scalar F} {TF : Transcendental F}.

Lemma mm_grad (a b c : matrix F) :
  mm a b = Ok c -> mgrad c = mgrad a || mgrad b.
Proof.
  unfold mm. destruct (ncols a =? nrows b); [|discriminate].
  intros E. injection E as <-. reflexivity.
Qed.

Lemma mzip_grad (f : F -> F -> F) (a b c : matrix F) :
  mzip f a b = Ok c -> mgrad c = mgrad a || mgrad b.
Proof.
  unfold mzip.
  destruct (bsize (nrows a) (nrows b)); [|discriminate].
  destruct (bsize (ncols a) (ncols b)); [|discriminate].
  destruct (bzip _ (rows a) (rows b)); [|discriminate].
  intros E. injection E as <-. reflexivity.
Qed.

Lemma dist_token_loss_grad (feat : matrix F) (mask : list Z)
    (mn cv : matrix F) (ratio temp : F) (cw : option (list F))
    (ignore_index : Z) (t : tensor F) :
  dist_token_loss feat mask mn cv ratio temp cw ignore_index = Ok t ->
  requires_grad t = (mgrad feat || mgrad mn) || (mgrad feat || mgrad cv).
Proof.
  unfold dist_token_loss.
  destruct (mm feat (permute10 mn)) as [t1|] eqn:E1; [|discriminate].
  cbn [bind].
  destruct (mm (mmap pow2 feat) _) as [t2|] eqn:E2; [|discriminate].
  cbn [bind].
  destruct (mzip sadd t1 _) as [lg|] eqn:E3; [|discriminate].
  cbn [bind].
  destruct (cross_entropy _ _ _ _) as [ce|]; [|discriminate].
  cbn [bind].
  destruct (mindex _ _) as [cp|]; [|discriminate].
  cbn [bind].
  destruct (mzip smul _ cp) as [sq|]; [|discriminate].
  cbn [bind].
  destruct (bzip sadd ce _) as [l|]; [|discriminate].
  cbn [bind]. intros E. injection E as <-.
  unfold vector_tensor. cbn [requires_grad mmap mgrad].
  rewrite (mzip_grad _ _ _ _ E3). cbn [mmap mgrad].
  rewrite (mm_grad _ _ _ E1), (mm_grad _ _ _ E2). reflexivity.
Qed.

End GradFlags.

(** X16.  Over the reals, on well-shaped prototypes and surviving labels
    that are class indices: with [ratio = 0] the covariance plays no part,
    and [dist_contrastive] returns what [proto_contrastive] returns on the
    same features, labels and means, whatever the weight, the reduction,
    [avg_factor] and the regulariser weight. *)
Theorem dist_contrastive_zero_ratio {PF : Platform}
    (feat : pyarg (tensor R)) (ft : tensor R) (mask : itensor)
    (mean covariance : pyarg (matrix R)) (mn cv : matrix R)
    (index : Z) (contrast_temp : R) (use_avg_pool : bool)
    (scale_min_ratio : R) (num_classes : nat) (weight : option (tensor R))
    (class_weight : option (list R)) (reduction : string)
    (avg_factor : option R) (reg_weight : R) (ignore_index : Z)
    (feat' : matrix R) (mask' : list Z) :
  wf_itensor mask ->
  contrast_preparations ft mask use_avg_pool scale_min_ratio num_classes
    ignore_index = Ok (feat', mask') ->
  picked_list index feat ft -> picked index mean mn ->
  picked index covariance cv ->
  requires_grad ft = true -> mgrad mn = false -> mgrad cv = false ->
  wf_matrix mn -> wf_matrix cv ->
  ncols feat' = ncols mn -> ncols feat' = ncols cv -> nrows mn = nrows cv ->
  match class_weight with
  | Some w => length w = nrows mn
  | None => True
  end ->
  Forall (fun y => (0 <= y < Z.of_nat (nrows mn))%Z) mask' ->
  dist_contrastive feat mask mean covariance 0%R index contrast_temp
    use_avg_pool scale_min_ratio num_classes weight class_weight reduction
    avg_factor reg_weight ignore_index
  = proto_contrastive feat mask mean index contrast_temp use_avg_pool
      scale_min_ratio num_classes weight class_weight reduction avg_factor
      reg_weight ignore_index.
Proof.
  intros Hwfm Hprep Hf Hm Hcv' Hgrad Hmg Hcg Hmn Hcv Hc1 Hc2 Hr Hcw Hlab.
  destruct (contrast_preparations_inv ft mask use_avg_pool scale_min_ratio
              num_classes ignore_index feat' mask' Hwfm Hprep)
    as (_ & Hg & Hwf & Hn & Hig).
  rewrite Hgrad in Hg.
  assert (Hlab' : Forall (fun y => y <> ignore_index /\
                                   (0 <= y < Z.of_nat (nrows mn))%Z) mask').
  { rewrite Forall_forall in *. intros y Hy. split; auto. }
  unfold dist_contrastive, proto_contrastive.
  rewrite (select_feat_mean_cov index feat mean covariance ft mn cv Hf Hm Hcv').
  rewrite (select_feat_mean index feat mean ft mn Hf Hm).
  cbn [bind fst snd unwrap]. rewrite Hprep.
  cbn [bind fst snd is_none is_tensor negb assert unwrap].
  rewrite Hmg, Hcg, Hg. cbn [negb assert bind].
  destruct (nrows feat' =? 0); [reflexivity|].
  rewrite proto_classification_closed_form by assumption.
  destruct (dist_token_loss_closed_form feat' mask' mn cv 0%R contrast_temp
              class_weight ignore_index Hwf Hn Hmn Hcv Hc1 Hc2 Hr Hcw Hlab')
    as [g Hloss].
  pose proof (dist_token_loss_grad _ _ _ _ _ _ _ _ _ Hloss) as Eg.
  cbn [vector_tensor requires_grad] in Eg. rewrite Hg in Eg.
  cbn [orb] in Eg. subst g.
  rewrite Hloss. cbn [bind]. rewrite Hg. cbn [orb].
  rewrite (map2_ext (dist_token (rows mn) (rows cv) 0%R contrast_temp
                       class_weight)
                    (proto_token (rows mn) contrast_temp class_weight)).
  - reflexivity.
  - intros f y. apply dist_token_zero_ratio. exact Hr.
Qed.

Lemma dist_contrastive_zero_ratio_witness :
  let ft := @mkT R [1; 1; 1; 2] [1; 2]%R true in
  let mask := mkI [1; 1; 1; 2] [255; 1]%Z in
  let mn := @mkM R 1 [[1]; [2]]%R false in
  let cv := @mkM R 1 [[3]; [4]]%R false in
  dist_contrastive (PyOne ft) mask (PyOne mn) (PyOne cv) 0%R (-1) 100%R
    true 1%R 2 None None "mean" None 0%R 255%Z
  = proto_contrastive (PyOne ft) mask (PyOne mn) (-1) 100%R true 1%R 2 None
      None "mean" None 0%R 255%Z.
Proof.
  cbv zeta.
  assert (Hmn : wf_matrix (@mkM R 1 [[1]; [2]]%R false))
    by (repeat constructor).
  assert (Hcv : wf_matrix (@mkM R 1 [[3]; [4]]%R false))
    by (repeat constructor).
  assert (Hlab : Forall (fun y => (0 <= y < 2)%Z) [1%Z])
    by (repeat constructor; lia).
  exact (dist_contrastive_zero_ratio
    (PyOne (@mkT R [1; 1; 1; 2] [1; 2]%R true))
    (@mkT R [1; 1; 1; 2] [1; 2]%R true)
    (mkI [1; 1; 1; 2] [255; 1]%Z)
    (PyOne (@mkM R 1 [[1]; [2]]%R false))
    (PyOne (@mkM R 1 [[3]; [4]]%R false))
    (@mkM R 1 [[1]; [2]]%R false) (@mkM R 1 [[3]; [4]]%R false)
    (-1) 100%R true 1%R 2 None None "mean" None 0%R 255%Z
    (@mkM R 1 [[2]]%R true) [1%Z]
    eq_refl eq_refl (or_introl (conj eq_refl eq_refl))
    (or_introl (conj eq_refl eq_refl)) (or_introl (conj eq_refl eq_refl))
    eq_refl eq_refl eq_refl Hmn Hcv eq_refl eq_refl eq_refl I Hlab).
Defined.

(** ** Labels outside the classes *)

Lemma mapM_raise {A B} (f : A -> result B) (e : exn) : forall l : list A,
  Forall (fun a => (exists b, f a = Ok b) \/ f a = Raise e) l ->
  Exists (fun a => f a = Raise e) l -> mapM f l = Raise e.
Proof.
  induction l as [|a l IH]; intros Hall Hex; [inversion Hex|].
  pose proof (Forall_inv Hall) as Ha.
  pose proof (Forall_inv_tail Hall) as Hl.
  cbn [mapM]. destruct Ha as [[b Hb] | Ha].
  - rewrite Hb. cbn [bind]. rewrite IH; [reflexivity|exact Hl|].
    apply Exists_cons in Hex as [Hex|Hex]; [congruence|exact Hex].
  - rewrite Ha. reflexivity.
Qed.

Lemma Exists_combine_r {A B} (P : B -> Prop) : forall (l : list A)
    (m : list B),
  length l = length m -> Exists P m ->
  Exists (fun p => P (snd p)) (combine l m).
Proof.
  induction l as [|a l IH]; intros [|b m] Hl Hex; simpl in *;
    try discriminate; [inversion Hex|].
  apply Exists_cons in Hex as [Hex|Hex].
  - left. exact Hex.
  - right. apply IH; [lia|exact Hex].
Qed.

Section OutOfRange.
Context {F : Type} {SF : Scalar F} {TF : Transcendental F}.

Lemma cross_entropy_out_of_range (input : matrix F) (target : list Z)
    (cw : option (list F)) (ignore_index : Z) :
  nrows input = length target ->
  match cw with Some w => length w = ncols input | None => True end ->
  Forall (fun t => t <> ignore_index) target ->
  Exists (fun t => (t < 0)%Z \/ (Z.of_nat (ncols input) <= t)%Z) target ->
  cross_entropy input target cw ignore_index = Raise IndexError.
Proof.
  intros Hn Hcw Hig Hex. unfold cross_entropy.
  rewrite Hn, Nat.eqb_refl. cbn [negb].
  assert (Ew : match cw with
               | Some w => negb (length w =? ncols input)
               | None => false
               end = false).
  { destruct cw as [w|]; [|reflexivity]. rewrite Hcw, Nat.eqb_refl.
    reflexivity. }
  rewrite Ew. apply mapM_raise.
  - apply Forall_forall. intros [row t] Hin. cbn [fst snd].
    apply in_combine_r in Hin. rewrite Forall_forall in Hig.
    specialize (Hig t Hin). unfold cross_entropy_entry.
    destruct (t =? ignore_index)%Z eqn:E;
      [apply Z.eqb_eq in E; contradiction|].
    destruct ((t <? 0)%Z || (Z.of_nat (ncols input) <=? t)%Z);
      [right; reflexivity|].
    left. destruct cw; eexists; reflexivity.
  - unfold nrows in Hn.
    assert (Hex' : Exists (fun t => t <> ignore_index /\
                     ((t < 0)%Z \/ (Z.of_nat (ncols input) <= t)%Z)) target).
    { apply Exists_exists in Hex as (t & Hin & Ht).
      apply Exists_exists. exists t. rewrite Forall_forall in Hig.
      split; [exact Hin|]. split; [apply Hig; exact Hin|exact Ht]. }
    pose proof (Exists_combine_r _ (rows input) target Hn Hex') as H.
    eapply Exists_impl; [|exact H]. intros [row t] [Hne Ht].
    cbn [fst snd] in *. unfold cross_entropy_entry.
    destruct (t =? ignore_index)%Z eqn:E;
      [apply Z.eqb_eq in E; contradiction|].
    replace ((t <? 0)%Z || (Z.of_nat (ncols input) <=? t)%Z) with true;
      [reflexivity|].
    symmetry. apply orb_true_iff.
    destruct Ht as [Ht|Ht]; [left; apply Z.ltb_lt | right; apply Z.leb_le];
      exact Ht.
Qed.

End OutOfRange.

(** X17.  A surviving label that is not a class index (negative, or not
    below the number of prototypes) makes [proto_contrastive] and
    [dist_contrastive] raise [IndexError], whatever the weight and the
    reduction; the prototypes only need the channel count of the
    features. *)
Theorem label_out_of_range_raises {PF : Platform} {F : Type} {SF : Scalar F}
    {TF : Transcendental F}
    (feat : pyarg (tensor F)) (ft : tensor F) (mask : itensor)
    (mean covariance : pyarg (matrix F)) (mn cv : matrix F)
    (ratio : F) (index : Z) (contrast_temp : F) (use_avg_pool : bool)
    (scale_min_ratio : F) (num_classes : nat) (weight : option (tensor F))
    (class_weight : option (list F)) (reduction : string)
    (avg_factor : option F) (reg_weight : F) (ignore_index : Z)
    (feat' : matrix F) (mask' : list Z) :
  wf_itensor mask ->
  contrast_preparations ft mask use_avg_pool scale_min_ratio num_classes
    ignore_index = Ok (feat', mask') ->
  picked_list index feat ft -> picked index mean mn ->
  requires_grad ft = true -> mgrad mn = false ->
  ncols feat' = ncols mn ->
  match class_weight with
  | Some w => length w = nrows mn
  | None => True
  end ->
  Exists (fun y => (y < 0)%Z \/ (Z.of_nat (nrows mn) <= y)%Z) mask' ->
  proto_contrastive feat mask mean index contrast_temp use_avg_pool
    scale_min_ratio num_classes weight class_weight reduction avg_factor
    reg_weight ignore_index = Raise IndexError /\
  (picked index covariance cv -> mgrad cv = false ->
   ncols feat' = ncols cv -> nrows cv = nrows mn ->
   dist_contrastive feat mask mean covariance ratio index contrast_temp
     use_avg_pool scale_min_ratio num_classes weight class_weight reduction
     avg_factor reg_weight ignore_index = Raise IndexError).
Proof.
  intros Hwfm Hprep Hf Hm Hgrad Hmg Hc Hcw Hex.
  destruct (contrast_preparations_inv ft mask use_avg_pool scale_min_ratio
              num_classes ignore_index feat' mask' Hwfm Hprep)
    as (_ & Hg & Hwf & Hn & Hig).
  rewrite Hgrad in Hg.
  assert (Hsurv : (nrows feat' =? 0) = false).
  { apply Nat.eqb_neq. rewrite Hn. destruct mask'; [inversion Hex|].
    simpl. discriminate. }
  split.
  - unfold proto_contrastive.
    rewrite (select_feat_mean index feat mean ft mn Hf Hm).
    cbn [bind fst snd unwrap]. rewrite Hprep.
    cbn [bind fst snd is_none is_tensor negb assert unwrap].
    rewrite Hmg, Hg, Hsurv. cbn [negb assert bind].
    unfold proto_classification, mm.
    rewrite nrows_permute10, Hc, Nat.eqb_refl. cbn [bind].
    rewrite cross_entropy_out_of_range; [reflexivity| | | |].
    + unfold nrows, mmap. cbn [rows]. rewrite !length_map. exact Hn.
    + exact Hcw.
    + exact Hig.
    + exact Hex.
  - intros Hcv Hcg Hc2 Hr.
    unfold dist_contrastive.
    rewrite (select_feat_mean_cov index feat mean covariance ft mn cv
               Hf Hm Hcv).
    cbn [bind fst snd unwrap]. rewrite Hprep.
    cbn [bind fst snd is_none is_tensor negb assert unwrap].
    rewrite Hmg, Hcg, Hg, Hsurv. cbn [negb assert bind].
    unfold dist_token_loss, mm.
    rewrite !nrows_permute10. cbn [mmap ncols].
    rewrite <- Hc, <- Hc2, !Nat.eqb_refl. cbn [bind].
    unfold mzip, nrows. cbn [rows ncols permute10 mmap].
    rewrite !length_map.
    assert (Hrs : forall f, nrows (mmap f cv) = nrows mn).
    { intros f. unfold nrows, mmap. cbn [rows]. rewrite length_map.
      exact Hr. }
    rewrite !Hrs, !bsize_same.
    rewrite bzip_same_length by (rewrite !length_map; reflexivity).
    cbn [bind].
    rewrite cross_entropy_out_of_range; [reflexivity| | | |].
    + unfold nrows, mmap. cbn [rows].
      rewrite length_map, length_map2, !length_map. unfold nrows in Hn. lia.
    + exact Hcw.
    + exact Hig.
    + exact Hex.
Qed.

Lemma label_out_of_range_raises_witness :
  let ft := @mkT R [1; 1; 1; 2] [1; 2]%R true in
  let mask := mkI [1; 1; 1; 2] [255; 5]%Z in
  let mn := @mkM R 1 [[1]; [2]]%R false in
  proto_contrastive (PyOne ft) mask (PyOne mn) (-1) 100%R true 1%R 2 None
    None "mean" None 0%R 255%Z = Raise IndexError.
Proof.
  cbv zeta.
  assert (Hex : Exists (fun y => (y < 0)%Z \/ (Z.of_nat 2 <= y)%Z) [5%Z])
    by (left; right; lia).
  exact (proj1 (label_out_of_range_raises
    (PyOne (@mkT R [1; 1; 1; 2] [1; 2]%R true))
    (@mkT R [1; 1; 1; 2] [1; 2]%R true)
    (mkI [1; 1; 1; 2] [255; 5]%Z)
    (PyOne (@mkM R 1 [[1]; [2]]%R false)) PyNone
    (@mkM R 1 [[1]; [2]]%R false) (@mkM R 1 [[1]; [2]]%R false)
    1%R (-1) 100%R true 1%R 2 None None "mean" None 0%R 255%Z
    (@mkM R 1 [[2]]%R true) [5%Z]
    eq_refl eq_refl (or_introl (conj eq_refl eq_refl))
    (or_introl (conj eq_refl eq_refl)) eq_refl eq_refl eq_refl I Hex)).
Defined.

(** ** What [index] does *)

(** X18.  A non-negative [index] only selects: each loss called on lists
    (or dicts) with [index] returns what it returns on the selected
    entries themselves with the default [index = -1].  The bank variant
    looks [mean] up only when the regulariser is on. *)
Theorem index_selects_branch {PF : Platform} {F : Type} {SF : Scalar F}
    {TF : Transcendental F}
    (feat : pyarg (tensor F)) (ft : tensor F) (mask : itensor)
    (mean covariance : pyarg (matrix F)) (mn cv : matrix F)
    (bank : pyarg (pyarg (list (matrix F)))) (bk : pyarg (list (matrix F)))
    (ratio : F) (index : Z) (contrast_temp : F) (use_avg_pool : bool)
    (scale_min_ratio : F) (num_classes : nat) (weight : option (tensor F))
    (class_weight : option (list F)) (reduction : string)
    (avg_factor : option F) (reg_weight : F) (ignore_index : Z) :
  picked_list index feat ft -> picked index mean mn ->
  proto_contrastive feat mask mean index contrast_temp use_avg_pool
    scale_min_ratio num_classes weight class_weight reduction avg_factor
    reg_weight ignore_index
  = proto_contrastive (PyOne ft) mask (PyOne mn) (-1) contrast_temp
      use_avg_pool scale_min_ratio num_classes weight class_weight reduction
      avg_factor reg_weight ignore_index /\
  (picked index covariance cv ->
   dist_contrastive feat mask mean covariance ratio index contrast_temp
     use_avg_pool scale_min_ratio num_classes weight class_weight reduction
     avg_factor reg_weight ignore_index
   = dist_contrastive (PyOne ft) mask (PyOne mn) (PyOne cv) ratio (-1)
       contrast_temp use_avg_pool scale_min_ratio num_classes weight
       class_weight reduction avg_factor reg_weight ignore_index) /\
  (picked_bank index bank bk ->
   bank_contrastive feat mask bank mean index contrast_temp use_avg_pool
     scale_min_ratio num_classes weight reduction avg_factor reg_weight
     ignore_index
   = bank_contrastive (PyOne ft) mask (PyOne bk)
       (if sltb szero reg_weight then PyOne mn else mean) (-1)
       contrast_temp use_avg_pool scale_min_ratio num_classes weight
       reduction avg_factor reg_weight ignore_index).
Proof.
  intros Hf Hm.
  assert (Hf1 : picked_list (-1) (PyOne ft) ft)
    by (left; split; reflexivity).
  assert (Hm1 : picked (-1) (PyOne mn) mn) by (left; split; reflexivity).
  split; [|split].
  - unfold proto_contrastive.
    rewrite (select_feat_mean index feat mean ft mn Hf Hm).
    reflexivity.
  - intros Hc. unfold dist_contrastive.
    rewrite (select_feat_mean_cov index feat mean covariance ft mn cv
               Hf Hm Hc).
    reflexivity.
  - intros Hb. unfold bank_contrastive.
    destruct (sltb szero reg_weight) eqn:E.
    + pose proof (select_feat_bank_mean index feat bank mean reg_weight ft bk
                    mn Hf Hb Hm E) as H.
      rewrite E in H. rewrite H. reflexivity.
    + pose proof (select_feat_bank index feat bank mean reg_weight ft bk
                    Hf Hb E) as H.
      rewrite E in H. rewrite H. reflexivity.
Qed.

Lemma index_selects_branch_witness :
  let ft := @mkT R [1; 1; 1; 2] [1; 2]%R true in
  let mask := mkI [1; 1; 1; 2] [255; 1]%Z in
  let mn := @mkM R 1 [[1]; [2]]%R false in
  proto_contrastive (PyList [ft; ft]) mask (PyDict [(1%Z, mn)]) 1 100%R true
    1%R 2 None None "mean" None 0%R 255%Z
  = proto_contrastive (PyOne ft) mask (PyOne mn) (-1) 100%R true 1%R 2 None
      None "mean" None 0%R 255%Z.
Proof.
  cbv zeta.
  assert (Hf : picked_list 1
                 (PyList [@mkT R [1; 1; 1; 2] [1; 2]%R true;
                          @mkT R [1; 1; 1; 2] [1; 2]%R true])
                 (@mkT R [1; 1; 1; 2] [1; 2]%R true)).
  { right. split; [lia|]. split; reflexivity. }
  assert (Hm : picked 1 (PyDict [(1%Z, @mkM R 1 [[1]; [2]]%R false)])
                 (@mkM R 1 [[1]; [2]]%R false)).
  { right. split; [lia|]. split; reflexivity. }
  exact (proj1 (index_selects_branch
    (PyList [@mkT R [1; 1; 1; 2] [1; 2]%R true;
             @mkT R [1; 1; 1; 2] [1; 2]%R true])
    (@mkT R [1; 1; 1; 2] [1; 2]%R true)
    (mkI [1; 1; 1; 2] [255; 1]%Z)
    (PyDict [(1%Z, @mkM R 1 [[1]; [2]]%R false)]) PyNone
    (@mkM R 1 [[1]; [2]]%R false) (@mkM R 1 [[1]; [2]]%R false)
    PyNone PyNone
    1%R 1 100%R true 1%R 2 None None "mean" None 0%R 255%Z Hf Hm)).
Defined.

(** ** The value of the regulariser *)

Section RegulariserBound.
Open Scope R_scope.

Lemma ssum_map_le {A} (f g : A -> R) (l : list A) :
  Forall (fun x => f x <= g x) l -> ssum (map f l) <= ssum (map g l).
Proof.
  induction 1 as [|x l Hx Hl IH]; simpl; lra.
Qed.

Lemma ssum_map_affine {A} (f : A -> R) (a b : R) (l : list A) :
  ssum (map (fun x => a * f x + b) l)
  = a * ssum (map f l) + INR (length l) * b.
Proof.
  induction l as [|x l IH]; [simpl; ring|].
  cbn [map ssum fold_right length]. fold (ssum (map f l)).
  fold (ssum (map (fun x => a * f x + b) l)).
  rewrite IH, S_INR. simpl. ring.
Qed.

Lemma ssum_map_div {A} (f : A -> R) (s : R) (l : list A) :
  ssum (map (fun x => f x / s) l) = ssum (map f l) / s.
Proof.
  induction l as [|x l IH]; simpl; [unfold Rdiv; ring|].
  fold (ssum (map (fun x => f x / s) l)). fold (ssum (map f l)).
  rewrite IH. unfold Rdiv. ring.
Qed.

Lemma ln_le_minus_one (x : R) : 0 < x -> ln x <= x - 1.
Proof.
  intros Hx. pose proof (exp_ineq1_le (ln x)) as H.
  rewrite exp_ln in H by exact Hx. lra.
Qed.

Lemma ln_scaled (c p : R) : 0 < c -> 0 < p -> ln p <= c * p - 1 - ln c.
Proof.
  intros Hc Hp.
  pose proof (ln_le_minus_one (c * p) (Rmult_lt_0_compat _ _ Hc Hp)) as H.
  rewrite ln_mult in H by assumption. lra.
Qed.

(** The logarithms of a softmax over [n] classes add up to at most
    [- n * ln n], the value at the uniform distribution. *)
Lemma sum_log_softmax_bound (row : list R) :
  row <> [] ->
  ssum (map ln (softmax row))
  <= - (INR (length row) * ln (INR (length row))).
Proof.
  intros Hrow. unfold softmax. cbn [sexp sdiv R_Transcendental R_Scalar].
  fold (@ssum R R_Scalar).
  set (S := ssum (map exp row)).
  assert (HS : 0 < S) by (apply ssum_exp_pos; exact Hrow).
  set (n := INR (length row)).
  assert (Hn : 0 < n).
  { unfold n. apply lt_0_INR. destruct row; [congruence|simpl; lia]. }
  rewrite map_map.
  eapply Rle_trans.
  - apply (ssum_map_le _ (fun x => n * (exp x / S) + (- 1 - ln n))).
    apply Forall_forall. intros x _.
    pose proof (ln_scaled n (exp x / S) Hn
                  (Rdiv_lt_0_compat _ _ (exp_pos x) HS)).
    lra.
  - rewrite (ssum_map_affine (fun x => exp x / S)).
    rewrite ssum_map_div. fold S. fold n.
    unfold Rdiv. rewrite Rinv_r by lra. lra.
Qed.

End RegulariserBound.

(** X19.  Over the reals, with at least two prototypes, at least one token
    and the normalisation constant C * ln C of the loss functions (C the
    number of prototypes), [proto_reg] returns a value that is at most -1:
    the sum of the log-probabilities of a softmax over C classes never
    exceeds - C * ln C. *)
Theorem proto_reg_at_most_minus_one {PF : Platform} (feat mn : matrix R) (contrast_temp : R) :
  mgrad mn = false -> mgrad feat = true -> wf_matrix mn ->
  ncols feat = ncols mn -> nrows feat <> 0 -> 2 <= nrows mn ->
  exists r : R,
    proto_reg feat (PyOne mn) contrast_temp
      (Some (INR (nrows mn) * ln (INR (nrows mn)))%R)
    = Ok (scalar_tensor r true) /\ (r <= -1)%R.
Proof.
  intros Hmg Hfg Hwf Hc Hsurv HC.
  unfold proto_reg.
  cbn [is_none negb assert bind unwrap]. rewrite Hmg, Hfg.
  cbn [negb assert bind].
  destruct (nrows feat =? 0) eqn:E; [apply Nat.eqb_eq in E; contradiction|].
  rewrite (mm_permute10 (mean_dim0_keep feat) mn Hwf Hc).
  cbn [bind mmap rows mean_dim0_keep map concat].
  rewrite app_nil_r.
  eexists. split; [reflexivity|].
  set (row := map _ (map _ (rows mn))).
  assert (Hlen : length row = nrows mn).
  { unfold row. rewrite !length_map. reflexivity. }
  assert (Hrow : row <> []).
  { intros E0. rewrite E0 in Hlen. simpl in Hlen. lia. }
  pose proof (sum_log_softmax_bound row Hrow) as Hb.
  rewrite Hlen in Hb.
  assert (Hn : (1 < INR (nrows mn))%R).
  { change 1%R with (INR 1). apply lt_INR. lia. }
  assert (Hln : (0 < ln (INR (nrows mn)))%R).
  { rewrite <- ln_1. apply ln_increasing; lra. }
  assert (Hpos : (0 < INR (nrows mn) * ln (INR (nrows mn)))%R)
    by (apply Rmult_lt_0_compat; lra).
  cbn [sdiv R_Scalar slog R_Transcendental].
  set (N := (INR (nrows mn) * ln (INR (nrows mn)))%R) in *.
  set (s := @ssum R R_Scalar (map ln (softmax row))) in *.
  apply (Rmult_le_reg_r N); [exact Hpos|].
  unfold Rdiv. rewrite Rmult_assoc, Rinv_l by lra. lra.
Qed.

Lemma proto_reg_at_most_minus_one_witness :
  exists r : R,
    proto_reg (@mkM R 1 [[2]]%R true) (PyOne (@mkM R 1 [[1]; [2]]%R false))
      100%R
      (Some (INR (nrows (@mkM R 1 [[1]; [2]]%R false))
             * ln (INR (nrows (@mkM R 1 [[1]; [2]]%R false))))%R)
    = Ok (scalar_tensor r true) /\ (r <= -1)%R.
Proof.
  assert (Hmn : wf_matrix (@mkM R 1 [[1]; [2]]%R false))
    by (repeat constructor).
  assert (Hs : nrows (@mkM R 1 [[2]]%R true) <> 0) by (simpl; discriminate).
  assert (HC : 2 <= nrows (@mkM R 1 [[1]; [2]]%R false))
    by (unfold nrows; simpl; lia).
  exact (proto_reg_at_most_minus_one (@mkM R 1 [[2]]%R true)
           (@mkM R 1 [[1]; [2]]%R false) 100%R eq_refl eq_refl Hmn eq_refl
           Hs HC).
Defined.

(** ** Asserted preconditions *)

(** X20.  What the three losses assert.  A non-negative [index] with a
    single feature map is an [AssertionError] before anything is computed.
    Once the alignment has returned: a missing [mean] (prototype and
    distribution variants), a missing [covariance], a missing [bank], a
    [mean] or [covariance] that requires a gradient, and features that do
    not require one are each an [AssertionError]; the bank variant does
    not look at [mean] when the regulariser is off. *)
Theorem losses_assert_their_inputs {PF : Platform} {F : Type} {SF : Scalar F}
    {TF : Transcendental F}
    (ft : tensor F) (mask : itensor) (mean covariance : pyarg (matrix F))
    (mn cv : matrix F) (bank : pyarg (pyarg (list (matrix F))))
    (ratio : F) (index : Z) (contrast_temp : F) (use_avg_pool : bool)
    (scale_min_ratio : F) (num_classes : nat) (weight : option (tensor F))
    (class_weight : option (list F)) (reduction : string)
    (avg_factor : option F) (reg_weight : F) (ignore_index : Z)
    (feat' : matrix F) (mask' : list Z) :
  contrast_preparations ft mask use_avg_pool scale_min_ratio num_classes
    ignore_index = Ok (feat', mask') ->
  ((0 <= index)%Z ->
   proto_contrastive (PyOne ft) mask mean index contrast_temp use_avg_pool
     scale_min_ratio num_classes weight class_weight reduction avg_factor
     reg_weight ignore_index = Raise AssertionError /\
   dist_contrastive (PyOne ft) mask mean covariance ratio index
     contrast_temp use_avg_pool scale_min_ratio num_classes weight
     class_weight reduction avg_factor reg_weight ignore_index
   = Raise AssertionError /\
   bank_contrastive (PyOne ft) mask bank mean index contrast_temp
     use_avg_pool scale_min_ratio num_classes weight reduction avg_factor
     reg_weight ignore_index = Raise AssertionError) /\
  (proto_contrastive (PyOne ft) mask PyNone (-1) contrast_temp use_avg_pool
     scale_min_ratio num_classes weight class_weight reduction avg_factor
     reg_weight ignore_index = Raise AssertionError /\
   dist_contrastive (PyOne ft) mask PyNone covariance ratio (-1)
     contrast_temp use_avg_pool scale_min_ratio num_classes weight
     class_weight reduction avg_factor reg_weight ignore_index
   = Raise AssertionError /\
   dist_contrastive (PyOne ft) mask (PyOne mn) PyNone ratio (-1)
     contrast_temp use_avg_pool scale_min_ratio num_classes weight
     class_weight reduction avg_factor reg_weight ignore_index
   = Raise AssertionError /\
   bank_contrastive (PyOne ft) mask PyNone mean (-1) contrast_temp
     use_avg_pool scale_min_ratio num_classes weight reduction avg_factor
     reg_weight ignore_index = Raise AssertionError) /\
  (mgrad mn = true ->
   proto_contrastive (PyOne ft) mask (PyOne mn) (-1) contrast_temp
     use_avg_pool scale_min_ratio num_classes weight class_weight reduction
     avg_factor reg_weight ignore_index = Raise AssertionError /\
   dist_contrastive (PyOne ft) mask (PyOne mn) (PyOne cv) ratio (-1)
     contrast_temp use_avg_pool scale_min_ratio num_classes weight
     class_weight reduction avg_factor reg_weight ignore_index
   = Raise AssertionError) /\
  (mgrad mn = false -> mgrad cv = true ->
   dist_contrastive (PyOne ft) mask (PyOne mn) (PyOne cv) ratio (-1)
     contrast_temp use_avg_pool scale_min_ratio num_classes weight
     class_weight reduction avg_factor reg_weight ignore_index
   = Raise AssertionError) /\
  (requires_grad ft = false -> mgrad mn = false -> mgrad cv = false ->
   proto_contrastive (PyOne ft) mask (PyOne mn) (-1) contrast_temp
     use_avg_pool scale_min_ratio num_classes weight class_weight reduction
     avg_factor reg_weight ignore_index = Raise AssertionError /\
   dist_contrastive (PyOne ft) mask (PyOne mn) (PyOne cv) ratio (-1)
     contrast_temp use_avg_pool scale_min_ratio num_classes weight
     class_weight reduction avg_factor reg_weight ignore_index
   = Raise AssertionError /\
   (sltb szero reg_weight = false ->
    bank_contrastive (PyOne ft) mask bank mean (-1) contrast_temp
      use_avg_pool scale_min_ratio num_classes weight reduction avg_factor
      reg_weight ignore_index = Raise AssertionError)).
Proof.
  intros Hprep.
  pose proof (contrast_preparations_grad _ _ _ _ _ _ _ _ Hprep) as Hg.
  unfold proto_contrastive, dist_contrastive, bank_contrastive.
  split; [|split; [|split; [|split]]].
  - intros Hi. apply Z.leb_le in Hi. rewrite Hi. repeat split; reflexivity.
  - cbn [Z.leb Z.compare bind fst snd unwrap]. rewrite Hprep.
    repeat split; reflexivity.
  - intros Hm. cbn [Z.leb Z.compare bind fst snd unwrap]. rewrite Hprep.
    cbn [bind fst snd is_none is_tensor negb assert unwrap]. rewrite Hm.
    repeat split; reflexivity.
  - intros Hm Hc. cbn [Z.leb Z.compare bind fst snd unwrap]. rewrite Hprep.
    cbn [bind fst snd is_none is_tensor negb assert unwrap].
    rewrite Hm, Hc. reflexivity.
  - intros Hf Hm Hc. cbn [Z.leb Z.compare bind fst snd unwrap].
    rewrite Hprep.
    cbn [bind fst snd is_none is_tensor negb assert unwrap].
    rewrite Hm, Hc, Hg, Hf. repeat split; try reflexivity.
    intros Hr. rewrite Hr. destruct bank; reflexivity.
Qed.

Lemma losses_assert_their_inputs_witness :
  let ft := @mkT R [1; 1; 1; 2] [1; 2]%R true in
  let mask := mkI [1; 1; 1; 2] [255; 1]%Z in
  proto_contrastive (PyOne ft) mask PyNone (-1) 100%R true 1%R 2 None None
    "mean" None 0%R 255%Z = Raise AssertionError.
Proof.
  cbv zeta.
  exact (proj1 (proj1 (proj2 (losses_assert_their_inputs
    (@mkT R [1; 1; 1; 2] [1; 2]%R true) (mkI [1; 1; 1; 2] [255; 1]%Z)
    PyNone PyNone (@mkM R 1 [[1]; [2]]%R false) (@mkM R 1 [[1]; [2]]%R false)
    PyNone 1%R (-1) 100%R true 1%R 2 None None "mean" None 0%R 255%Z
    (@mkM R 1 [[2]]%R true) [1%Z] eq_refl)))).
Defined.

(** ** Weights and the class order of the bank loss *)

(** X21.  Over the reals, on a well-formed call of [bank_contrastive]
    (at least two classes, exemplars of the right width for every class,
    every surviving label a class index) with a per-token weight vector
    and reduction 'none': the i-th weight multiplies the i-th entry of the
    loss in class order, that is, the loss of the i-th token only when the
    tokens happen to be sorted by class. *)
Theorem bank_contrastive_weights_follow_class_order {PF : Platform}
    (feat : pyarg (tensor R)) (ft : tensor R) (mask : itensor)
    (bank : pyarg (pyarg (list (matrix R)))) (bk : pyarg (list (matrix R)))
    (stored : nat -> list (matrix R)) (mean : pyarg (matrix R))
    (index : Z) (contrast_temp : R) (use_avg_pool : bool)
    (scale_min_ratio : R) (num_classes : nat) (ignore_index : Z)
    (feat' : matrix R) (mask' : list Z) (w : list R) (gw : bool) :
  wf_itensor mask ->
  picked_list index feat ft -> picked_bank index bank bk ->
  contrast_preparations ft mask use_avg_pool scale_min_ratio num_classes
    ignore_index = Ok (feat', mask') ->
  bank_holds bk stored num_classes (ncols feat') ->
  requires_grad ft = true -> nrows feat' <> 0 -> 2 <= num_classes ->
  Forall (fun y => in_classes num_classes y = true) mask' ->
  length w = nrows feat' ->
  bank_contrastive feat mask bank mean index contrast_temp use_avg_pool
    scale_min_ratio num_classes (Some (vector_tensor w gw)) "none" None 0%R
    ignore_index
  = Ok (mkT [nrows feat']
            (map2 Rmult
               (bank_loss (stored_rows stored) contrast_temp num_classes
                  (rows feat') mask') w)
            true).
Proof.
  intros Hwfm Hf Hb Hprep Hholds Hgrad Hsurv HC Hlab Hw.
  destruct (contrast_preparations_inv ft mask use_avg_pool scale_min_ratio
              num_classes ignore_index feat' mask' Hwfm Hprep)
    as (_ & Hg & _ & Hn & _).
  rewrite Hgrad in Hg.
  assert (Hlen : length (bank_loss (stored_rows stored) contrast_temp
                           num_classes (rows feat') mask') = nrows feat').
  { rewrite length_bank_loss by exact Hn.
    rewrite filter_all by exact Hlab. symmetry. exact Hn. }
  unfold bank_contrastive.
  pose proof (select_feat_bank index feat bank mean 0%R ft bk Hf Hb
                sltb_zero_zero) as E.
  rewrite sltb_zero_zero in E. rewrite sltb_zero_zero, E.
  cbn [bind fst snd unwrap]. rewrite Hprep.
  cbn [bind fst snd is_none negb assert]. rewrite Hg. cbn [bind assert].
  destruct (nrows feat' =? 0) eqn:E0; [apply Nat.eqb_eq in E0; contradiction|].
  rewrite (bank_losses_closed_form bk stored num_classes (ncols feat')
             contrast_temp Hholds feat' mask' _ eq_refl HC).
  assert (Hwt : weighted
            (vector_tensor (bank_loss (stored_rows stored) contrast_temp
                              num_classes (rows feat') mask') true)
            (Some (vector_tensor w gw))
            (mkT [nrows feat']
               (map2 Rmult
                  (bank_loss (stored_rows stored) contrast_temp num_classes
                     (rows feat') mask') w)
               true)).
  { split; [reflexivity|]. split; [unfold dim; simpl; lia|].
    rewrite tmul_vectors by congruence. rewrite Hlen. reflexivity. }
  unfold weight_reduce_loss at 1.
  rewrite (weighting_step _ _ _ Hwt). cbn [bind].
  unfold reduce_loss, get_enum. simpl String.eqb. cbn [bind Nat.eqb].
  unfold add_regulariser. rewrite sltb_zero_zero. reflexivity.
Qed.

Lemma bank_contrastive_weights_follow_class_order_witness :
  let ft := @mkT R [1; 1; 1; 2] [1; 2]%R true in
  let mask := mkI [1; 1; 1; 2] [1; 0]%Z in
  let ex := @mkM R 1 [[1]]%R false in
  bank_contrastive (PyOne ft) mask (PyOne (PyList [[ex]; [ex]])) PyNone (-1)
    100%R true 1%R 2 (Some (vector_tensor [10; 20]%R false)) "none" None
    0%R 255%Z
  = Ok (mkT [nrows (@mkM R 1 [[1]; [2]]%R true)]
          (map2 Rmult
             (bank_loss (stored_rows (fun _ : nat => [ex])) 100%R 2
                [[1]; [2]]%R [1; 0]%Z)
             [10; 20]%R)
          true).
Proof.
  cbv zeta.
  assert (Hlab : Forall (fun y => in_classes 2 y = true) [1; 0]%Z)
    by (repeat constructor).
  exact (bank_contrastive_weights_follow_class_order
    (PyOne (@mkT R [1; 1; 1; 2] [1; 2]%R true))
    (@mkT R [1; 1; 1; 2] [1; 2]%R true)
    (mkI [1; 1; 1; 2] [1; 0]%Z)
    (PyOne (PyList [[@mkM R 1 [[1]]%R false]; [@mkM R 1 [[1]]%R false]]))
    (PyList [[@mkM R 1 [[1]]%R false]; [@mkM R 1 [[1]]%R false]])
    (fun _ : nat => [@mkM R 1 [[1]]%R false]) PyNone (-1) 100%R true 1%R 2
    255%Z (@mkM R 1 [[1]; [2]]%R true) [1; 0]%Z [10; 20]%R false
    eq_refl (or_introl (conj eq_refl eq_refl))
    (or_introl (conj eq_refl eq_refl)) eq_refl two_class_bank_holds eq_refl
    (Nat.neq_succ_0 1) (le_n 2) Hlab eq_refl).
Defined.

(** ** A bank that misses a class *)

Lemma foldM_raise_at {A S} (f : S -> A -> result S) (e : exn) (a : A)
    (l2 : list A) : forall (l1 : list A) (s : S),
  (forall s x, In x l1 -> exists s', f s x = Ok s') ->
  (forall s, f s a = Raise e) ->
  foldM f s (l1 ++ a :: l2) = Raise e.
Proof.
  induction l1 as [|x l1 IH]; intros s Hok Ha; cbn [app foldM].
  - rewrite Ha. reflexivity.
  - destruct (Hok s x (or_introl eq_refl)) as [s' Hs']. rewrite Hs'.
    cbn [bind]. apply IH; [|exact Ha].
    intros s0 y Hy. apply Hok. right. exact Hy.
Qed.

Lemma seq_split_at (k n : nat) :
  k < n -> seq 0 n = seq 0 k ++ k :: seq (S k) (n - S k).
Proof.
  intros H. replace n with (k + S (n - S k)) at 1 by lia.
  rewrite seq_app. reflexivity.
Qed.

(** X22.  [bank_contrastive] reads the exemplars of every class below
    [num_classes] for every class group, also for classes without a token
    in the batch.  If the exemplars of the classes below [k] are in place
    and class [k] has an empty deque, the call raises the error that
    [torch.cat] raises on an empty list (a [ValueError] or a [RuntimeError],
    depending on the release); if the bank has no entry for [k], it raises
    the error of the lookup ([IndexError] for a list, [KeyError] for a
    dict). *)
Theorem bank_contrastive_needs_every_class {F : Type} {SF : Scalar F}
    {TF : Transcendental F} {PF : Platform}
    (feat : pyarg (tensor F)) (ft : tensor F) (mask : itensor)
    (bank : pyarg (pyarg (list (matrix F)))) (bk : pyarg (list (matrix F)))
    (stored : nat -> list (matrix F)) (mean : pyarg (matrix F))
    (index : Z) (contrast_temp : F) (use_avg_pool : bool)
    (scale_min_ratio : F) (num_classes : nat) (weight : option (tensor F))
    (reduction : string) (avg_factor : option F) (reg_weight : F)
    (ignore_index : Z) (feat' : matrix F) (mask' : list Z) (k : nat) :
  picked_list index feat ft -> picked_bank index bank bk ->
  contrast_preparations ft mask use_avg_pool scale_min_ratio num_classes
    ignore_index = Ok (feat', mask') ->
  requires_grad ft = true -> nrows feat' <> 0 ->
  sltb szero reg_weight = false ->
  k < num_classes ->
  (forall idx, idx < k ->
     getitem bk (Z.of_nat idx) = Ok (PyOne (stored idx)) /\
     stored idx <> [] /\
     Forall (fun m => ncols m = ncols feat') (stored idx)) ->
  (getitem bk (Z.of_nat k) = Ok (PyOne []) ->
   bank_contrastive feat mask bank mean index contrast_temp use_avg_pool
     scale_min_ratio num_classes weight reduction avg_factor reg_weight
     ignore_index = Raise cat_empty_error) /\
  (forall e, getitem bk (Z.of_nat k) = Raise e ->
   bank_contrastive feat mask bank mean index contrast_temp use_avg_pool
     scale_min_ratio num_classes weight reduction avg_factor reg_weight
     ignore_index = Raise e).
Proof.
  intros Hf Hb Hprep Hgrad Hsurv Hreg Hk Hstored.
  assert (Hstep : forall e,
            (forall fc cls st,
               bank_step bk fc contrast_temp cls st k = Raise e) ->
            bank_contrastive feat mask bank mean index contrast_temp
              use_avg_pool scale_min_ratio num_classes weight reduction
              avg_factor reg_weight ignore_index = Raise e).
  { intros e He. unfold bank_contrastive.
    pose proof (select_feat_bank index feat bank mean reg_weight ft bk Hf Hb
                  Hreg) as E.
    rewrite Hreg in E. rewrite Hreg, E.
    cbn [bind fst snd unwrap]. rewrite Hprep.
    cbn [bind fst snd is_none negb assert].
    rewrite (contrast_preparations_grad _ _ _ _ _ _ _ _ Hprep), Hgrad.
    cbn [bind assert].
    destruct (nrows feat' =? 0) eqn:E0;
      [apply Nat.eqb_eq in E0; contradiction|].
    destruct num_classes as [|C]; [lia|].
    cbn [seq mapM]. unfold bank_class_loss at 1.
    change (0 :: seq 1 C) with (seq 0 (S C)).
    rewrite (seq_split_at k (S C) Hk).
    rewrite (foldM_raise_at _ e k); [reflexivity| |].
    - intros st idx Hidx. apply in_seq in Hidx.
      destruct (Hstored idx ltac:(lia)) as (Hget & Hne & Hcols).
      unfold bank_step. rewrite Hget. cbn [bind unwrap].
      rewrite (cat0_ok (stored idx) (ncols feat') Hne Hcols). cbn [bind].
      unfold mm. rewrite nrows_permute10. cbn [mselect ncols].
      rewrite Nat.eqb_refl. cbn [bind].
      destruct (idx =? 0); eexists; reflexivity.
    - intros st. apply He. }
  split.
  - intros Hget. apply Hstep. intros fc cls st.
    unfold bank_step. rewrite Hget. reflexivity.
  - intros e Hget. apply Hstep. intros fc cls st.
    unfold bank_step. rewrite Hget. reflexivity.
Qed.

Lemma bank_contrastive_needs_every_class_witness :
  let ft := @mkT R [1; 1; 1; 2] [1; 2]%R true in
  let mask := mkI [1; 1; 1; 2] [0; 0]%Z in
  let ex := @mkM R 1 [[1]]%R false in
  bank_contrastive (PyOne ft) mask (PyOne (PyList [[ex]; []])) PyNone (-1)
    100%R true 1%R 2 None "mean" None 0%R 255%Z = Raise ValueError.
Proof.
  cbv zeta.
  assert (Hs : nrows (@mkM R 1 [[1]; [2]]%R true) <> 0)
    by (simpl; discriminate).
  assert (Hst : forall idx, idx < 1 ->
     getitem (PyList [[@mkM R 1 [[1]]%R false]; []]) (Z.of_nat idx)
     = Ok (PyOne ((fun _ : nat => [@mkM R 1 [[1]]%R false]) idx)) /\
     (fun _ : nat => [@mkM R 1 [[1]]%R false]) idx <> [] /\
     Forall (fun m => ncols m = ncols (@mkM R 1 [[1]; [2]]%R true))
            ((fun _ : nat => [@mkM R 1 [[1]]%R false]) idx)).
  { intros idx Hidx. assert (idx = 0) by lia. subst idx.
    repeat split; try discriminate. repeat constructor. }
  exact (proj1 (bank_contrastive_needs_every_class
    (PyOne (@mkT R [1; 1; 1; 2] [1; 2]%R true))
    (@mkT R [1; 1; 1; 2] [1; 2]%R true)
    (mkI [1; 1; 1; 2] [0; 0]%Z)
    (PyOne (PyList [[@mkM R 1 [[1]]%R false]; []]))
    (PyList [[@mkM R 1 [[1]]%R false]; []])
    (fun _ : nat => [@mkM R 1 [[1]]%R false]) PyNone (-1) 100%R true 1%R 2
    None "mean" None 0%R 255%Z (@mkM R 1 [[1]; [2]]%R true) [0; 0]%Z 1
    (or_introl (conj eq_refl eq_refl)) (or_introl (conj eq_refl eq_refl))
    eq_refl eq_refl Hs sltb_zero_zero (le_n 2) Hst) eq_refl).
Defined.

(** ** Reduced bank loss *)

Section BankSum.
Open Scope R_scope.

Lemma ssum_app (l m : list R) : ssum (l ++ m) = ssum l + ssum m.
Proof.
  induction l as [|x l IH]; simpl; [ring|].
  fold (ssum (l ++ m)). fold (ssum l). rewrite IH. ring.
Qed.

Lemma ssum_flat_map {A} (h : A -> list R) (l : list A) :
  ssum (flat_map h l) = ssum (map (fun c => ssum (h c)) l).
Proof.
  induction l as [|a l IH]; [reflexivity|].
  cbn [flat_map map]. rewrite ssum_app, IH. reflexivity.
Qed.

Lemma ssum_map_plus {A} (a b : A -> R) (l : list A) :
  ssum (map (fun c => a c + b c) l) = ssum (map a l) + ssum (map b l).
Proof.
  induction l as [|x l IH]; simpl; [ring|].
  fold (ssum (map (fun c => a c + b c) l)).
  fold (ssum (map a l)). fold (ssum (map b l)). rewrite IH. ring.
Qed.

Lemma ssum_pick (y : Z) (g : nat -> R) : forall n k : nat,
  (0 <= y)%Z ->
  ssum (map (fun c => if (y =? Z.of_nat c)%Z then g c else 0) (seq k n))
  = if (k <=? Z.to_nat y)%nat && (Z.to_nat y <? k + n)%nat
    then g (Z.to_nat y) else 0.
Proof.
  induction n as [|n IH]; intros k Hy.
  - simpl. destruct (k <=? Z.to_nat y)%nat eqn:E1; [|reflexivity].
    destruct (Z.to_nat y <? k + 0)%nat eqn:E2; [|reflexivity].
    apply Nat.leb_le in E1. apply Nat.ltb_lt in E2. lia.
  - cbn [seq map]. cbn [ssum fold_right].
    fold (ssum (map (fun c => if (y =? Z.of_nat c)%Z then g c else 0)
                    (seq (S k) n))).
    rewrite (IH (S k) Hy).
    destruct (y =? Z.of_nat k)%Z eqn:E.
    + apply Z.eqb_eq in E.
      assert (Et : Z.to_nat y = k) by lia. rewrite Et.
      replace (S k <=? k)%nat with false
        by (symmetry; apply Nat.leb_gt; lia).
      replace (k <=? k)%nat with true by (symmetry; apply Nat.leb_le; lia).
      replace (k <? k + S n)%nat with true
        by (symmetry; apply Nat.ltb_lt; lia).
      simpl. apply Rplus_0_r.
    + apply Z.eqb_neq in E.
      assert (Et : Z.to_nat y <> k) by lia.
      destruct (S k <=? Z.to_nat y)%nat eqn:E1;
        destruct (k <=? Z.to_nat y)%nat eqn:E2;
        destruct (Z.to_nat y <? S k + n)%nat eqn:E3;
        destruct (Z.to_nat y <? k + S n)%nat eqn:E4;
        cbn [andb]; try apply Rplus_0_l;
        repeat match goal with
               | H : (_ <=? _)%nat = true |- _ => apply Nat.leb_le in H
               | H : (_ <=? _)%nat = false |- _ => apply Nat.leb_gt in H
               | H : (_ <? _)%nat = true |- _ => apply Nat.ltb_lt in H
               | H : (_ <? _)%nat = false |- _ => apply Nat.ltb_ge in H
               end; lia.
Qed.

(** The sum of the class-ordered losses is the sum of the token losses in
    token order. *)
Lemma ssum_bank_loss (ex : nat -> list (list R)) (temp : R) (C : nat) :
  forall (feat : list (list R)) (mask : list Z),
  length feat = length mask ->
  Forall (fun y => in_classes C y = true) mask ->
  ssum (bank_loss ex temp C feat mask)
  = ssum (map2 (fun f y => bank_token ex temp C (Z.to_nat y) f) feat mask).
Proof.
  unfold bank_loss.
  induction feat as [|f feat IH]; intros [|y mask] Hl Hin;
    simpl in Hl; try discriminate.
  - rewrite ssum_flat_map. simpl.
    induction (seq 0 C) as [|c l IHl]; simpl; [reflexivity|].
    fold (ssum (map (fun _ : nat => @ssum R R_Scalar []) l)).
    unfold class_tokens in *. simpl in *. rewrite IHl. simpl. ring.
  - pose proof (Forall_inv Hin) as Hy.
    pose proof (Forall_inv_tail Hin) as Hm.
    unfold in_classes in Hy. apply andb_prop in Hy as [Hy1 Hy2].
    apply Z.leb_le in Hy1. apply Z.ltb_lt in Hy2.
    cbn [map2 ssum fold_right].
    fold (ssum (map2 (fun f y => bank_token ex temp C (Z.to_nat y) f)
                     feat mask)).
    rewrite <- (IH mask ltac:(lia) Hm).
    rewrite !ssum_flat_map.
    rewrite (map_ext
      (fun c => ssum (map (bank_token ex temp C c)
                        (class_tokens (f :: feat) (y :: mask) c)))
      (fun c => (if (y =? Z.of_nat c)%Z then bank_token ex temp C c f else 0)
                + ssum (map (bank_token ex temp C c)
                          (class_tokens feat mask c)))).
    + rewrite ssum_map_plus. f_equal.
      rewrite (ssum_pick y (fun c => bank_token ex temp C c f) C 0 Hy1).
      replace (0 <=? Z.to_nat y)%nat with true
        by (symmetry; apply Nat.leb_le; lia).
      replace (Z.to_nat y <? 0 + C)%nat with true
        by (symmetry; apply Nat.ltb_lt; lia).
      reflexivity.
    + intros c. unfold class_tokens. cbn [map select].
      destruct (y =? Z.of_nat c)%Z; simpl; [reflexivity|].
      symmetry. apply Rplus_0_l.
Qed.

End BankSum.

(** X23.  Over the reals, on a well-formed call of [bank_contrastive]
    (at least two classes, exemplars of the right width for every class,
    every surviving label a class index) with reduction 'sum' and no
    weight, the regrouping by class does not show: the result is the sum,
    over the surviving tokens in their own order, of each token's loss
    against the exemplars of its label. *)
Theorem bank_contrastive_sum_ignores_order {PF : Platform}
    (feat : pyarg (tensor R)) (ft : tensor R) (mask : itensor)
    (bank : pyarg (pyarg (list (matrix R)))) (bk : pyarg (list (matrix R)))
    (stored : nat -> list (matrix R)) (mean : pyarg (matrix R))
    (index : Z) (contrast_temp : R) (use_avg_pool : bool)
    (scale_min_ratio : R) (num_classes : nat) (ignore_index : Z)
    (feat' : matrix R) (mask' : list Z) :
  wf_itensor mask ->
  picked_list index feat ft -> picked_bank index bank bk ->
  contrast_preparations ft mask use_avg_pool scale_min_ratio num_classes
    ignore_index = Ok (feat', mask') ->
  bank_holds bk stored num_classes (ncols feat') ->
  requires_grad ft = true -> nrows feat' <> 0 -> 2 <= num_classes ->
  Forall (fun y => in_classes num_classes y = true) mask' ->
  bank_contrastive feat mask bank mean index contrast_temp use_avg_pool
    scale_min_ratio num_classes None "sum" None 0%R ignore_index
  = Ok (scalar_tensor
          (ssum (map2 (fun f y =>
                         bank_token (stored_rows stored) contrast_temp
                           num_classes (Z.to_nat y) f)
                      (rows feat') mask'))
          true).
Proof.
  intros Hwfm Hf Hb Hprep Hholds Hgrad Hsurv HC Hlab.
  destruct (contrast_preparations_inv ft mask use_avg_pool scale_min_ratio
              num_classes ignore_index feat' mask' Hwfm Hprep)
    as (_ & Hg & _ & Hn & _).
  rewrite Hgrad in Hg.
  unfold bank_contrastive.
  pose proof (select_feat_bank index feat bank mean 0%R ft bk Hf Hb
                sltb_zero_zero) as E.
  rewrite sltb_zero_zero in E. rewrite sltb_zero_zero, E.
  cbn [bind fst snd unwrap]. rewrite Hprep.
  cbn [bind fst snd is_none negb assert]. rewrite Hg. cbn [bind assert].
  destruct (nrows feat' =? 0) eqn:E0; [apply Nat.eqb_eq in E0; contradiction|].
  rewrite (bank_losses_closed_form bk stored num_classes (ncols feat')
             contrast_temp Hholds feat' mask' _ eq_refl HC).
  unfold weight_reduce_loss, reduce_loss, get_enum. simpl String.eqb.
  cbn [bind Nat.eqb].
  unfold add_regulariser. rewrite sltb_zero_zero.
  unfold tsum, vector_tensor. cbn [data requires_grad].
  rewrite ssum_bank_loss by assumption. reflexivity.
Qed.

Lemma bank_contrastive_sum_ignores_order_witness :
  let ft := @mkT R [1; 1; 1; 2] [1; 2]%R true in
  let mask := mkI [1; 1; 1; 2] [1; 0]%Z in
  let ex := @mkM R 1 [[1]]%R false in
  bank_contrastive (PyOne ft) mask (PyOne (PyList [[ex]; [ex]])) PyNone (-1)
    100%R true 1%R 2 None "sum" None 0%R 255%Z
  = Ok (scalar_tensor
          (ssum (map2 (fun f y =>
                         bank_token (stored_rows (fun _ : nat => [ex]))
                           100%R 2 (Z.to_nat y) f)
                      [[1]; [2]]%R [1; 0]%Z))
          true).
Proof.
  cbv zeta.
  assert (Hlab : Forall (fun y => in_classes 2 y = true) [1; 0]%Z)
    by (repeat constructor).
  exact (bank_contrastive_sum_ignores_order
    (PyOne (@mkT R [1; 1; 1; 2] [1; 2]%R true))
    (@mkT R [1; 1; 1; 2] [1; 2]%R true)
    (mkI [1; 1; 1; 2] [1; 0]%Z)
    (PyOne (PyList [[@mkM R 1 [[1]]%R false]; [@mkM R 1 [[1]]%R false]]))
    (PyList [[@mkM R 1 [[1]]%R false]; [@mkM R 1 [[1]]%R false]])
    (fun _ : nat => [@mkM R 1 [[1]]%R false]) PyNone (-1) 100%R true 1%R 2
    255%Z (@mkM R 1 [[1]; [2]]%R true) [1; 0]%Z
    eq_refl (or_introl (conj eq_refl eq_refl))
    (or_introl (conj eq_refl eq_refl)) eq_refl two_class_bank_holds eq_refl
    (Nat.neq_succ_0 1) (le_n 2) Hlab).
Defined.

(** ** The module *)

Lemma mapM_raise_at {A B} (f : A -> result B) (e : exn) (a : A)
    (l2 : list A) : forall l1 : list A,
  (forall x, In x l1 -> exists b, f x = Ok b) ->
  f a = Raise e ->
  mapM f (l1 ++ a :: l2) = Raise e.
Proof.
  induction l1 as [|x l1 IH]; intros Hok Ha; cbn [app mapM].
  - rewrite Ha. reflexivity.
  - destruct (Hok x (or_introl eq_refl)) as [b Hb]. rewrite Hb.
    cbn [bind]. rewrite IH; [reflexivity| |exact Ha].
    intros y Hy. apply Hok. right. exact Hy.
Qed.

Lemma mapM_positions {A B} (g : nat -> result B) (h : A -> result B) (d : A) :
  forall (l : list A) (k : nat),
  (forall i, i < length l -> g (k + i) = h (nth i l d)) ->
  mapM g (seq k (length l)) = mapM h l.
Proof.
  induction l as [|a l IH]; intros k H; cbn [length seq mapM];
    [reflexivity|].
  pose proof (H 0 ltac:(simpl; lia)) as H0.
  rewrite Nat.add_0_r in H0. rewrite H0. cbn [nth].
  rewrite (IH (S k)); [reflexivity|].
  intros i Hi. replace (S k + i) with (k + S i) by lia.
  apply (H (S i)). simpl. lia.
Qed.

Lemma nth_error_repeat_if {A} (x : A) (n i : nat) :
  nth_error (repeat x n) i = if i <? n then Some x else None.
Proof.
  revert i. induction n as [|n IH]; intros [|i]; simpl; try reflexivity.
  rewrite IH. reflexivity.
Qed.

(** X24.  Construction fails with [AssertionError] when both the
    distribution and the bank variant are selected, before the class-weight
    file is looked at, and when [num_classes] is missing.  Otherwise it
    returns as soon as the class weights load; the criterion is
    [dist_contrastive] with [use_dist], [bank_contrastive] with [use_bank],
    and [proto_contrastive] with neither. *)
Theorem init_exclusive_variants {F : Type} (fs : file_readers F)
    (ud ub ur uap : bool) (smr : F) (nc : option nat) (temp : F)
    (red : string) (cw : class_weight_arg F) (lw : loss_weight_arg)
    (rrw : F) :
  (ud = true -> ub = true ->
   init fs ud ub ur uap smr nc temp red cw lw rrw = Raise AssertionError) /\
  (nc = None ->
   init fs ud ub ur uap smr nc temp red cw lw rrw = Raise AssertionError) /\
  (forall n v, ud && ub = false -> nc = Some n ->
     get_class_weight fs cw = Ok v ->
     exists self,
       init fs ud ub ur uap smr nc temp red cw lw rrw = Ok self /\
       contrast_criterion self
       = (if ud then DistContrastive
          else if ub then BankContrastive else ProtoContrastive) /\
       use_dist self = ud /\ use_bank self = ub /\ use_reg self = ur /\
       num_classes self = n /\ class_weight self = v /\
       loss_weight self = lw /\ reg_weight self = rrw /\
       reduction self = red /\ contrast_temp self = temp) /\
  (forall self, init fs ud ub ur uap smr nc temp red cw lw rrw = Ok self ->
     use_dist self && use_bank self = false).
Proof.
  unfold init. split; [|split; [|split]].
  - intros -> ->. reflexivity.
  - intros ->. destruct (negb ud || negb ub); reflexivity.
  - intros n v Hx -> Hcw.
    replace (negb ud || negb ub) with true
      by (destruct ud, ub; try reflexivity; discriminate).
    cbn [assert bind]. rewrite Hcw. cbn [bind].
    eexists. split; [reflexivity|]. cbn. repeat split; reflexivity.
  - intros self.
    destruct ud, ub; cbn [negb orb assert bind]; try discriminate;
      destruct nc; try discriminate;
      destruct (get_class_weight fs cw); cbn [bind]; try discriminate;
      intros E; injection E as <-; reflexivity.
Qed.

Lemma init_exclusive_variants_witness :
  init (mkReaders (fun _ => Raise RuntimeError) (fun _ => Raise RuntimeError)
          (fun _ => Raise RuntimeError) (fun _ => Raise RuntimeError))
    true true false true (3 # 4)%Q (Some 19) 100%Q "mean" CwNone
    (LwNumber 1%Q) 1%Q
  = Raise AssertionError.
Proof.
  apply (proj1 (init_exclusive_variants
    (mkReaders (fun _ => Raise RuntimeError) (fun _ => Raise RuntimeError)
       (fun _ => Raise RuntimeError) (fun _ => Raise RuntimeError))
    true true false true (3 # 4)%Q (Some 19) 100%Q "mean" CwNone
    (LwNumber 1%Q) 1%Q)).
  - reflexivity.
  - reflexivity.
Defined.

(** X25.  With class weights configured, a call on a list of feature maps
    raises [AttributeError] ([new_tensor] is asked of the list) before any
    criterion is called, and leaves the module as it was. *)
Theorem forward_class_weight_needs_tensor {PF : Platform} {F : Type} {SF : Scalar F}
    {TF : Transcendental F} (self : ContrastiveLoss)
    (l : list (tensor F)) (mask : itensor) (weight : option (tensor F))
    (avg_factor : option F) (reduction_override : option string)
    (kw : kwargs) :
  class_weight self <> CwNone ->
  reduction_override_ok reduction_override = true ->
  forward self (PyList l) mask weight avg_factor reduction_override kw
  = (self, Raise AttributeError).
Proof.
  intros Hcw Hro. unfold forward. rewrite Hro. cbn [negb].
  unfold new_tensor. destruct (class_weight self); [congruence| |];
    reflexivity.
Qed.

Lemma forward_class_weight_needs_tensor_witness :
  let self := mkContrastiveLoss false false false true (3 / 4)%R 100%R 2
                "mean" (LwNumber 1%R) 1%R (CwList [1%R; 2%R])
                ProtoContrastive in
  forward self (PyList [@mkT R [1; 1; 1; 2] [1; 2]%R true])
    (mkI [1; 1; 1; 2] [0; 1]%Z) None None None
    (mkKwargs PyNone PyNone PyNone None None)
  = (self, Raise AttributeError).
Proof.
  cbv zeta.
  apply (forward_class_weight_needs_tensor
           (mkContrastiveLoss false false false true (3 / 4)%R 100%R 2
              "mean" (LwNumber 1%R) 1%R (CwList [1%R; 2%R])
              ProtoContrastive)).
  - discriminate.
  - reflexivity.
Defined.

(** X26.  A call on a list of feature maps replaces a scalar
    [loss_weight] by a list as long as that call's list, for good: a later
    call on a longer list raises [IndexError] once the branches covered by
    the stored list have been computed, and a later call on a single
    feature map raises [TypeError] after its loss has been computed (the
    stored list cannot multiply a tensor). *)
Theorem forward_freezes_loss_weight {PF : Platform} {F : Type} {SF : Scalar F}
    {TF : Transcendental F} (self : ContrastiveLoss) (x : F)
    (l : list (tensor F)) (mask : itensor) (weight : option (tensor F))
    (avg_factor : option F) (reduction_override : option string)
    (kw : kwargs) :
  class_weight self = CwNone ->
  loss_weight self = LwNumber x ->
  reduction_override_ok reduction_override = true ->
  let self1 := fst (forward self (PyList l) mask weight avg_factor
                      reduction_override kw) in
  self1 = set_loss_weight self (LwList (repeat x (length l))) /\
  (forall (l' : list (tensor F)) (mask' : itensor)
          (weight' : option (tensor F)) (avg_factor' : option F)
          (reduction' : string) (kw' : kwargs),
     (reduction' = "none" \/ reduction' = "mean" \/ reduction' = "sum")%string ->
     length l < length l' ->
     (forall i, i < length l -> exists t,
        call_criterion self1 (PyList l') mask' weight' (Z.of_nat i) None
          reduction' avg_factor' kw' = Ok t) ->
     forward self1 (PyList l') mask' weight' avg_factor' (Some reduction')
       kw'
     = (self1, Raise IndexError)) /\
  (forall (t : tensor F) (mask' : itensor) (weight' : option (tensor F))
          (avg_factor' : option F) (reduction' : string) (kw' : kwargs)
          (loss : tensor F),
     (reduction' = "none" \/ reduction' = "mean" \/ reduction' = "sum")%string ->
     call_criterion self1 (PyOne t) mask' weight' (-1) None reduction'
       avg_factor' kw' = Ok loss ->
     forward self1 (PyOne t) mask' weight' avg_factor' (Some reduction') kw'
     = (self1, Raise TypeError)).
Proof.
  intros Hcw Hlw Hro. cbv zeta.
  assert (E1 : fst (forward self (PyList l) mask weight avg_factor
                      reduction_override kw)
               = set_loss_weight self (LwList (repeat x (length l)))).
  { unfold forward. rewrite Hro, Hcw, Hlw. reflexivity. }
  rewrite E1. clear E1.
  set (self1 := set_loss_weight self (LwList (repeat x (length l)))).
  assert (Hro' : forall r,
            (r = "none" \/ r = "mean" \/ r = "sum")%string ->
            reduction_override_ok (Some r) = true).
  { intros r [-> | [-> | ->]]; reflexivity. }
  split; [reflexivity|]. split.
  - intros l' mask' weight' avg_factor' reduction' kw' Hr Hlen Hok.
    unfold forward. rewrite (Hro' _ Hr). cbn [negb].
    change (class_weight self1) with (class_weight self). rewrite Hcw.
    cbn [new_tensor]. change (loss_weight self1)
      with (LwList (repeat x (length l))). cbv iota. f_equal.
    rewrite (seq_split_at (length l) (length l') Hlen).
    rewrite (mapM_raise_at _ IndexError); [reflexivity| |].
    + intros i Hi. apply in_seq in Hi.
      unfold loss_weight_at.
      change (loss_weight self1) with (LwList (repeat x (length l))).
      cbv iota. rewrite nth_error_repeat_if.
      replace (i <? length l) with true
        by (symmetry; apply Nat.ltb_lt; lia).
      cbn [bind]. destruct (Hok i ltac:(lia)) as [t Ht].
      rewrite Ht. cbn [bind]. eexists. reflexivity.
    + unfold loss_weight_at.
      change (loss_weight self1) with (LwList (repeat x (length l))).
      cbv iota. rewrite nth_error_repeat_if, Nat.ltb_irrefl.
      reflexivity.
  - intros t mask' weight' avg_factor' reduction' kw' loss Hr Hcall.
    unfold forward. rewrite (Hro' _ Hr). cbn [negb].
    change (class_weight self1) with (class_weight self). rewrite Hcw.
    cbn [new_tensor]. rewrite Hcall. reflexivity.
Qed.

(** X27.  On the empty list of feature maps (no class weights configured)
    no criterion is called and the result is the integer 0 that [sum]
    starts from, not a tensor. *)
Theorem forward_empty_list {PF : Platform} {F : Type} {SF : Scalar F}
    {TF : Transcendental F} (self : ContrastiveLoss) (mask : itensor)
    (weight : option (tensor F)) (avg_factor : option F)
    (reduction_override : option string) (kw : kwargs) :
  class_weight self = CwNone ->
  reduction_override_ok reduction_override = true ->
  snd (forward self (PyList []) mask weight avg_factor reduction_override kw)
  = Ok (PyInt 0).
Proof.
  intros Hcw Hro. unfold forward. rewrite Hro, Hcw. reflexivity.
Qed.

Lemma forward_empty_list_witness :
  snd (forward
         (mkContrastiveLoss false false false true (3 / 4)%R 100%R 2
            "mean" (LwNumber 1%R) 1%R CwNone ProtoContrastive)
         (PyList []) (mkI [1; 1; 1; 2] [0; 1]%Z) None None (Some "sum"%string)
         (mkKwargs PyNone PyNone PyNone None None))
  = Ok (PyInt 0).
Proof.
  apply (forward_empty_list
           (mkContrastiveLoss false false false true (3 / 4)%R 100%R 2
              "mean" (LwNumber 1%R) 1%R CwNone ProtoContrastive)).
  - reflexivity.
  - reflexivity.
Defined.

(** X28.  With the prototype variant, a scalar [loss_weight] and one
    prototype tensor per branch, a call on a list of feature maps computes
    the loss of every branch on its own feature map and prototypes (the
    same mask for all), multiplies each by [loss_weight] and adds them up
    from 0; the first branch that raises decides the error. *)
Theorem forward_sums_branches {PF : Platform} {F : Type} {SF : Scalar F}
    {TF : Transcendental F} (self : ContrastiveLoss) (x : F)
    (feats : list (tensor F)) (means : list (matrix F)) (mask : itensor)
    (weight : option (tensor F)) (avg_factor : option F)
    (reduction_override : option string) (kw : kwargs) :
  contrast_criterion self = ProtoContrastive ->
  class_weight self = CwNone ->
  loss_weight self = LwNumber x ->
  reduction_override_ok reduction_override = true ->
  kw_mean kw = PyList means ->
  length means = length feats ->
  snd (forward self (PyList feats) mask weight avg_factor reduction_override
         kw)
  = (losses <-
       mapM (fun fm =>
               loss <- call_criterion self (PyOne (fst fm)) mask weight (-1)
                         None
                         (match reduction_override with
                          | Some r => r
                          | None => reduction self
                          end)
                         avg_factor
                         (mkKwargs (PyOne (snd fm)) (kw_covariance kw)
                            (kw_bank kw) (kw_ratio kw) (kw_ignore_index kw)) ;;
               Ok (tmul_scalar loss x))
            (combine feats means) ;;
     py_sum losses).
Proof.
  intros Hcrit Hcw Hlw Hro Hmean Hlen.
  unfold forward. rewrite Hro, Hcw, Hlw. cbn [negb new_tensor snd].
  f_equal.
  assert (Hlc : length (combine feats means) = length feats)
    by (rewrite length_combine; lia).
  replace (seq 0 (length feats))
    with (seq 0 (length (combine feats means)))
    by (rewrite Hlc; reflexivity).
  destruct feats as [|f0 feats0] eqn:Ef;
    [destruct means; [reflexivity|discriminate]|].
  destruct means as [|m0 means0] eqn:Em; [discriminate|].
  rewrite <- Ef, <- Em in *.
  apply (mapM_positions _ _ (f0, m0)). intros i Hi.
  rewrite Hlc in Hi. cbn [Nat.add].
  unfold loss_weight_at. cbn [set_loss_weight loss_weight].
  rewrite nth_error_repeat_if.
  replace (i <? length feats) with true by (symmetry; apply Nat.ltb_lt; lia).
  cbn [bind]. f_equal.
  unfold call_criterion. cbn [set_loss_weight contrast_criterion use_reg
    reg_weight contrast_temp use_avg_pool scale_min_ratio num_classes
    kw_mean kw_ignore_index].
  rewrite Hcrit, Hmean.
  rewrite combine_nth by (symmetry; exact Hlen). cbn [fst snd].
  assert (Hf : picked_list (Z.of_nat i) (PyList feats) (nth i feats f0)).
  { right. split; [lia|]. split; [reflexivity|].
    cbn [getitem]. rewrite Nat2Z.id.
    rewrite (nth_error_nth' feats f0 Hi). reflexivity. }
  assert (Hm : picked (Z.of_nat i) (PyList means) (nth i means m0)).
  { right. split; [lia|]. split; [reflexivity|].
    cbn [getitem]. rewrite Nat2Z.id.
    rewrite (nth_error_nth' means m0) by lia. reflexivity. }
  unfold proto_contrastive.
  rewrite (select_feat_mean (Z.of_nat i) (PyList feats) (PyList means)
             (nth i feats f0) (nth i means m0) Hf Hm).
  reflexivity.
Qed.

Lemma forward_freezes_loss_weight_witness :
  let self := mkContrastiveLoss false false false true (3 / 4)%R 100%R 2
                "mean" (LwNumber 1%R) 1%R CwNone ProtoContrastive in
  let ft := @mkT R [1; 1; 1; 2] [1; 2]%R true in
  let mask := mkI [1; 1; 1; 2] [255; 255]%Z in
  let kw := mkKwargs (PyOne (@mkM R 1 [[1]; [2]]%R false)) PyNone PyNone
              None None in
  forward (PF := cuda_host)
    (fst (forward (PF := cuda_host) self (PyList [ft]) mask None None None
            kw))
    (PyOne ft) mask None None (Some "mean"%string) kw
  = (fst (forward (PF := cuda_host) self (PyList [ft]) mask None None None
            kw),
     Raise TypeError).
Proof.
  cbv zeta.
  apply (proj2 (proj2 (forward_freezes_loss_weight
    (mkContrastiveLoss false false false true (3 / 4)%R 100%R 2
       "mean" (LwNumber 1%R) 1%R CwNone ProtoContrastive) 1%R
    [@mkT R [1; 1; 1; 2] [1; 2]%R true] (mkI [1; 1; 1; 2] [255; 255]%Z)
    None None None
    (mkKwargs (PyOne (@mkM R 1 [[1]; [2]]%R false)) PyNone PyNone None None)
    eq_refl eq_refl eq_refl))
    (@mkT R [1; 1; 1; 2] [1; 2]%R true) (mkI [1; 1; 1; 2] [255; 255]%Z)
    None None "mean"%string
    (mkKwargs (PyOne (@mkM R 1 [[1]; [2]]%R false)) PyNone PyNone None None)
    zero_loss).
  - right. left. reflexivity.
  - reflexivity.
Defined.

Lemma forward_sums_branches_witness :
  let self := mkContrastiveLoss false false false true (3 / 4)%R 100%R 2
                "mean" (LwNumber 2%R) 1%R CwNone ProtoContrastive in
  let ft := @mkT R [1; 1; 1; 2] [1; 2]%R true in
  let mn := @mkM R 1 [[1]; [2]]%R false in
  let mask := mkI [1; 1; 1; 2] [255; 255]%Z in
  let kw := mkKwargs (PyList [mn; mn]) PyNone PyNone None None in
  snd (forward (PF := cuda_host) self (PyList [ft; ft]) mask None None None
         kw)
  = (losses <-
       mapM (fun fm =>
               loss <- call_criterion (PF := cuda_host) self
                         (PyOne (fst fm)) mask None (-1) None "mean" None
                         (mkKwargs (PyOne (snd fm)) PyNone PyNone None None) ;;
               Ok (tmul_scalar loss 2%R))
            (combine [ft; ft] [mn; mn]) ;;
     py_sum losses).
Proof.
  cbv zeta.
  apply (forward_sums_branches
    (mkContrastiveLoss false false false true (3 / 4)%R 100%R 2
       "mean" (LwNumber 2%R) 1%R CwNone ProtoContrastive) 2%R
    [@mkT R [1; 1; 1; 2] [1; 2]%R true; @mkT R [1; 1; 1; 2] [1; 2]%R true]
    [@mkM R 1 [[1]; [2]]%R false; @mkM R 1 [[1]; [2]]%R false]
    (mkI [1; 1; 1; 2] [255; 255]%Z) None None None
    (mkKwargs (PyList [@mkM R 1 [[1]; [2]]%R false;
                       @mkM R 1 [[1]; [2]]%R false])
       PyNone PyNone None None)).
  - reflexivity.
  - reflexivity.
  - reflexivity.
  - reflexivity.
  - reflexivity.
  - reflexivity.
Defined.

(** ** The decorator *)

Section DecoratorFacts.
Context {F : Type} {SF : Scalar F}.

Lemma tsub_vectors (a b : list F) (ga gb : bool) :
  length a = length b ->
  tsub (vector_tensor a ga) (vector_tensor b gb)
  = Ok (mkT [length a] (map2 ssub a b) (ga || gb)).
Proof.
  intros Hl. unfold tsub, vector_tensor, dim, pad_shape; simpl.
  rewrite <- Hl, Nat.eqb_refl. f_equal. f_equal.
  rewrite !chunks_singletons by (auto; lia).
  apply concat_map2_singletons.
Qed.

Lemma l1_loss_vectors (p t : list F) (gp gt : bool) :
  length p = length t ->
  l1_loss (vector_tensor p gp) (vector_tensor t gt)
  = Ok (vector_tensor (abs_differences p t) (gp || gt)).
Proof.
  intros Hl. unfold l1_loss. rewrite (tsub_vectors p t gp gt Hl).
  cbn [bind]. unfold tabs, vector_tensor, abs_differences.
  cbn [shape data requires_grad]. rewrite map_map2, length_map2.
  rewrite <- Hl, Nat.min_id. reflexivity.
Qed.

End DecoratorFacts.

(** X29.  The decorated [l1_loss] of the docstring, on two vectors of one
    length: with the default arguments it is the mean of the absolute
    differences; with reduction 'none' it is the vector of the absolute
    differences; with a weight vector and [avg_factor] it is the sum of
    the weighted absolute differences divided by [avg_factor].  On the
    docstring's data (pred [0,2,3], target [1,1,1], weight [1,0,1]) over
    the rationals this gives 4/3, 1, [1,1,2] and 3/2, the documented
    1.3333, 1., [1., 1., 2.] and 1.5. *)
Theorem weighted_loss_l1_loss {F : Type} {SF : Scalar F}
    (p t w : list F) (gp gt gw : bool)
    (avg_factor : F) :
  length p = length t -> length w = length p ->
  (weighted_loss l1_loss (vector_tensor p gp) (vector_tensor t gt) None
     "mean" None
   = Ok (scalar_tensor (ssum (abs_differences p t) /! of_nat (length p))
           (gp || gt)) /\
   weighted_loss l1_loss (vector_tensor p gp) (vector_tensor t gt) None
     "none" None
   = Ok (vector_tensor (abs_differences p t) (gp || gt)) /\
   weighted_loss l1_loss (vector_tensor p gp) (vector_tensor t gt)
     (Some (vector_tensor w gw)) "mean" (Some avg_factor)
   = Ok (scalar_tensor
           (ssum (map2 smul (abs_differences p t) w) /! avg_factor)
           (gp || gt || gw)))
  /\
  (let pred := vector_tensor [0; 2; 3]%Q false in
   let target := vector_tensor [1; 1; 1]%Q false in
   let weight := vector_tensor [1; 0; 1]%Q false in
   weighted_loss l1_loss pred target None "mean" None
   = Ok (scalar_tensor (4 # 3)%Q false) /\
   weighted_loss l1_loss pred target (Some weight) "mean" None
   = Ok (scalar_tensor (3 # 3)%Q false) /\
   weighted_loss l1_loss pred target None "none" None
   = Ok (vector_tensor [1; 1; 2]%Q false) /\
   weighted_loss l1_loss pred target (Some weight) "mean" (Some 2%Q)
   = Ok (scalar_tensor (3 # 2)%Q false)).
Proof.
  intros Hl Hw. split.
  - assert (Hlen : length (abs_differences p t) = length p).
    { unfold abs_differences. rewrite length_map2, <- Hl. apply Nat.min_id. }
    unfold weighted_loss. rewrite (l1_loss_vectors p t gp gt Hl).
    cbn [bind]. split; [|split].
    + unfold weight_reduce_loss, reduce_loss, get_enum. simpl String.eqb.
      cbn [bind Nat.eqb]. unfold tmean, numel, vector_tensor.
      cbn [shape data requires_grad prod_list fold_right].
      rewrite Hlen, Nat.mul_1_r. reflexivity.
    + reflexivity.
    + assert (Hwt : weighted
                (vector_tensor (abs_differences p t) (gp || gt))
                (Some (vector_tensor w gw))
                (mkT [length (abs_differences p t)]
                   (map2 smul (abs_differences p t) w) (gp || gt || gw))).
      { split; [reflexivity|]. split; [unfold dim; simpl; lia|].
        apply tmul_vectors. congruence. }
      unfold weight_reduce_loss. rewrite (weighting_step _ _ _ Hwt).
      reflexivity.
  - cbv zeta. repeat split; reflexivity.
Qed.

Lemma weighted_loss_l1_loss_witness :
  weighted_loss l1_loss (vector_tensor [0; 2; 3]%R false)
    (vector_tensor [1; 1; 1]%R false) None "none" None
  = Ok (vector_tensor (abs_differences [0; 2; 3]%R [1; 1; 1]%R)
          (false || false)).
Proof.
  apply (proj1 (weighted_loss_l1_loss [0; 2; 3]%R [1; 1; 1]%R [1; 0; 1]%R
                  false false false 2%R eq_refl eq_refl)).
Defined.
